(** * A shallow embedding of the go-code-health-analyzer metrics engine

    The development follows the Go sources of the [analyzer] package:
    the shared union-find ([lcom4.go]), the cohesion analyzer (LCOM4),
    the cyclomatic-complexity walk ([complexity.go], [loc.go]), the
    coupling and dependency-depth computations ([coupling.go]), method
    clustering ([method_clustering.go]), the field-usage cluster estimate
    and the diagnostics rule set ([diagnostics.go]).

    Conventions.
    - A Go [int] is modelled by [Z].  Every [int] computed here counts
      syntax nodes, slice elements or map entries; no operation of the
      modelled code can reach [2^63], so the wrap-around is never taken.
    - A Go [float64] is a binary64 primitive float ([float]).
    - A Go [string] is a [string] (its bytes); a [map[string]T] is a
      [gmap string T], reading a missing key yields the zero value.
    - The order in which [range] visits a map is left open by the
      language.  It is a parameter of the model ([MapIteration]): every
      theorem holds for every iteration order. *)

From Stdlib Require Import ZArith Floats.
From stdpp Require Import gmap strings list fin_maps sets pretty relations.

Local Open Scope Z_scope.
(* [set_solver] clears hypotheses by name; some are already gone. *)
#[global] Set Warnings "-clear-no-such-hyp".

(** ** Go runtime conventions *)

(** Iteration over a map: some enumeration of its entries, each of them
    exactly once.  The function is applied to the entries in the
    canonical order of [map_to_list]. *)
Class MapIteration := {
  go_range : ∀ A : Type, list A → list A;
  go_range_perm : ∀ (A : Type) (l : list A), go_range A l ≡ₚ l
}.

(** One admissible order, used to run the model on concrete inputs. *)
Definition canonical_iteration : MapIteration :=
  {| go_range := λ _ l, l; go_range_perm := λ _ l, reflexivity l |}.

Section GoMaps.
Context `{MapIteration}.

(** [for k, v := range m] *)
Definition range_map {V} (m : gmap string V) : list (string * V) :=
  go_range _ (map_to_list m).

(** [for k := range m] for a [map[string]bool] used as a set. *)
Definition range_set (s : gset string) : list string :=
  go_range _ (elements s).
End GoMaps.

(** [fmt.Sprintf] with the verb [%d]. *)
Definition fmt_d (z : Z) : string := pretty z.

(** ** The syntax trees the analyzers walk ([go/ast])

    A node carries its dynamic type, the fields the visitors read and its
    non-nil children in the order of [ast.Walk]. *)
Inductive Token := LAND | LOR | OtherToken (name : string).

Inductive NodeKind :=
| Ident (Name : string)
| SelectorExpr              (* children: X, Sel *)
| StarExpr                  (* children: X *)
| BinaryExpr (Op : Token)   (* children: X, Y *)
| CallExpr                  (* children: Fun, Args *)
| FuncLit
| BlockStmt
| IfStmt                    (* children: Init?, Cond, Body, Else? *)
| ForStmt
| RangeStmt
| SwitchStmt
| TypeSwitchStmt
| SelectStmt
| CaseClause (List : nat)   (* len(List); List, then Body *)
| CommClause (Comm : bool)  (* Comm != nil; Comm?, then Body *)
| OtherNode.

#[local] Unset Elimination Schemes.
Inductive Node := mkNode { kind : NodeKind; children : list Node }.
#[local] Set Elimination Schemes.

(** [*ast.Field] of a receiver or of a struct type. *)
Record Field := { Names : list string; Type_ : Node }.

(** The body of a function with the lines of its braces
    ([fset.Position(...).Line]). *)
Record FuncBody := { Lbrace : Z; Rbrace : Z; Block : Node }.

Record FuncDecl := {
  Recv : option (list Field);
  Name : string;
  Body : option FuncBody
}.

(** The [*ast.FuncDecl] nodes of a file, in the order [ast.Inspect]
    meets them. *)
Definition File := list FuncDecl.

Record StructType := { Fields : option (list Field) }.

(** [ast.Inspect(node, f)]: [f] is called on every node in depth-first
    order; the children are visited when it answers [true], and then [f]
    is called once more with [nil]. *)
Fixpoint Inspect {S : Type} (f : option Node → S → bool * S) (n : Node) (s : S) : S :=
  match n with
  | mkNode _ cs =>
      let '(descend, s1) := f (Some n) s in
      if descend
      then snd (f None (fold_left (λ acc c, Inspect f c acc) cs s1))
      else s1
  end.

(** ** Result records ([types.go]) *)

Record MethodCluster := {
  ID : Z;
  Methods : list string;
  Size : Z;
  CalledBy : list string;
  ResponsibilityHint : string
}.

Record MethodClusterAnalysis := {
  TotalPrivateMethods : Z;
  ClusterCount : Z;
  Clusters : list MethodCluster;
  HasMultipleIslands : bool
}.

Record FieldMatrixAnalysis := {
  Matrix : list (list Z);
  MethodNames : list string;
  FieldNames : list string;
  EstimatedClusters : Z;
  ExplainedVariance : list float;
  HasMultipleResponsibilities : bool;
  Recommendations : string
}.

Record StructResult := {
  StructName : string;
  FilePath : string;
  LCOM4Score : Z;
  ComponentDetails : list (list string);
  MethodClusters : option MethodClusterAnalysis;
  FieldMatrix : option FieldMatrixAnalysis
}.

Record FunctionResult := {
  FuncName : string;
  FuncFilePath : string;
  Complexity : Z;
  LoC : Z;
  FuncEfferent : Z;
  FuncAfferent : Z;
  FuncInstability : float
}.

Record PackageResult := {
  PkgName : string;
  Path : string;
  Afferent : Z;
  Efferent : Z;
  Instability : float;
  Structs : list StructResult;
  Functions : list FunctionResult
}.

(** A value stored in an evidence map ([interface{}]). *)
Inductive EvidenceValue :=
| EvInt (z : Z)
| EvString (s : string)
| EvFloat (x : float)
| EvStrings (l : list string)
| EvFloats (l : list float)
| EvClusters (l : list MethodCluster).

Record DiagnosticResult := {
  Type' : string;
  TargetName : string;
  Message : string;
  Severity : string;
  Evidence : gmap string EvidenceValue;
  RelatedPath : string
}.

(** ** Diagnostics ([diagnostics.go]) *)

(** The finding appended for struct [s] of package [pkg]. *)
Definition godObjectResult (pkg : PackageResult) (s : StructResult) : DiagnosticResult :=
  {| Type' := "God Object";
     TargetName := PkgName pkg +:+ "." +:+ StructName s;
     Message := "Struct '" +:+ StructName s +:+ "' has excessive responsibilities (LCOM4="
                +:+ fmt_d (LCOM4Score s) +:+ ") and is heavily depended upon (Ca="
                +:+ fmt_d (Afferent pkg)
                +:+ "). Consider splitting into smaller, focused structs.";
     Severity := "Critical";
     Evidence := {[ "lcom4_score" := EvInt (LCOM4Score s);
                    "afferent" := EvInt (Afferent pkg);
                    "package" := EvString (PkgName pkg);
                    "file_path" := EvString (FilePath s) ]};
     RelatedPath := "#struct-" +:+ Path pkg +:+ "-" +:+ StructName s |}.

(** [detectGodObjects]: the outer loop skips ([continue]) a package whose
    afferent coupling is below 10; the inner loop appends one result for
    each struct whose LCOM4 score is at least 5. *)
Definition detectGodObjects (packages : list PackageResult) : list DiagnosticResult :=
  fold_left
    (λ results pkg,
       if Afferent pkg <? 10 then results
       else
         fold_left
           (λ results s,
              if LCOM4Score s >=? 5 then results ++ [godObjectResult pkg s]
              else results)
           (Structs pkg) results)
    packages [].

(** ** Cyclomatic complexity ([complexity.go], [loc.go]) *)

(** The closure passed to [ast.Inspect] by [calculateFunctionComplexity];
    the captured counter [complexity] is the state.  It always answers
    [true]; on [nil] no case of the type switch applies. *)
Definition complexityVisitor (n : option Node) (complexity : Z) : bool * Z :=
  match n with
  | Some (mkNode IfStmt _) => (true, complexity + 1)
  | Some (mkNode ForStmt _) | Some (mkNode RangeStmt _) => (true, complexity + 1)
  | Some (mkNode SwitchStmt _) | Some (mkNode TypeSwitchStmt _) => (true, complexity + 1)
  | Some (mkNode (CaseClause List) _) =>
      (true, if (0 <? List)%nat then complexity + 1 else complexity)
  | Some (mkNode (CommClause Comm) _) =>
      (true, if Comm then complexity + 1 else complexity)
  | Some (mkNode (BinaryExpr Op) _) =>
      (true, match Op with
             | LAND | LOR => complexity + 1
             | OtherToken _ => complexity
             end)
  | _ => (true, complexity)
  end.

Definition calculateFunctionComplexity (funcDecl : FuncDecl) : Z :=
  let complexity := 1 in
  match Body funcDecl with
  | None => complexity
  | Some body => Inspect complexityVisitor (Block body) complexity
  end.

(** [CalculateFunctionLoC]; the argument is a pointer and may be [nil]. *)
Definition CalculateFunctionLoC (funcDecl : option FuncDecl) : Z :=
  match funcDecl with
  | None => 0
  | Some fd =>
      match Body fd with
      | None => 0
      | Some body =>
          let lines := Rbrace body - Lbrace body in
          if lines <? 0 then 0 else lines
      end
  end.

(** ** The shared union-find ([lcom4.go]) *)

Record unionFind := {
  parent : gmap string string;
  rank : gmap string Z
}.

Definition newUnionFind : unionFind := {| parent := ∅; rank := ∅ |}.

(** [uf.parent[node]] and [uf.rank[node]]: the zero value for a key that
    is not in the map. *)
Definition parentOf (uf : unionFind) (node : string) : string :=
  default "" (parent uf !! node).
Definition rankOf (uf : unionFind) (node : string) : Z :=
  default 0 (rank uf !! node).

Definition setParent (node p : string) (uf : unionFind) : unionFind :=
  {| parent := <[node := p]> (parent uf); rank := rank uf |}.
Definition setRank (node : string) (r : Z) (uf : unionFind) : unionFind :=
  {| parent := parent uf; rank := <[node := r]> (rank uf) |}.

(** Methods of [*unionFind] that call [find] thread the structure
    through; [None] stands for a call that does not return. *)
Definition UF (A : Type) : Type := unionFind → option (A * unionFind).

Definition uf_ret {A} (a : A) : UF A := λ uf, Some (a, uf).
Definition uf_bind {A B} (m : UF A) (k : A → UF B) : UF B :=
  λ uf, match m uf with
        | Some (a, uf') => k a uf'
        | None => None
        end.

Notation "x ←uf m ; k" := (uf_bind m (λ x, k))
  (at level 20, m at level 100, k at level 200, only parsing, right associativity).

(** [for _, x := range l { body(x) }] over a slice. *)
Fixpoint uf_for {A} (l : list A) (body : A → UF unit) : UF unit :=
  match l with
  | [] => uf_ret tt
  | x :: l => _ ←uf body x; uf_for l body
  end.

(** [add] *)
Definition add (node : string) (uf : unionFind) : unionFind :=
  match parent uf !! node with
  | Some _ => uf
  | None => setRank node 0 (setParent node node uf)
  end.

(** [find], with path compression.  The recursion follows the parent
    links; [fuel] bounds its depth. *)
Fixpoint find_rec (fuel : nat) (node : string) : UF string :=
  match fuel with
  | O => λ _, None
  | S fuel => λ uf,
      if decide (parentOf uf node ≠ node) then
        (root ←uf find_rec fuel (parentOf uf node);
         λ uf, let uf := setParent node root uf in
               Some (parentOf uf node, uf)) uf
      else Some (parentOf uf node, uf)
  end.

(** A chain of parent links visits the node it starts from, keys of the
    map and possibly the empty string, each at most once. *)
Definition find (node : string) : UF string :=
  λ uf, find_rec (S (S (size (parent uf)))) node uf.

(** [union], by rank. *)
Definition union (node1 node2 : string) : UF unit :=
  root1 ←uf find node1;
  root2 ←uf find node2;
  λ uf,
    if decide (root1 = root2) then Some (tt, uf)
    else if rankOf uf root1 <? rankOf uf root2 then
      Some (tt, setParent root1 root2 uf)
    else if rankOf uf root1 >? rankOf uf root2 then
      Some (tt, setParent root2 root1 uf)
    else
      let uf := setParent root2 root1 uf in
      Some (tt, setRank root1 (rankOf uf root1 + 1) uf).

Section UnionFindComponents.
Context `{MapIteration}.

(** [getComponents]: the first loop ranges over the keys of
    [uf.parent] (only values are assigned while it runs), the second
    over [componentMap]. *)
Definition getComponents : UF (list (list string)) :=
  λ uf,
    let nodes := (range_map (parent uf)).*1 in
    let loop :=
      fold_left
        (λ (acc : UF (gmap string (list string))) node,
           componentMap ←uf acc;
           root ←uf find node;
           uf_ret (<[root := default [] (componentMap !! root) ++ [node]]> componentMap))
        nodes (uf_ret ∅) in
    (componentMap ←uf loop;
     uf_ret (range_map componentMap).*2) uf.
End UnionFindComponents.

(** ** Cohesion: LCOM4 ([lcom4.go]) *)

Record methodInfo := {
  name : string;
  usedFields : gset string   (* map[string]bool, every stored value is true *)
}.

(** [extractFields] *)
Definition extractFields (structType : StructType) : list string :=
  match Fields structType with
  | None => []
  | Some fieldList =>
      fold_left
        (λ fields field, fold_left (λ fields n, fields ++ [n]) (Names field) fields)
        fieldList []
  end.

(** The closure of [findUsedFields]: a selector expression [x.sel] whose
    [x] is the receiver and whose [sel] is a field of the struct. *)
Definition usedFieldsVisitor (recvName : string) (fieldMap : gset string)
    (n : option Node) (usedFields : gset string) : bool * gset string :=
  match n with
  | Some (mkNode SelectorExpr (mkNode (Ident x) _ :: mkNode (Ident sel) _ :: _)) =>
      if decide (x = recvName ∧ sel ∈ fieldMap)
      then (true, {[sel]} ∪ usedFields)
      else (true, usedFields)
  | _ => (true, usedFields)
  end.

Definition findUsedFields (body : option FuncBody) (recvName : string)
    (fieldMap : gset string) : gset string :=
  match body with
  | None => ∅
  | Some body => Inspect (usedFieldsVisitor recvName fieldMap) (Block body) ∅
  end.

(** The type switch on the receiver's type: [T] or [*T]. *)
Definition recvTypeName (recv : Field) : string :=
  match Type_ recv with
  | mkNode (Ident n) _ => n
  | mkNode StarExpr (mkNode (Ident n) _ :: _) => n
  | _ => ""
  end.

Definition recvVarName (recv : Field) : string :=
  match Names recv with
  | n :: _ => n
  | [] => ""
  end.

(** [extractMethods] *)
Definition extractMethods (structName : string) (file : File)
    (structFields : list string) : list methodInfo :=
  let fieldMap : gset string := list_to_set structFields in
  fold_left
    (λ methods funcDecl,
       match Recv funcDecl with
       | None => methods
       | Some recvList =>
           fold_left
             (λ methods recv,
                if decide (recvTypeName recv = structName) then
                  methods ++ [{| name := Name funcDecl;
                                 usedFields := findUsedFields (Body funcDecl)
                                                 (recvVarName recv) fieldMap |}]
                else methods)
             recvList methods
       end)
    file [].

Section Cohesion.
Context `{MapIteration}.

(** [calculateStructLCOM4] *)
Definition calculateStructLCOM4 (structName : string) (structType : StructType)
    (file : File) (fileName : string) : option StructResult :=
  let fields := extractFields structType in
  let methods := extractMethods structName file fields in
  if decide (length methods = 0%nat) then
    Some {| StructName := structName; FilePath := fileName; LCOM4Score := 0;
            ComponentDetails := []; MethodClusters := None; FieldMatrix := None |}
  else
    let uf := newUnionFind in
    let uf := fold_left (λ uf method, add (name method) uf) methods uf in
    let uf := fold_left (λ uf field, add field uf) fields uf in
    match
      (_ ←uf uf_for methods (λ method,
               uf_for (range_set (usedFields method)) (λ field,
                 union (name method) field));
       getComponents) uf
    with
    | Some (components, _) =>
        Some {| StructName := structName; FilePath := fileName;
                LCOM4Score := Z.of_nat (length components);
                ComponentDetails := components;
                MethodClusters := None; FieldMatrix := None |}
    | None => None
    end.
End Cohesion.

(** * Further functions of the analyzer *)

#[global] Set Warnings "-inexact-float".

(** ** Go library functions *)

(** [strings.HasPrefix(s, prefix)] *)
Definition HasPrefix (s prefix : string) : bool := String.prefix prefix s.

(** The conversion [float64(n)] of an [int]: the nearest binary64 value,
    ties to even. *)
Definition float64_of_int (n : Z) : float :=
  SF2Prim (binary_normalize prec emax n 0 false).

(** ** Dependencies of a function ([complexity.go]) *)

(** [CategorizeDependencies]: the two named results, [internal] and
    [external], grow by [append]. *)
Definition CategorizeDependencies (deps : list string) (projectPrefix : string)
    : list string * list string :=
  fold_left
    (λ '(internal, external) dep,
       if HasPrefix dep projectPrefix then (internal ++ [dep], external)
       else (internal, external ++ [dep]))
    deps ([], []).

(** ** Package coupling ([coupling.go]) *)

Record PackageDependency := {
  DepPkgPath : string;
  Imports : list string;
  ImportedBy : list string
}.

Record CouplingMetrics := {
  CmAfferent : Z;
  CmEfferent : Z;
  CmInstability : float
}.

(** The inner loops of [CalculateCoupling]: [ca++] (or [ce++]) for every
    path with the project prefix. *)
Definition countWithPrefix (paths : list string) (projectPrefix : string) : Z :=
  fold_left (λ c path, if HasPrefix path projectPrefix then c + 1 else c) paths 0.

Definition couplingOf (dep : PackageDependency) (projectPrefix : string) : CouplingMetrics :=
  let ca := countWithPrefix (ImportedBy dep) projectPrefix in
  let ce := countWithPrefix (Imports dep) projectPrefix in
  let instability := 0%float in
  let instability :=
    if ca + ce >? 0 then (float64_of_int ce / float64_of_int (ca + ce))%float
    else instability in
  {| CmAfferent := ca; CmEfferent := ce; CmInstability := instability |}.

Section Coupling.
Context `{MapIteration}.

(** [CalculateCoupling] *)
Definition CalculateCoupling (pkgDeps : gmap string PackageDependency)
    (projectPrefix : string) : gmap string CouplingMetrics :=
  fold_left
    (λ metrics '(pkgPath, dep), <[pkgPath := couplingOf dep projectPrefix]> metrics)
    (range_map pkgDeps) ∅.
End Coupling.

(** ** The estimate of the number of field clusters *)

(** The three loops of [estimateClusterCount]. *)
Definition kaiserCount (eigenvalues : list float) : Z :=
  fold_left (λ count ev, if (1 <? ev)%float then count + 1 else count) eigenvalues 0.

(** [for i := 0; i < len(explainedVariance)-1; i++]: the body runs while
    at least two entries are left, and [break]s at the first entry that
    is not above 0.1. *)
Fixpoint elbowLoop (explainedVariance : list float) (i elbowCount : Z) : Z :=
  match explainedVariance with
  | v :: (_ :: _) as rest =>
      if (0.1 <? v)%float then elbowLoop rest (i + 1) (i + 1) else elbowCount
  | _ => elbowCount
  end.

(** [for i, ratio := range explainedVariance], with its [break]. *)
Fixpoint varianceLoop (explainedVariance : list float) (i : Z)
    (cumulativeVariance : float) (varianceCount : Z) : Z :=
  match explainedVariance with
  | [] => varianceCount
  | ratio :: rest =>
      let cumulativeVariance := (cumulativeVariance + ratio)%float in
      let varianceCount := i + 1 in
      if (0.8 <=? cumulativeVariance)%float then varianceCount
      else varianceLoop rest (i + 1) cumulativeVariance varianceCount
  end.

(** [estimateClusterCount] *)
Definition estimateClusterCount (eigenvalues explainedVariance : list float) : Z :=
  if decide (length eigenvalues = 0%nat) then 1
  else
    let kaiserCount := kaiserCount eigenvalues in
    let elbowCount := elbowLoop explainedVariance 0 1 in
    let varianceCount := varianceLoop explainedVariance 0 0 0 in
    let estimate := kaiserCount in
    let estimate := if elbowCount >? estimate then elbowCount else estimate in
    let estimate := if varianceCount <? estimate then varianceCount else estimate in
    let estimate := if estimate <? 1 then 1 else estimate in
    let estimate := if estimate >? 5 then 5 else estimate in
    estimate.

(** ** Dependency depth ([coupling.go]) *)

(** The three maps [CalculateDependencyDepth] allocates.  [visited] and
    [inProgress] are [map[string]bool] that are only read by key: each
    is modelled by the set of keys that map to [true], so
    [inProgress[p] = false] removes [p]. *)
Record depthState := {
  depths : gmap string Z;
  visited : gset string;
  inProgress : gset string
}.

(** The key under which a package is entered in [fullToRelPath]. *)
Definition fullPathOf (projectPrefix pkgPath : string) : string :=
  if decide (pkgPath = "") then projectPrefix
  else projectPrefix +:+ "/" +:+ pkgPath.

Section DependencyDepth.
Context `{MapIteration}.
Variable pkgDeps : gmap string PackageDependency.
Variable projectPrefix : string.

(** The first loop: the mapping from full import path to relative path. *)
Definition buildFullToRelPath : gmap string string :=
  fold_left
    (λ fullToRelPath '(pkgPath, _),
       <[fullPathOf projectPrefix pkgPath := pkgPath]> fullToRelPath)
    (range_map pkgDeps) ∅.

Variable fullToRelPath : gmap string string.

(** The loop over [dep.Imports] in the closure [dfs]; [dfs] is the
    recursive call, [maxDepth] the local variable. *)
Fixpoint importsLoop (dfs : string → depthState → option (Z * depthState))
    (imports : list string) (maxDepth : Z) (st : depthState)
    : option (Z * depthState) :=
  match imports with
  | [] => Some (maxDepth, st)
  | importPath :: rest =>
      if HasPrefix importPath projectPrefix then
        match fullToRelPath !! importPath with
        | Some relPath =>
            match dfs relPath st with
            | Some (childDepth, st) =>
                importsLoop dfs rest
                  (if childDepth >? maxDepth then childDepth else maxDepth) st
            | None => None
            end
        | None => importsLoop dfs rest maxDepth st
        end
      else importsLoop dfs rest maxDepth st
  end.

(** The closure [dfs].  Go recurses without a bound; the model stops
    with [None] when [fuel] nested calls are open. *)
Fixpoint dfs (fuel : nat) (pkgPath : string) (st : depthState)
    : option (Z * depthState) :=
  match fuel with
  | O => None
  | S fuel =>
      if decide (pkgPath ∈ visited st) then
        Some (default 0 (depths st !! pkgPath), st)
      else if decide (pkgPath ∈ inProgress st) then Some (0, st)
      else
        let st := {| depths := depths st; visited := visited st;
                     inProgress := {[pkgPath]} ∪ inProgress st |} in
        let dep := pkgDeps !! pkgPath in
        let walked :=
          match dep with
          | Some dep => importsLoop (dfs fuel) (Imports dep) 0 st
          | None => Some (0, st)
          end in
        match walked with
        | None => None
        | Some (maxDepth, st) =>
            let hasImports :=
              match dep with
              | Some dep => bool_decide (0 < length (Imports dep))%nat
              | None => false
              end in
            let depth := if (maxDepth >? 0) || hasImports then maxDepth + 1 else 0 in
            Some (depth,
                  {| depths := <[pkgPath := depth]> (depths st);
                     visited := {[pkgPath]} ∪ visited st;
                     inProgress := inProgress st ∖ {[pkgPath]} |})
        end
  end.

(** The last loop: [dfs] from every package not yet visited. *)
Fixpoint depthLoop (fuel : nat) (pkgPaths : list string) (st : depthState)
    : option depthState :=
  match pkgPaths with
  | [] => Some st
  | pkgPath :: rest =>
      if decide (pkgPath ∈ visited st) then depthLoop fuel rest st
      else
        match dfs fuel pkgPath st with
        | Some (_, st) => depthLoop fuel rest st
        | None => None
        end
  end.
End DependencyDepth.

(** [CalculateDependencyDepth].  No chain of nested calls of [dfs] is
    longer than the number of packages plus one (see
    [CalculateDependencyDepth_total]). *)
Definition CalculateDependencyDepth `{MapIteration}
    (pkgDeps : gmap string PackageDependency) (projectPrefix : string)
    : option (gmap string Z) :=
  let fullToRelPath := buildFullToRelPath pkgDeps projectPrefix in
  depths <$>
    depthLoop pkgDeps projectPrefix fullToRelPath (S (size pkgDeps))
      (range_map pkgDeps).*1
      {| depths := ∅; visited := ∅; inProgress := ∅ |}.

From stdpp Require sorting.

(** ** Method clustering ([method_clustering.go]) *)

(** [sort.Slice] is not stable; what it guarantees for a [less] that is
    a strict weak order is a rearrangement in which no element is less
    than an earlier one.  The function is a parameter of the model. *)
Class SliceSort := {
  sort_slice : ∀ A : Type, (A → A → bool) → list A → list A;
  sort_slice_perm : ∀ (A : Type) (less : A → A → bool) (l : list A),
    sort_slice A less l ≡ₚ l;
  sort_slice_sorted : ∀ (A : Type) (less : A → A → bool) (l : list A),
    (∀ a, less a a = false) →
    (∀ a b c, less a b = true → less b c = true → less a c = true) →
    (∀ a b c, less a b = false → less b c = false → less a c = false) →
    Sorted.StronglySorted (λ a b, less b a = false) (sort_slice A less l)
}.

(** [sort.Strings]: increasing order of the bytes; the result is the one
    sorted rearrangement. *)
Definition sortStrings (l : list string) : list string :=
  sorting.merge_sort String.le l.

(** The conversion [int(f)] of a [float64]: the fraction is dropped.
    (For a value that is not finite Go leaves the result to the
    implementation; 0 stands for it.) *)
Definition int_of_float64 (f : float) : Z :=
  match Prim2SF f with
  | S754_finite s m e =>
      let magnitude := if 0 <=? e then Z.pos m * 2 ^ e else Z.pos m / 2 ^ (- e) in
      if s then - magnitude else magnitude
  | _ => 0
  end.

(** [methodCallInfo]; its field [name] is [mname] here, [name] being the
    field of [methodInfo].  The maps of the analysis hold pointers to
    such records, none of them [nil]. *)
Record methodCallInfo := {
  mname : string;
  isPrivate : bool;
  calls : gmap string Z;
  calledBy : list string;
  receiverName : string;
  isUtility : bool
}.

Definition WeightThreshold : Z := 1.
Definition MinClusterSize : Z := 2.
Definition MinClusterRatio : float := 0.2%float.

Section MethodClustering.
Context `{MapIteration}.

(** [buildPrivateMethodCallGraph].  [graph[privateMethod][calledMethod] =
    frequency] writes into the inner map that [graph] holds. *)
Definition buildPrivateMethodCallGraph
    (privateMethods allMethods : gmap string methodCallInfo)
    : gmap string (gmap string Z) :=
  fold_left
    (λ graph '(privateMethod, _),
       let graph := <[privateMethod := ∅]> graph in
       match allMethods !! privateMethod with
       | Some info =>
           if isUtility info then graph
           else
             fold_left
               (λ graph '(calledMethod, frequency),
                  match privateMethods !! calledMethod with
                  | Some calledInfo =>
                      if negb (isUtility calledInfo) then
                        if frequency >=? WeightThreshold then
                          <[privateMethod :=
                              <[calledMethod := frequency]>
                                (default ∅ (graph !! privateMethod))]> graph
                        else graph
                      else graph
                  | None => graph
                  end)
               (range_map (calls info)) graph
       | None => graph
       end)
    (range_map privateMethods) ∅.

Context `{SliceSort}.

(** [findMethodClusters] *)
Definition findMethodClusters (callGraph : gmap string (gmap string Z))
    (privateMethods : gmap string methodCallInfo) : option (list MethodCluster) :=
  let uf := newUnionFind in
  let totalMethods := 0 in
  let '(uf, totalMethods) :=
    fold_left
      (λ '(uf, totalMethods) '(method, info),
         if negb (isUtility info) then (add method uf, totalMethods + 1)
         else (uf, totalMethods))
      (range_map privateMethods) (uf, totalMethods) in
  match
    (_ ←uf uf_for (range_map callGraph) (λ '(caller, callees),
             uf_for (range_map callees) (λ '(callee, _), union caller callee));
     getComponents) uf
  with
  | None => None
  | Some (components, _) =>
      let minSize := MinClusterSize in
      let _ :=
        if totalMethods >? 0 then
          let ratioBasedMin :=
            int_of_float64 (float64_of_int totalMethods * MinClusterRatio) in
          let ratioBasedMin :=
            if ratioBasedMin <? minSize then minSize else ratioBasedMin in
          ratioBasedMin
        else 0 in
      let clusters :=
        fold_left
          (λ clusters component,
             if (Z.of_nat (length component) >=? minSize)
                || bool_decide (length components = 1%nat)
             then
               let component := sortStrings component in
               clusters ++ [{| ID := Z.of_nat (length clusters) + 1;
                               Methods := component;
                               Size := Z.of_nat (length component);
                               CalledBy := [];
                               ResponsibilityHint := EmptyString |}]
             else clusters)
          components [] in
      let clusters := sort_slice _ (λ a b, Size a >? Size b) clusters in
      let clusters :=
        imap (λ i cluster, {| ID := Z.of_nat i + 1;
                              Methods := Methods cluster;
                              Size := Size cluster;
                              CalledBy := CalledBy cluster;
                              ResponsibilityHint := ResponsibilityHint cluster |})
          clusters in
      Some clusters
  end.
End MethodClustering.

(** * Diagnostics: the God Object rule *)

(** The structs of an analysis run, each with its package, in report
    order. *)
Definition structsOf (packages : list PackageResult) : list (PackageResult * StructResult) :=
  concat (map (λ pkg, map (pair pkg) (Structs pkg)) packages).

(** The rule's condition as the specification words it. *)
Definition isGodObject (ps : PackageResult * StructResult) : Prop :=
  5 ≤ LCOM4Score ps.2 ∧ 10 ≤ Afferent ps.1.

#[local] Instance isGodObject_dec ps : Decision (isGodObject ps).
Proof. unfold isGodObject. apply _. Defined.

(** What a finding reports about the struct that triggered it. *)
Definition reportsGodObject (d : DiagnosticResult) (ps : PackageResult * StructResult) : Prop :=
  Type' d = "God Object" ∧ Severity d = "Critical"
  ∧ TargetName d = PkgName ps.1 +:+ "." +:+ StructName ps.2
  ∧ Evidence d !! "lcom4_score" = Some (EvInt (LCOM4Score ps.2))
  ∧ Evidence d !! "afferent" = Some (EvInt (Afferent ps.1)).

Lemma godObject_inner_loop pkg structs results :
  fold_left
    (λ results s,
       if LCOM4Score s >=? 5 then results ++ [godObjectResult pkg s] else results)
    structs results
  = results ++ map (godObjectResult pkg) (filter (λ s, 5 ≤ LCOM4Score s) structs).
Proof.
  revert results. induction structs as [|s structs IH]; intros results; simpl.
  - by rewrite app_nil_r.
  - rewrite IH. rewrite filter_cons.
    destruct (Z.geb_spec (LCOM4Score s) 5) as [Hge|Hlt].
    + rewrite decide_True by lia. simpl. by rewrite <- app_assoc.
    + rewrite decide_False by lia. done.
Qed.

Lemma godObject_outer_loop packages results :
  fold_left
    (λ results pkg,
       if Afferent pkg <? 10 then results
       else
         fold_left
           (λ results s,
              if LCOM4Score s >=? 5 then results ++ [godObjectResult pkg s]
              else results)
           (Structs pkg) results)
    packages results
  = results ++ map (λ ps, godObjectResult ps.1 ps.2) (filter isGodObject (structsOf packages)).
Proof.
  revert results. induction packages as [|pkg packages IH]; intros results.
  - simpl. by rewrite app_nil_r.
  - cbn [fold_left]. rewrite IH. unfold structsOf. cbn [map concat].
    rewrite filter_app, map_app, app_assoc. f_equal.
    destruct (Z.ltb_spec (Afferent pkg) 10) as [Hlt|Hge].
    + rewrite <- (app_nil_r results) at 1. f_equal. symmetry.
      induction (Structs pkg) as [|s l IHl]; [done|]. simpl.
      rewrite filter_cons, decide_False by (unfold isGodObject; simpl; lia).
      exact IHl.
    + rewrite godObject_inner_loop. f_equal.
      induction (Structs pkg) as [|s l IHl]; [done|]. simpl.
      rewrite !filter_cons. unfold isGodObject at 1. simpl.
      repeat case_decide; try lia; simpl; by rewrite ?IHl.
Qed.

(** C1. The God Object rule emits one finding for each struct whose
    LCOM4 score is at least 5 in a package whose afferent coupling is at
    least 10, and none for any other struct: the findings correspond one
    to one, in order, to those structs.  Each finding has type
    "God Object" and severity "Critical", and its evidence map holds the
    struct's LCOM4 score and the package's afferent coupling. *)
Theorem detectGodObjects_correct (packages : list PackageResult) :
  Forall2 reportsGodObject
    (detectGodObjects packages) (filter isGodObject (structsOf packages)).
Proof.
  unfold detectGodObjects. rewrite godObject_outer_loop. simpl.
  apply Forall2_fmap_l, Forall_Forall2_diag, Forall_forall.
  intros [pkg s] _. by repeat split.
Qed.

(** The end-to-end example of the specification: one struct with
    LCOM4 = 6 in a package with afferent coupling 12. *)
Example detectGodObjects_example :
  let s := {| StructName := "Server"; FilePath := "server.go"; LCOM4Score := 6;
              ComponentDetails := []; MethodClusters := None; FieldMatrix := None |} in
  let pkg := {| PkgName := "core"; Path := "core"; Afferent := 12; Efferent := 1;
                Instability := 0.125; Structs := [s]; Functions := [] |} in
  ∃ d, detectGodObjects [pkg] = [d]
       ∧ Evidence d !! "lcom4_score" = Some (EvInt 6)
       ∧ Evidence d !! "afferent" = Some (EvInt 12).
Proof. eexists. split; [reflexivity|]. split; reflexivity. Qed.

(** * Cyclomatic complexity *)

(** Induction over syntax trees. *)
Lemma Node_ind (P : Node → Prop) :
  (∀ k cs, Forall P cs → P (mkNode k cs)) → ∀ n, P n.
Proof.
  intros step. fix IH 1. intros [k cs]. apply step.
  induction cs as [|c cs IHcs]; constructor; [apply IH | exact IHcs].
Qed.

(** The number of nodes of a tree whose kind satisfies [p]. *)
Fixpoint countNodes (p : NodeKind → bool) (n : Node) : Z :=
  match n with
  | mkNode k cs => (if p k then 1 else 0) + foldr Z.add 0 (map (countNodes p) cs)
  end.

(** The constructs the specification counts. *)
Definition isIf (k : NodeKind) : bool :=
  match k with IfStmt => true | _ => false end.
Definition isLoop (k : NodeKind) : bool :=
  match k with ForStmt | RangeStmt => true | _ => false end.
Definition isSwitch (k : NodeKind) : bool :=
  match k with SwitchStmt | TypeSwitchStmt => true | _ => false end.
(** a [case] clause with at least one match value ([default] has none) *)
Definition isValuedCase (k : NodeKind) : bool :=
  match k with CaseClause (S _) => true | _ => false end.
(** a [select] case with a communication ([default] has none) *)
Definition isCommCase (k : NodeKind) : bool :=
  match k with CommClause true => true | _ => false end.
Definition isLogicalOp (k : NodeKind) : bool :=
  match k with BinaryExpr LAND | BinaryExpr LOR => true | _ => false end.

(** The decision points of a tree, construct by construct. *)
Definition decisionPoints (n : Node) : Z :=
  countNodes isIf n + countNodes isLoop n + countNodes isSwitch n
  + countNodes isValuedCase n + countNodes isCommCase n + countNodes isLogicalOp n.


Lemma countNodes_nonneg p n : 0 ≤ countNodes p n.
Proof.
  induction n as [k cs IH] using Node_ind. simpl.
  assert (0 ≤ foldr Z.add 0 (map (countNodes p) cs)).
  { induction IH; simpl; lia. }
  destruct (p k); lia.
Qed.

Lemma decisionPoints_node k cs :
  decisionPoints (mkNode k cs)
  = decisionPoints (mkNode k []) + foldr Z.add 0 (map decisionPoints cs).
Proof.
  unfold decisionPoints. simpl.
  induction cs as [|c cs IH]; simpl; [lia|].
  unfold decisionPoints in *. lia.
Qed.

(** What the visitor adds at a single node. *)
Lemma complexityVisitor_node k cs c :
  complexityVisitor (Some (mkNode k cs)) c = (true, c + decisionPoints (mkNode k [])).
Proof.
  unfold decisionPoints. destruct k as [| | |[]| | | | | | | | | |[]|[]|]; simpl; f_equal; lia.
Qed.

Lemma Inspect_complexity n c :
  Inspect complexityVisitor n c = c + decisionPoints n.
Proof.
  revert c. induction n as [k cs IH] using Node_ind. intros c.
  cbn [Inspect]. rewrite complexityVisitor_node. cbn [snd complexityVisitor].
  rewrite (decisionPoints_node k cs).
  assert (Hfold : ∀ c0, fold_left (λ acc d, Inspect complexityVisitor d acc) cs c0
                        = c0 + foldr Z.add 0 (map decisionPoints cs)).
  { induction IH as [|d ds Hd _ IHds]; intros c0; simpl; [lia|].
    rewrite IHds, Hd. lia. }
  rewrite Hfold. lia.
Qed.

(** C5. The complexity of a function is 1 plus one for each [if]
    statement, each [for]/[range] loop, each [switch] or type switch,
    each [case] clause with at least one match value, each [select] case
    with a communication and each logical AND/OR operator in its body; a
    function without body has complexity 1 and 0 lines of code. *)
Theorem calculateFunctionComplexity_correct (funcDecl : FuncDecl) :
  match Body funcDecl with
  | Some body =>
      calculateFunctionComplexity funcDecl
      = 1 + countNodes isIf (Block body) + countNodes isLoop (Block body)
          + countNodes isSwitch (Block body) + countNodes isValuedCase (Block body)
          + countNodes isCommCase (Block body) + countNodes isLogicalOp (Block body)
  | None =>
      calculateFunctionComplexity funcDecl = 1
      ∧ CalculateFunctionLoC (Some funcDecl) = 0
  end.
Proof.
  unfold calculateFunctionComplexity, CalculateFunctionLoC.
  destruct (Body funcDecl) as [body|]; [|done].
  rewrite Inspect_complexity. unfold decisionPoints. lia.
Qed.


Lemma foldr_add_app (l1 l2 : list Z) :
  foldr Z.add 0 (l1 ++ l2) = foldr Z.add 0 l1 + foldr Z.add 0 l2.
Proof. induction l1; simpl; lia. Qed.





(** * The union-find structure *)

(** ** Parent links as a forest

    [uf.parent] is read through [parentOf], which is total: a string
    that is not a key has parent [""].  A node is a root when it is its
    own parent. *)
Definition par (p : gmap string string) (x : string) : string :=
  default "" (p !! x).

(** [reach f x r n]: following [f] from [x] for [n] links ends in the
    root [r]. *)
Inductive reach (f : string → string) : string → string → nat → Prop :=
| reach_root x : f x = x → reach f x x 0
| reach_step x r n : f x ≠ x → reach f (f x) r n → reach f x r (S n).

Definition root_of (f : string → string) (x r : string) : Prop :=
  ∃ n, reach f x r n.

(** Every chain of links ends. *)
Definition forest (f : string → string) : Prop :=
  ∀ x, ∃ r, root_of f x r.

Section Forest.
Implicit Types f g : string → string.

Lemma reach_is_root f x r n : reach f x r n → f r = r.
Proof. induction 1; auto. Qed.

Lemma reach_functional f x r n r' n' :
  reach f x r n → reach f x r' n' → r = r' ∧ n = n'.
Proof.
  intros Hr. revert r' n'. induction Hr as [x Hx|x r n Hx _ IH]; intros r' n' Hr'.
  - inversion Hr'; subst; [done|congruence].
  - inversion Hr' as [|? ? m ? Hm]; subst; [congruence|].
    destruct (IH _ _ Hm) as [-> ->]. done.
Qed.

Lemma root_of_functional f x r r' : root_of f x r → root_of f x r' → r = r'.
Proof. intros [n Hn] [n' Hn']. by destruct (reach_functional _ _ _ _ _ _ Hn Hn'). Qed.

Lemma root_of_root f r : f r = r → root_of f r r.
Proof. exists 0%nat. by constructor. Qed.

Lemma root_of_is_root f x r : root_of f x r → f r = r.
Proof. intros [n Hn]. by eapply reach_is_root. Qed.

Lemma root_of_step f x r : f x ≠ x → root_of f (f x) r → root_of f x r.
Proof. intros Hx [n Hn]. exists (S n). by constructor. Qed.

Lemma root_of_parent f x r : root_of f x r → root_of f (f x) r.
Proof.
  intros [n Hn]. inversion Hn as [? Hx|? ? m Hx Hm]; subst.
  - rewrite Hx. by apply root_of_root.
  - by exists m.
Qed.

(** Two forests with the same links. *)
Lemma reach_ext f g x r n : (∀ y, f y = g y) → reach f x r n → reach g x r n.
Proof.
  intros Hfg. induction 1 as [x Hx|x r n Hx _ IH].
  - constructor. by rewrite <- Hfg.
  - constructor; rewrite <- Hfg; done.
Qed.

(** Path compression: pointing [x] straight at its root keeps every
    node's root. *)
Lemma compress_root_of f g x r z s :
  (∀ y, g y = if decide (y = x) then r else f y) →
  root_of f x r → root_of f z s → root_of g z s.
Proof.
  intros Hg Hx [m Hz]. induction Hz as [z Hz|z s m Hz Hs IH].
  - apply root_of_root. rewrite Hg. case_decide as Hzx; [|done].
    subst z. eapply root_of_functional; [exact Hx|by apply root_of_root].
  - destruct (decide (z = x)) as [->|Hzx].
    + assert (s = r) as ->.
      { eapply root_of_functional; [|exact Hx]. exists (S m). by constructor. }
      assert (Hrr : f r = r) by (by eapply root_of_is_root).
      assert (r ≠ x) by congruence.
      apply root_of_step.
      * rewrite Hg, decide_True by done. done.
      * rewrite (Hg x), decide_True by done.
        apply root_of_root. rewrite Hg, decide_False by done. done.
    + apply root_of_step.
      * rewrite Hg, decide_False by done. done.
      * rewrite (Hg z), decide_False by done. done.
Qed.

(** Linking the root [b] under the root [a] moves the nodes of [b]
    to [a] and keeps every other root. *)
Lemma link_root_of f g a b z s :
  (∀ y, g y = if decide (y = b) then a else f y) →
  f a = a → f b = b → a ≠ b →
  root_of f z s → root_of g z (if decide (s = b) then a else s).
Proof.
  intros Hg Ha Hb Hab [m Hz]. induction Hz as [z Hz|z s m Hz Hs IH].
  - case_decide as Hzb.
    + subst z. apply root_of_step.
      * rewrite Hg, decide_True by done. done.
      * rewrite (Hg b), decide_True by done.
        apply root_of_root. rewrite Hg, decide_False by done. done.
    + apply root_of_root. rewrite Hg, decide_False by done. done.
  - assert (z ≠ b) by congruence.
    apply root_of_step.
    + rewrite Hg, decide_False by done. done.
    + rewrite (Hg z), decide_False by done. done.
Qed.
End Forest.

(** ** The invariant of [uf.parent]

    The links form a forest, and every stored parent is a key or the
    empty string (the zero value read for a missing key). *)
Record uf_inv (p : gmap string string) : Prop := {
  inv_forest : forest (par p);
  inv_values : ∀ x v, p !! x = Some v → v = "" ∨ is_Some (p !! v)
}.

(** Every stored parent is a key: the case when [find] and [union] are
    only called on nodes that were added. *)
Definition uf_closed (p : gmap string string) : Prop :=
  ∀ x v, p !! x = Some v → is_Some (p !! v).

(** Two maps that group the nodes in the same way. *)
Definition same_roots (p p' : gmap string string) : Prop :=
  ∀ z s, root_of (par p) z s → root_of (par p') z s.

Lemma par_insert p x v y :
  par (<[x:=v]> p) y = if decide (y = x) then v else par p y.
Proof.
  unfold par. case_decide as Hyx.
  - subst. by rewrite lookup_insert_eq.
  - by rewrite lookup_insert_ne.
Qed.

Lemma par_lookup p x v : p !! x = Some v → par p x = v.
Proof. unfold par. by intros ->. Qed.

Lemma par_not_key p x : p !! x = None → par p x = "".
Proof. unfold par. by intros ->. Qed.

Lemma par_key_or_empty p y :
  uf_inv p → par p y = "" ∨ is_Some (p !! par p y).
Proof.
  intros Hinv. unfold par at 1 2. destruct (p !! y) as [v|] eqn:Hy; simpl.
  - by apply (inv_values _ Hinv y).
  - by left.
Qed.

Lemma nonroot_parent_is_key p y :
  uf_inv p → par p (par p y) ≠ par p y → is_Some (p !! par p y).
Proof.
  intros Hinv Hnr. destruct (par_key_or_empty p y Hinv) as [He|]; [|done].
  rewrite He in *. unfold par in Hnr.
  destruct (p !! "") eqn:E; [done|]. by simpl in Hnr.
Qed.

Lemma root_is_key_or_empty p r :
  par p r = r → r = "" ∨ is_Some (p !! r).
Proof.
  unfold par. destruct (p !! r) eqn:E; simpl; [by right; eauto|by left].
Qed.

Lemma same_roots_refl p : same_roots p p.
Proof. by intros z s. Qed.

Lemma same_roots_trans p1 p2 p3 :
  same_roots p1 p2 → same_roots p2 p3 → same_roots p1 p3.
Proof. intros H12 H23 z s Hz. by apply H23, H12. Qed.

Lemma same_roots_forest p p' : forest (par p) → same_roots p p' → forest (par p').
Proof. intros Hf Hs x. destruct (Hf x) as [r Hr]. exists r. by apply Hs. Qed.

(** Under [forest], [same_roots] is symmetric. *)
Lemma same_roots_sym p p' : forest (par p) → same_roots p p' → same_roots p' p.
Proof.
  intros Hf Hs z s Hz. destruct (Hf z) as [r Hr].
  by rewrite (root_of_functional _ _ _ _ Hz (Hs _ _ Hr)).
Qed.

(** ** The depth of [find]'s recursion *)

(** The nodes a chain of [n] links leaves behind. *)
Fixpoint chain (f : string → string) (x : string) (n : nat) : list string :=
  match n with
  | O => []
  | S n => x :: chain f (f x) n
  end.

Lemma length_chain f x n : length (chain f x n) = n.
Proof. revert x. induction n; intros; simpl; auto. Qed.

Lemma chain_reach f x r n y :
  reach f x r n → y ∈ chain f x n → ∃ m, (0 < m ≤ n)%nat ∧ reach f y r m.
Proof.
  induction 1 as [x Hx|x r n Hx Hr IH]; simpl; intros Hy.
  - by apply elem_of_nil in Hy.
  - apply elem_of_cons in Hy as [->|Hy].
    + exists (S n). split; [lia|by constructor].
    + destruct (IH Hy) as (m & Hm & Hreach). exists m. split; [lia|done].
Qed.

Lemma chain_NoDup f x r n : reach f x r n → NoDup (chain f x n).
Proof.
  induction 1 as [x Hx|x r n Hx Hr IH]; simpl; constructor; [|done].
  intros Hin. destruct (chain_reach _ _ _ _ _ Hr Hin) as (m & Hm & Hreach).
  assert (reach f x r (S n)) as Hx' by (by constructor).
  destruct (reach_functional _ _ _ _ _ _ Hx' Hreach) as [_ ?]. lia.
Qed.

Lemma chain_parents f x n y : y ∈ chain f (f x) n → ∃ w, y = f w.
Proof.
  revert x. induction n as [|n IH]; simpl; intros x Hy.
  - by apply elem_of_nil in Hy.
  - apply elem_of_cons in Hy as [->|Hy]; [by eauto|by eapply IH].
Qed.

Lemma reach_depth p x r n :
  uf_inv p → reach (par p) x r n → (n ≤ S (size p))%nat.
Proof.
  intros Hinv Hreach. destruct n as [|n]; [lia|].
  inversion Hreach as [|? ? ? Hx Hr]; subst.
  assert (Hkeys : ∀ y, y ∈ chain (par p) (par p x) n → y ∈ elements (dom p)).
  { intros y Hy. apply elem_of_elements, elem_of_dom.
    destruct (chain_parents _ _ _ _ Hy) as [w ->].
    apply nonroot_parent_is_key; [done|].
    destruct (chain_reach _ _ _ _ _ Hr Hy) as (m & Hm & Hreach').
    inversion Hreach'; subst; [lia|done]. }
  apply NoDup_submseteq in Hkeys; [|by eapply chain_NoDup].
  apply submseteq_length in Hkeys. rewrite length_chain in Hkeys.
  change (length (elements (dom p))) with (size (dom p)) in Hkeys.
  rewrite size_dom in Hkeys. lia.
Qed.

Lemma closed_root_is_key p x r n :
  uf_closed p → x ∈ dom p → reach (par p) x r n → r ∈ dom p.
Proof.
  intros Hc Hx Hreach. induction Hreach as [x Hroot|x r n Hnr _ IH]; [done|].
  apply IH. apply elem_of_dom in Hx as [v Hv].
  rewrite (par_lookup _ _ _ Hv). apply elem_of_dom. by eapply Hc.
Qed.

Lemma closed_insert p x r :
  uf_closed p → r ∈ dom p → uf_closed (<[x:=r]> p).
Proof.
  intros Hc Hr y v Hy. rewrite lookup_insert. case_decide; [by eauto|].
  destruct (decide (y = x)) as [->|Hyx].
  - rewrite lookup_insert_eq in Hy. injection Hy as <-. by apply elem_of_dom.
  - rewrite lookup_insert_ne in Hy by done. by eapply Hc.
Qed.

(** ** [find] *)

Lemma uf_inv_compress p x r :
  uf_inv p → root_of (par p) x r →
  uf_inv (<[x:=r]> p) ∧ same_roots p (<[x:=r]> p).
Proof.
  intros Hinv Hx.
  assert (Hs : same_roots p (<[x:=r]> p)).
  { intros z s Hz. eapply compress_root_of; [apply par_insert|exact Hx|exact Hz]. }
  split; [|done]. split.
  - eapply same_roots_forest; [apply Hinv|done].
  - intros y v Hy. destruct (decide (y = x)) as [->|Hyx].
    + rewrite lookup_insert_eq in Hy. injection Hy as <-.
      destruct (root_is_key_or_empty p r) as [?|Hk]; [by eapply root_of_is_root|by left|].
      right. rewrite lookup_insert. case_decide; by eauto.
    + rewrite lookup_insert_ne in Hy by done.
      destruct (inv_values _ Hinv _ _ Hy) as [?|Hk]; [by left|].
      right. rewrite lookup_insert. case_decide; by eauto.
Qed.

Lemma find_rec_spec fuel x uf r n :
  uf_inv (parent uf) → reach (par (parent uf)) x r n → (n < fuel)%nat →
  ∃ p', find_rec fuel x uf = Some (r, {| parent := p'; rank := rank uf |})
        ∧ uf_inv p' ∧ same_roots (parent uf) p'
        ∧ dom (parent uf) ⊆ dom p'
        ∧ dom p' ⊆ dom (parent uf) ∪ (if n is O then ∅ else {[x]})
        ∧ (uf_closed (parent uf) → x ∈ dom (parent uf) → uf_closed p').
Proof.
  revert x uf n. induction fuel as [|fuel IH]; intros x uf n Hinv Hreach Hfuel; [lia|].
  cbn [find_rec]. change (parentOf uf x) with (par (parent uf) x).
  inversion Hreach as [? Hroot|? ? m Hnr Hm]; subst.
  - rewrite decide_False by (intros ?; done). rewrite Hroot.
    exists (parent uf). destruct uf as [p rk]; simpl.
    repeat split; [apply Hinv|apply Hinv|apply same_roots_refl|set_solver..|done].
  - rewrite decide_True by done.
    destruct (IH _ uf _ Hinv Hm) as (p1 & Hfind & Hinv1 & Hsame1 & Hdom1 & Hdom1' & Hc1); [lia|].
    unfold uf_bind. rewrite Hfind. cbn [setParent parent rank].
    assert (Hx1 : root_of (par p1) x r).
    { apply Hsame1. exists (S m). done. }
    destruct (uf_inv_compress p1 x r Hinv1 Hx1) as [Hinv2 Hsame2].
    exists (<[x:=r]> p1). split.
    { unfold parentOf. simpl. by rewrite lookup_insert_eq. }
    split; [done|]. split; [by eapply same_roots_trans|].
    rewrite dom_insert_L.
    assert (dom p1 ⊆ dom (parent uf)).
    { destruct m as [|m]; [set_solver|].
      assert (par (parent uf) x ∈ dom (parent uf)); [|set_solver].
      apply elem_of_dom, nonroot_parent_is_key; [done|].
      by inversion Hm. }
    split; [set_solver|]. split; [set_solver|].
    intros Hc Hx. apply elem_of_dom in Hx as Hx'. destruct Hx' as [v Hv].
    apply closed_insert.
    + apply Hc1; [done|]. rewrite (par_lookup _ _ _ Hv). apply elem_of_dom. by eapply Hc.
    + apply Hdom1. by eapply closed_root_is_key.
Qed.

Lemma find_spec x uf :
  uf_inv (parent uf) →
  ∃ r p', find x uf = Some (r, {| parent := p'; rank := rank uf |})
          ∧ root_of (par (parent uf)) x r
          ∧ uf_inv p' ∧ same_roots (parent uf) p'
          ∧ dom (parent uf) ⊆ dom p'
          ∧ dom p' ⊆ dom (parent uf) ∪ {[x]}
          ∧ (uf_closed (parent uf) → x ∈ dom (parent uf) → uf_closed p').
Proof.
  intros Hinv. destruct (inv_forest _ Hinv x) as (r & n & Hreach).
  destruct (find_rec_spec (S (S (size (parent uf)))) x uf r n Hinv Hreach)
    as (p' & Hfind & Hinv' & Hsame & Hdom & Hdom' & Hc).
  { pose proof (reach_depth _ _ _ _ Hinv Hreach). lia. }
  exists r, p'. split; [done|]. split; [by exists n|].
  split; [done|]. split; [done|]. split; [done|].
  split; [|done]. destruct n; set_solver.
Qed.

(** [find] on a key adds no key. *)
Lemma find_spec_key x uf :
  uf_inv (parent uf) → x ∈ dom (parent uf) →
  ∃ r p', find x uf = Some (r, {| parent := p'; rank := rank uf |})
          ∧ root_of (par (parent uf)) x r
          ∧ uf_inv p' ∧ same_roots (parent uf) p'
          ∧ dom p' = dom (parent uf).
Proof.
  intros Hinv Hx. destruct (find_spec x uf Hinv) as (r & p' & ? & ? & ? & ? & ? & ? & ?).
  exists r, p'. split; [done|]. split; [done|].
  split; [done|]. split; [done|]. set_solver.
Qed.

(** ** [add] *)

Lemma fresh_root_of f g x z s :
  (∀ y, g y = if decide (y = x) then x else f y) →
  (∀ y, y ≠ x → f y ≠ x) → z ≠ x →
  root_of f z s → root_of g z s.
Proof.
  intros Hg Hfresh Hz [m Hr]. induction Hr as [z Hroot|z s m Hnr _ IH].
  - apply root_of_root. rewrite Hg, decide_False by done. done.
  - apply root_of_step.
    + rewrite Hg, decide_False by done. done.
    + rewrite (Hg z), decide_False by done. apply IH. by apply Hfresh.
Qed.

Lemma add_spec x uf :
  uf_inv (parent uf) →
  uf_inv (parent (add x uf))
  ∧ dom (parent (add x uf)) = {[x]} ∪ dom (parent uf)
  ∧ (uf_closed (parent uf) → uf_closed (parent (add x uf))).
Proof.
  intros Hinv. unfold add. destruct (parent uf !! x) as [v|] eqn:Hx.
  { split; [done|]. split; [|done]. apply elem_of_dom_2 in Hx. set_solver. }
  cbn [setRank setParent parent]. split; [|split].
  - split.
    + intros z. destruct (decide (z = x)) as [->|Hzx].
      { exists x. apply root_of_root. by rewrite par_insert, decide_True. }
      destruct (inv_forest _ Hinv z) as [s Hs]. exists s.
      destruct (decide (x = "")) as [->|Hne].
      * destruct Hs as [m Hm]. exists m. eapply reach_ext; [|exact Hm].
        intros y. rewrite par_insert. case_decide; [|done].
        subst. by rewrite (par_not_key _ _ Hx).
      * eapply fresh_root_of; [apply par_insert| |done|done].
        intros y _ Hy. destruct (par_key_or_empty (parent uf) y Hinv) as [He|Hk].
        -- congruence.
        -- rewrite Hy, Hx in Hk. by destruct Hk.
    + intros y v Hy. destruct (decide (y = x)) as [->|Hyx].
      * rewrite lookup_insert_eq in Hy. injection Hy as <-.
        right. by rewrite lookup_insert_eq.
      * rewrite lookup_insert_ne in Hy by done.
        destruct (inv_values _ Hinv _ _ Hy) as [->|Hk]; [by left|].
        right. rewrite lookup_insert. case_decide; by eauto.
  - by rewrite dom_insert_L.
  - intros Hc y v Hy. rewrite lookup_insert. case_decide; [by eauto|].
    destruct (decide (y = x)) as [->|Hyx].
    + rewrite lookup_insert_eq in Hy. congruence.
    + rewrite lookup_insert_ne in Hy by done. by eapply Hc.
Qed.

(** ** [union] *)

Definition same_root (p : gmap string string) (x y : string) : Prop :=
  ∃ r, root_of (par p) x r ∧ root_of (par p) y r.

(** Merging the groups of [a] and [b]. *)
Definition merged (p p' : gmap string string) (a b : string) : Prop :=
  ∀ x y, same_root p' x y
         ↔ same_root p x y
           ∨ ((same_root p x a ∨ same_root p x b) ∧ (same_root p y a ∨ same_root p y b)).

Lemma merged_roots p p' a b ra rb w :
  forest (par p) →
  root_of (par p) a ra → root_of (par p) b rb → w = ra ∨ w = rb →
  (∀ z s, root_of (par p) z s →
          root_of (par p') z (if decide (s = ra ∨ s = rb) then w else s)) →
  merged p p' a b.
Proof.
  intros Hf Ha Hb Hw Hm x y.
  destruct (Hf x) as [sx Hsx], (Hf y) as [sy Hsy].
  pose proof (Hm _ _ Hsx) as Hx'. pose proof (Hm _ _ Hsy) as Hy'.
  assert (Hin : ∀ z sz, root_of (par p) z sz →
                  (sz = ra ∨ sz = rb) ↔ (same_root p z a ∨ same_root p z b)).
  { intros z sz Hz. split.
    - intros [->| ->]; [left; by exists ra|right; by exists rb].
    - intros [(r & Hzr & Har)|(r & Hzr & Hbr)].
      + left. rewrite (root_of_functional _ _ _ _ Hz Hzr).
        by rewrite (root_of_functional _ _ _ _ Ha Har).
      + right. rewrite (root_of_functional _ _ _ _ Hz Hzr).
        by rewrite (root_of_functional _ _ _ _ Hb Hbr). }
  rewrite <- (Hin x sx Hsx), <- (Hin y sy Hsy). split.
  - intros (r & Hxr & Hyr).
    pose proof (root_of_functional _ _ _ _ Hx' Hxr) as Ex.
    pose proof (root_of_functional _ _ _ _ Hy' Hyr) as Ey.
    destruct (decide (sx = sy)) as [->|Hne]; [left; by exists sy|]. right.
    repeat case_decide; subst; naive_solver.
  - intros [(r & Hxr & Hyr)|[Hx Hy]].
    + pose proof (root_of_functional _ _ _ _ Hsx Hxr) as ->.
      pose proof (root_of_functional _ _ _ _ Hsy Hyr) as ->.
      eexists. split; [exact Hx'|exact Hy'].
    + rewrite decide_True in Hx' by done. rewrite decide_True in Hy' by done.
      by exists w.
Qed.

Lemma uf_inv_link p a b :
  uf_inv p → par p a = a → par p b = b → a ≠ b →
  uf_inv (<[b:=a]> p)
  ∧ ∀ z s, root_of (par p) z s →
           root_of (par (<[b:=a]> p)) z (if decide (s = b) then a else s).
Proof.
  intros Hinv Ha Hb Hab.
  assert (Hlink : ∀ z s, root_of (par p) z s →
             root_of (par (<[b:=a]> p)) z (if decide (s = b) then a else s)).
  { intros z s Hz. eapply link_root_of; [apply par_insert|done..]. }
  split; [|done]. split.
  - intros z. destruct (inv_forest _ Hinv z) as [s Hs]. eexists. by apply Hlink.
  - intros y v Hy. destruct (decide (y = b)) as [->|Hyb].
    + rewrite lookup_insert_eq in Hy. injection Hy as <-.
      destruct (root_is_key_or_empty p a Ha) as [?|Hk]; [by left|].
      right. rewrite lookup_insert. case_decide; by eauto.
    + rewrite lookup_insert_ne in Hy by done.
      destruct (inv_values _ Hinv _ _ Hy) as [?|Hk]; [by left|].
      right. rewrite lookup_insert. case_decide; by eauto.
Qed.

Lemma union_spec a b uf :
  uf_inv (parent uf) →
  ∃ uf', union a b uf = Some (tt, uf')
    ∧ uf_inv (parent uf')
    ∧ dom (parent uf) ⊆ dom (parent uf')
    ∧ dom (parent uf') ⊆ dom (parent uf) ∪ {[a; b; ""]}
    ∧ merged (parent uf) (parent uf') a b
    ∧ (uf_closed (parent uf) → a ∈ dom (parent uf) → b ∈ dom (parent uf) →
       uf_closed (parent uf') ∧ dom (parent uf') = dom (parent uf)).
Proof.
  intros Hinv. unfold union, uf_bind.
  destruct (find_spec a uf Hinv) as (ra & p1 & -> & Hra & Hinv1 & Hs1 & Hd1 & Hd1' & Hc1).
  destruct (find_spec b {| parent := p1; rank := rank uf |} Hinv1)
    as (rb & p2 & -> & Hrb & Hinv2 & Hs2 & Hd2 & Hd2' & Hc2).
  cbn [parent rank] in *.
  assert (Hs : same_roots (parent uf) p2) by (by eapply same_roots_trans).
  assert (Hrb0 : root_of (par (parent uf)) b rb).
  { exact (same_roots_sym _ _ (inv_forest _ Hinv) Hs1 _ _ Hrb). }
  assert (Hra2 : par p2 ra = ra) by (eapply root_of_is_root, Hs, Hra).
  assert (Hrb2 : par p2 rb = rb) by (eapply root_of_is_root, Hs, Hrb0).
  assert (Hkey : ∀ r, par p2 r = r → r ∈ dom p2 ∪ {[""]}).
  { intros r Hr. destruct (root_is_key_or_empty p2 r Hr) as [->|Hk]; [set_solver|].
    apply elem_of_dom in Hk. set_solver. }
  assert (Hclosed : uf_closed (parent uf) → a ∈ dom (parent uf) → b ∈ dom (parent uf) →
            uf_closed p2 ∧ dom p2 = dom (parent uf) ∧ ra ∈ dom p2 ∧ rb ∈ dom p2).
  { intros Hc Ha Hb. assert (uf_closed p1) by auto.
    assert (dom p1 = dom (parent uf)) as Hdom1 by set_solver.
    assert (uf_closed p2) by (apply Hc2; [done|set_solver]).
    assert (dom p2 = dom (parent uf)) as Hdom2 by set_solver.
    split; [done|]. split; [done|]. rewrite Hdom2.
    destruct Hra as [n Hn], Hrb0 as [m Hm].
    split; [exact (closed_root_is_key _ _ _ _ Hc Ha Hn)
           |exact (closed_root_is_key _ _ _ _ Hc Hb Hm)]. }
  assert (Hlink : ∀ w l, w ≠ l → (w = ra ∧ l = rb ∨ w = rb ∧ l = ra) →
    uf_inv (<[l:=w]> p2)
    ∧ dom (parent uf) ⊆ dom (<[l:=w]> p2)
    ∧ dom (<[l:=w]> p2) ⊆ dom (parent uf) ∪ {[a; b; ""]}
    ∧ merged (parent uf) (<[l:=w]> p2) a b
    ∧ (uf_closed (parent uf) → a ∈ dom (parent uf) → b ∈ dom (parent uf) →
       uf_closed (<[l:=w]> p2) ∧ dom (<[l:=w]> p2) = dom (parent uf))).
  { intros w l Hwl Hcase.
    assert (par p2 w = w ∧ par p2 l = l) as [Hw Hl] by (destruct Hcase as [[-> ->]|[-> ->]]; done).
    destruct (uf_inv_link p2 w l Hinv2 Hw Hl Hwl) as [Hinv3 Hroots].
    split; [done|]. rewrite dom_insert_L.
    pose proof (Hkey l Hl) as Hlkey.
    split; [clear -Hd1 Hd2; set_solver|].
    split; [clear -Hd1' Hd2' Hlkey; set_solver|]. split.
    - apply (merged_roots _ _ a b ra rb w); [apply Hinv|exact Hra|exact Hrb0| |].
      + clear -Hcase. tauto.
      + intros z s Hz. apply Hs in Hz. apply Hroots in Hz.
        clear -Hz Hcase. destruct Hcase as [[-> ->]|[-> ->]].
        * destruct (decide (s = rb)) as [->|?].
          -- by rewrite decide_True by tauto.
          -- destruct (decide (s = ra)) as [->|?].
             ++ by rewrite decide_True by tauto.
             ++ by rewrite decide_False by tauto.
        * destruct (decide (s = ra)) as [->|?].
          -- by rewrite decide_True by tauto.
          -- destruct (decide (s = rb)) as [->|?].
             ++ by rewrite decide_True by tauto.
             ++ by rewrite decide_False by tauto.
    - intros Hc Ha Hb. destruct (Hclosed Hc Ha Hb) as (Hc2' & Hdom2 & Hra' & Hrb').
      assert (w ∈ dom p2 ∧ l ∈ dom p2) as [Hwk Hlk]
        by (destruct Hcase as [[-> ->]|[-> ->]]; done).
      split; [by apply closed_insert|clear -Hdom2 Hlk; set_solver]. }
  case_decide as Heq.
  - eexists. split; [done|]. cbn [parent]. split; [done|].
    split; [clear -Hd1 Hd2; set_solver|].
    split; [clear -Hd1' Hd2'; set_solver|]. split.
    + subst rb. apply (merged_roots _ _ a b ra ra ra); [apply Hinv|exact Hra|exact Hrb0|by left|].
      intros z s Hz. case_decide as Hcase'; [|by apply Hs].
      assert (s = ra) as -> by (clear -Hcase'; tauto). by apply Hs.
    + intros Hc Ha Hb. by destruct (Hclosed Hc Ha Hb) as (? & ? & _).
  - destruct (_ <? _).
    { eexists. split; [done|]. cbn [setParent parent].
      apply (Hlink rb ra); [done|by right]. }
    destruct (_ >? _).
    { eexists. split; [done|]. cbn [setParent parent].
      apply (Hlink ra rb); [done|by left]. }
    eexists. split; [done|]. cbn [setRank setParent parent].
    apply (Hlink ra rb); [done|by left].
Qed.

(** ** [getComponents] *)

(** [comps] are the classes of the nodes [nodes] under [conn]: every
    node stands in exactly one list, no list is empty, the nodes of one
    list are connected, and connected nodes stand in one list. *)
Definition components_of (nodes : gset string) (conn : relation string)
    (comps : list (list string)) : Prop :=
  concat comps ≡ₚ elements nodes
  ∧ Forall (λ c, c ≠ []) comps
  ∧ (∀ c x y, c ∈ comps → x ∈ c → y ∈ c → conn x y)
  ∧ (∀ x y, x ∈ nodes → y ∈ nodes → conn x y → ∃ c, c ∈ comps ∧ x ∈ c ∧ y ∈ c).

Lemma concat_Permutation {A} (l k : list (list A)) : l ≡ₚ k → concat l ≡ₚ concat k.
Proof.
  induction 1 as [|x l k _ IH|x y l|l k m _ IH1 _ IH2]; simpl.
  - done.
  - by rewrite IH.
  - rewrite !app_assoc. by rewrite (Permutation_app_comm x y).
  - by rewrite IH1.
Qed.

Lemma elem_of_concat {A} (x : A) (ls : list (list A)) :
  x ∈ concat ls ↔ ∃ l, l ∈ ls ∧ x ∈ l.
Proof.
  induction ls as [|l ls IH]; simpl.
  - split; [by intros ?%elem_of_nil|by intros (? & ?%elem_of_nil & _)].
  - rewrite elem_of_app, IH. split.
    + intros [Hx|(l' & Hl' & Hx)]; [exists l|exists l']; split; try done; by constructor.
    + intros (l' & Hl' & Hx). apply elem_of_cons in Hl' as [->|Hl']; by eauto.
Qed.

(** The lists stored in [componentMap]. *)
Definition members (componentMap : gmap string (list string)) : list string :=
  concat (map_to_list componentMap).*2.

Lemma members_append (componentMap : gmap string (list string)) root node :
  members (<[root := default [] (componentMap !! root) ++ [node]]> componentMap)
  ≡ₚ members componentMap ++ [node].
Proof.
  unfold members. destruct (componentMap !! root) as [l|] eqn:Hl; simpl.
  - rewrite <- insert_delete_eq.
    rewrite (concat_Permutation _ _
               (fmap_Permutation snd _ _
                  (map_to_list_insert (delete root componentMap) root (l ++ [node])
                     (lookup_delete_eq _ _)))).
    rewrite <- (concat_Permutation _ _
                  (fmap_Permutation snd _ _ (map_to_list_delete _ _ _ Hl))).
    simpl. rewrite <- !app_assoc. apply Permutation_app_head, Permutation_app_comm.
  - rewrite (concat_Permutation _ _
               (fmap_Permutation snd _ _ (map_to_list_insert _ root [node] Hl))).
    simpl. apply Permutation_cons_append.
Qed.

Lemma keys_Permutation {V} (m : gmap string V) :
  (map_to_list m).*1 ≡ₚ elements (dom m).
Proof.
  apply NoDup_Permutation; [apply NoDup_fst_map_to_list|apply NoDup_elements|].
  intros x. rewrite elem_of_elements, elem_of_dom, list_elem_of_fmap. split.
  - intros ([y v] & -> & Hin). apply elem_of_map_to_list in Hin. by eauto.
  - intros [v Hv]. exists (x, v). split; [done|]. by apply elem_of_map_to_list.
Qed.

(** The loop of [getComponents] after the nodes [done]. *)
Definition collected (p0 : gmap string string) (done : list string)
    (componentMap : gmap string (list string)) : Prop :=
  members componentMap ≡ₚ done
  ∧ (∀ r l, componentMap !! r = Some l → l ≠ [] ∧ ∀ x, x ∈ l → root_of (par p0) x r)
  ∧ (∀ x r, x ∈ done → root_of (par p0) x r →
            ∃ l, componentMap !! r = Some l ∧ x ∈ l).

Definition collect (acc : UF (gmap string (list string))) (node : string)
    : UF (gmap string (list string)) :=
  componentMap ←uf acc;
  root ←uf find node;
  uf_ret (<[root := default [] (componentMap !! root) ++ [node]]> componentMap).

Lemma collected_step p0 done componentMap node r :
  root_of (par p0) node r →
  collected p0 done componentMap →
  collected p0 (done ++ [node])
    (<[r := default [] (componentMap !! r) ++ [node]]> componentMap).
Proof.
  intros Hr (Hmem & Hroots & Hall). split; [|split].
  - by rewrite members_append, Hmem.
  - intros r' l'. rewrite lookup_insert. case_decide as Hrr.
    + subst r'. intros [= <-]. split; [by destruct (default _ _)|].
      intros x. rewrite elem_of_app, list_elem_of_singleton. intros [Hx| ->]; [|done].
      destruct (componentMap !! r) as [l|] eqn:Hl; simpl in Hx.
      * by apply (Hroots r l).
      * by apply elem_of_nil in Hx.
    + apply Hroots.
  - intros x r'. rewrite elem_of_app, list_elem_of_singleton. intros [Hx| ->] Hxr.
    + destruct (Hall x r' Hx Hxr) as (l & Hl & Hxl).
      rewrite lookup_insert. case_decide as Hrr.
      * subst r'. rewrite Hl. simpl. eexists. split; [done|].
        apply elem_of_app. by left.
      * by eauto.
    + rewrite (root_of_functional _ _ _ _ Hxr Hr).
      rewrite lookup_insert_eq. eexists. split; [done|].
      apply elem_of_app. right. by apply list_elem_of_singleton.
Qed.

Lemma collect_loop p0 nodes :
  forest (par p0) →
  ∀ acc uf0 done componentMap uf1,
    acc uf0 = Some (componentMap, uf1) →
    uf_inv (parent uf1) → same_roots p0 (parent uf1) → dom (parent uf1) = dom p0 →
    (∀ x, x ∈ nodes → x ∈ dom p0) →
    collected p0 done componentMap →
    ∃ componentMap' uf2,
      fold_left collect nodes acc uf0 = Some (componentMap', uf2)
      ∧ uf_inv (parent uf2) ∧ same_roots p0 (parent uf2) ∧ dom (parent uf2) = dom p0
      ∧ collected p0 (done ++ nodes) componentMap'.
Proof.
  intros Hf. induction nodes as [|node nodes IH];
    intros acc uf0 done componentMap uf1 Hacc Hinv Hsame Hdom Hkeys Hcol.
  - exists componentMap, uf1. rewrite app_nil_r. by simpl.
  - cbn [fold_left].
    destruct (find_spec_key node uf1 Hinv) as (r & p' & Hfind & Hr & Hinv' & Hsame' & Hdom').
    { rewrite Hdom. apply Hkeys. by left. }
    assert (Hr0 : root_of (par p0) node r).
    { exact (same_roots_sym _ _ Hf Hsame _ _ Hr). }
    destruct (IH (collect acc node) uf0 (done ++ [node])
                (<[r := default [] (componentMap !! r) ++ [node]]> componentMap)
                {| parent := p'; rank := rank uf1 |})
      as (componentMap' & uf2 & Hloop & ? & ? & ? & Hcol').
    + unfold collect, uf_bind. rewrite Hacc, Hfind. done.
    + done.
    + by eapply same_roots_trans.
    + simpl. congruence.
    + intros x Hx. apply Hkeys. by right.
    + by apply collected_step.
    + exists componentMap', uf2. rewrite <- app_assoc in Hcol'. done.
Qed.

Section GetComponents.
Context `{MapIteration}.

Lemma range_map_Permutation {V} (m : gmap string V) : range_map m ≡ₚ map_to_list m.
Proof. apply go_range_perm. Qed.

Lemma range_set_Permutation (s : gset string) : range_set s ≡ₚ elements s.
Proof. apply go_range_perm. Qed.

Lemma getComponents_spec uf :
  uf_inv (parent uf) →
  ∃ comps uf',
    getComponents uf = Some (comps, uf')
    ∧ uf_inv (parent uf') ∧ dom (parent uf') = dom (parent uf)
    ∧ components_of (dom (parent uf)) (same_root (parent uf)) comps.
Proof.
  intros Hinv. unfold getComponents.
  set (nodes := (range_map (parent uf)).*1).
  assert (Hnodes : nodes ≡ₚ elements (dom (parent uf))).
  { unfold nodes. rewrite range_map_Permutation. apply keys_Permutation. }
  destruct (collect_loop (parent uf) nodes (inv_forest _ Hinv) (uf_ret ∅) uf [] ∅ uf)
    as (cm & uf' & Hloop & Hinv' & Hsame & Hdom & Hmem & Hroots & Hall).
  { done. } { done. } { apply same_roots_refl. } { done. }
  { intros x Hx. rewrite Hnodes in Hx. by apply elem_of_elements in Hx. }
  { split; [|split].
    - unfold members. by rewrite map_to_list_empty.
    - intros r l. by rewrite lookup_empty.
    - intros x r Hx. by apply elem_of_nil in Hx. }
  change (fold_left _ nodes (uf_ret ∅)) with (fold_left collect nodes (uf_ret ∅)).
  unfold uf_bind at 1. rewrite Hloop. unfold uf_ret.
  exists (range_map cm).*2, uf'. split; [done|]. split; [done|]. split; [done|].
  assert (Hcomps : (range_map cm).*2 ≡ₚ (map_to_list cm).*2).
  { by rewrite range_map_Permutation. }
  assert (Hin : ∀ c, c ∈ (range_map cm).*2 ↔ ∃ r, cm !! r = Some c).
  { intros c. rewrite Hcomps, list_elem_of_fmap. split.
    - intros ([r c'] & -> & Hrc). apply elem_of_map_to_list in Hrc. by eauto.
    - intros [r Hr]. exists (r, c). split; [done|]. by apply elem_of_map_to_list. }
  simpl in Hmem. split; [|split; [|split]].
  - rewrite (concat_Permutation _ _ Hcomps). fold (members cm).
    by rewrite Hmem.
  - apply Forall_forall. intros c Hc. apply Hin in Hc as [r Hr].
    by apply (Hroots r c).
  - intros c x y Hc Hx Hy. apply Hin in Hc as [r Hr].
    destruct (Hroots r c Hr) as [_ Hroot]. exists r. split; by apply Hroot.
  - intros x y Hx Hy (r & Hxr & Hyr).
    assert (x ∈ nodes) as Hxn by (by rewrite Hnodes; apply elem_of_elements).
    assert (y ∈ nodes) as Hyn by (by rewrite Hnodes; apply elem_of_elements).
    destruct (Hall x r Hxn Hxr) as (l & Hl & Hxl).
    destruct (Hall y r Hyn Hyr) as (l' & Hl' & Hyl).
    assert (l' = l) as -> by congruence.
    exists l. split; [|done]. apply Hin. by eauto.
Qed.
End GetComponents.

(** * Cohesion: LCOM4 *)

(** ** Connectivity with one more edge *)

Section OneMoreEdge.
Context (R R' : relation string) (a b : string).
Hypothesis R'_spec : ∀ x y, R' x y ↔ R x y ∨ (x = a ∧ y = b).

Let joined (x y : string) : Prop :=
  rtsc R x y ∨ ((rtsc R x a ∨ rtsc R x b) ∧ (rtsc R y a ∨ rtsc R y b)).

Lemma rtsc_one_more_edge x y : rtsc R' x y ↔ joined x y.
Proof.
  split.
  - intros Hxy. unfold rtsc in Hxy.
    induction Hxy as [x|x y z Hxy _ IH]; [by left|].
    assert (Hstep : rtsc R x y ∨ (x = a ∧ y = b) ∨ (x = b ∧ y = a)).
    { destruct Hxy as [Hxy|Hxy]; apply R'_spec in Hxy as [Hxy|[-> ->]]; auto.
      - left. by apply rtsc_lr.
      - left. by apply rtsc_rl. }
    destruct Hstep as [Hstep|[[-> ->]|[-> ->]]].
    + destruct IH as [IH|[[Hya|Hyb] Hz]].
      * left. by etrans.
      * right. split; [left; by etrans|done].
      * right. split; [right; by etrans|done].
    + destruct IH as [IH|[_ Hz]].
      * right. split; [by left|]. right. by symmetry.
      * right. split; [by left|done].
    + destruct IH as [IH|[_ Hz]].
      * right. split; [by right|]. left. by symmetry.
      * right. split; [by right|done].
  - assert (Hsub : ∀ u v, rtsc R u v → rtsc R' u v).
    { intros u v. apply rtc_subrel. intros u' v' [?|?]; [left|right]; apply R'_spec; auto. }
    assert (Hab : rtsc R' a b) by (apply rtsc_lr, R'_spec; auto).
    assert (Hto_a : ∀ u, rtsc R u a ∨ rtsc R u b → rtsc R' u a).
    { intros u [Hu|Hu]; [by apply Hsub|]. etrans; [by apply Hsub|by symmetry]. }
    intros [Hxy|[Hx Hy]]; [by apply Hsub|].
    etrans; [by apply Hto_a|]. symmetry. by apply Hto_a.
Qed.
End OneMoreEdge.

(** ** The structure after the calls of [add] *)

(** Every key is its own parent. *)
Definition singletons (p : gmap string string) : Prop :=
  ∀ x v, p !! x = Some v → v = x.

Lemma singletons_root p x : singletons p → par p x = x ∨ (p !! x = None ∧ x ≠ "").
Proof.
  intros Hs. unfold par. destruct (p !! x) as [v|] eqn:Hx; simpl.
  - left. by apply (Hs x).
  - destruct (decide (x = "")) as [->|]; [by left|by right].
Qed.

Lemma singletons_root_of p x : singletons p → x ∈ dom p → root_of (par p) x x.
Proof.
  intros Hs Hx. apply root_of_root. apply elem_of_dom in Hx as [v Hv].
  rewrite (par_lookup _ _ _ Hv). by apply (Hs x).
Qed.

Lemma singletons_inv p : singletons p → uf_inv p ∧ uf_closed p.
Proof.
  intros Hs. split; [split|].
  - intros x. destruct (singletons_root p x Hs) as [Hx|[Hx Hne]].
    + exists x. by apply root_of_root.
    + exists "". apply root_of_step.
      * by rewrite (par_not_key _ _ Hx).
      * rewrite (par_not_key _ _ Hx). apply root_of_root.
        destruct (singletons_root p "" Hs) as [?|[_ ?]]; done.
  - intros x v Hx. right. rewrite (Hs _ _ Hx) in *. by eauto.
  - intros x v Hx. rewrite (Hs _ _ Hx) in *. by eauto.
Qed.

Lemma add_singletons x uf :
  singletons (parent uf) →
  singletons (parent (add x uf)) ∧ dom (parent (add x uf)) = {[x]} ∪ dom (parent uf).
Proof.
  intros Hs. unfold add. destruct (parent uf !! x) as [v|] eqn:Hx.
  - split; [done|]. apply elem_of_dom_2 in Hx. set_solver.
  - cbn [setRank setParent parent]. split; [|by rewrite dom_insert_L].
    intros y v. rewrite lookup_insert. case_decide; [congruence|apply Hs].
Qed.

Lemma adds_singletons {A} (f : A → string) (l : list A) uf :
  singletons (parent uf) →
  singletons (parent (fold_left (λ uf a, add (f a) uf) l uf))
  ∧ dom (parent (fold_left (λ uf a, add (f a) uf) l uf))
    = list_to_set (f <$> l) ∪ dom (parent uf).
Proof.
  revert uf. induction l as [|a l IH]; intros uf Hs; simpl.
  - split; [done|set_solver].
  - destruct (add_singletons (f a) uf Hs) as [Hs' Hdom].
    destruct (IH _ Hs') as [Hs'' Hdom'']. split; [done|].
    rewrite Hdom'', Hdom. set_solver.
Qed.

(** ** The calls of [union] *)

(** After the unions [E] over the nodes [nodes]: two nodes have the same
    root exactly when they are connected by the pairs of [E]. *)
Definition edges_inv (nodes : gset string) (E : list (string * string))
    (uf : unionFind) : Prop :=
  uf_inv (parent uf) ∧ uf_closed (parent uf) ∧ dom (parent uf) = nodes
  ∧ ∀ x y, x ∈ nodes → y ∈ nodes →
           (same_root (parent uf) x y ↔ rtsc (λ u v, (u, v) ∈ E) x y).

Lemma union_edges_inv nodes E a b uf :
  edges_inv nodes E uf → a ∈ nodes → b ∈ nodes →
  ∃ uf', union a b uf = Some (tt, uf') ∧ edges_inv nodes (E ++ [(a, b)]) uf'.
Proof.
  intros (Hinv & Hc & Hdom & Hconn) Ha Hb.
  destruct (union_spec a b uf Hinv) as (uf' & Hun & Hinv' & _ & _ & Hmerged & Hclosed).
  destruct Hclosed as [Hc' Hdom']; [done|by rewrite Hdom..|].
  exists uf'. split; [done|]. split; [done|]. split; [done|].
  split; [congruence|]. intros x y Hx Hy.
  rewrite (rtsc_one_more_edge (λ u v, (u, v) ∈ E) (λ u v, (u, v) ∈ E ++ [(a, b)]) a b).
  - rewrite (Hmerged x y), !Hconn by done. done.
  - intros u v. rewrite elem_of_app, list_elem_of_singleton. naive_solver.
Qed.

Lemma unions_edges_inv nodes E m fs uf :
  edges_inv nodes E uf → m ∈ nodes → (∀ f, f ∈ fs → f ∈ nodes) →
  ∃ uf', uf_for fs (λ field, union m field) uf = Some (tt, uf')
         ∧ edges_inv nodes (E ++ (pair m <$> fs)) uf'.
Proof.
  revert E uf. induction fs as [|f fs IH]; intros E uf Hinv Hm Hfs.
  - exists uf. rewrite app_nil_r. done.
  - destruct (union_edges_inv nodes E m f uf Hinv Hm) as (uf1 & Hun & Hinv1).
    { apply Hfs. by left. }
    destruct (IH _ uf1 Hinv1 Hm) as (uf2 & Hfor & Hinv2).
    { intros f' Hf'. apply Hfs. by right. }
    exists uf2. cbn [uf_for]. unfold uf_bind at 1. rewrite Hun.
    split; [done|]. by rewrite <- app_assoc in Hinv2.
Qed.

Section Cohesion.
Context `{MapIteration}.

(** The pairs [calculateStructLCOM4] passes to [union], in order. *)
Definition unionPairs (methods : list methodInfo) : list (string * string) :=
  concat ((λ method, pair (name method) <$> range_set (usedFields method)) <$> methods).

Lemma methods_edges_inv nodes E methods uf :
  edges_inv nodes E uf →
  (∀ method, method ∈ methods →
             name method ∈ nodes ∧ ∀ f, f ∈ usedFields method → f ∈ nodes) →
  ∃ uf', uf_for methods
           (λ method, uf_for (range_set (usedFields method))
                        (λ field, union (name method) field)) uf
         = Some (tt, uf')
         ∧ edges_inv nodes (E ++ unionPairs methods) uf'.
Proof.
  revert E uf. induction methods as [|method methods IH]; intros E uf Hinv Hms.
  - exists uf. unfold unionPairs. simpl. rewrite app_nil_r. done.
  - destruct (Hms method) as [Hname Hused]; [by left|].
    destruct (unions_edges_inv nodes E (name method) (range_set (usedFields method)) uf)
      as (uf1 & Hfor & Hinv1); [done..| |].
    { intros f Hf. apply Hused. rewrite range_set_Permutation in Hf.
      by apply elem_of_elements in Hf. }
    destruct (IH _ uf1 Hinv1) as (uf2 & Hfor2 & Hinv2).
    { intros m' Hm'. apply Hms. by right. }
    exists uf2. cbn [uf_for]. unfold uf_bind at 1. rewrite Hfor.
    split; [done|]. unfold unionPairs in *. cbn [fmap list_fmap concat].
    by rewrite <- app_assoc in Hinv2.
Qed.

Lemma elem_of_unionPairs methods u v :
  (u, v) ∈ unionPairs methods
  ↔ ∃ method, method ∈ methods ∧ name method = u ∧ v ∈ usedFields method.
Proof.
  unfold unionPairs. rewrite elem_of_concat. split.
  - intros (l & Hl & Huv). apply list_elem_of_fmap in Hl as (method & -> & Hm).
    apply list_elem_of_fmap in Huv as (f & [= -> ->] & Hf).
    rewrite range_set_Permutation in Hf. apply elem_of_elements in Hf. by eauto.
  - intros (method & Hm & <- & Hv). eexists. split.
    + apply list_elem_of_fmap. by eauto.
    + apply list_elem_of_fmap. exists v. split; [done|].
      rewrite range_set_Permutation. by apply elem_of_elements.
Qed.
End Cohesion.

(** ** Extraction of the methods *)

Lemma usedFieldsVisitor_spec recvName fieldMap n acc :
  acc ⊆ fieldMap →
  ∃ acc', usedFieldsVisitor recvName fieldMap n acc = (true, acc') ∧ acc' ⊆ fieldMap.
Proof.
  intros Hacc. unfold usedFieldsVisitor.
  repeat case_match; try (by eexists); subst.
  eexists. split; [done|]. set_solver.
Qed.

Lemma Inspect_usedFields recvName fieldMap n acc :
  acc ⊆ fieldMap → Inspect (usedFieldsVisitor recvName fieldMap) n acc ⊆ fieldMap.
Proof.
  revert acc. induction n as [k cs IH] using Node_ind. intros acc Hacc.
  cbn [Inspect].
  destruct (usedFieldsVisitor_spec recvName fieldMap (Some (mkNode k cs)) acc Hacc)
    as (acc1 & -> & Hacc1).
  assert (Hfold : ∀ acc0, acc0 ⊆ fieldMap →
            fold_left (λ acc c, Inspect (usedFieldsVisitor recvName fieldMap) c acc) cs acc0
            ⊆ fieldMap).
  { clear -IH. induction IH as [|c cs Hc _ IHcs]; intros acc0 Hacc0; simpl; [done|].
    apply IHcs, Hc, Hacc0. }
  destruct (usedFieldsVisitor_spec recvName fieldMap None _ (Hfold _ Hacc1))
    as (acc2 & -> & Hacc2).
  done.
Qed.

Lemma findUsedFields_subset body recvName fieldMap :
  findUsedFields body recvName fieldMap ⊆ fieldMap.
Proof.
  unfold findUsedFields. destruct body; [|set_solver].
  apply Inspect_usedFields. set_solver.
Qed.

Lemma extractMethods_usedFields structName file structFields method :
  method ∈ extractMethods structName file structFields →
  usedFields method ⊆ list_to_set structFields.
Proof.
  unfold extractMethods.
  set (fieldMap := list_to_set structFields : gset string).
  assert (Hgen : ∀ methods0,
    (∀ m, m ∈ methods0 → usedFields m ⊆ fieldMap) →
    ∀ m, m ∈ fold_left
        (λ methods funcDecl,
           match Recv funcDecl with
           | None => methods
           | Some recvList =>
               fold_left
                 (λ methods recv,
                    if decide (recvTypeName recv = structName) then
                      methods ++ [{| name := Name funcDecl;
                                     usedFields := findUsedFields (Body funcDecl)
                                                     (recvVarName recv) fieldMap |}]
                    else methods)
                 recvList methods
           end) file methods0 → usedFields m ⊆ fieldMap).
  { induction file as [|funcDecl file IH]; intros methods0 H0; [done|].
    cbn [fold_left]. apply IH. destruct (Recv funcDecl) as [recvList|]; [|done].
    clear IH. revert methods0 H0.
    induction recvList as [|recv recvList IHr]; intros methods0 H0; [done|].
    cbn [fold_left]. apply IHr. case_decide; [|done].
    intros m Hm. apply elem_of_app in Hm as [Hm|Hm]; [by apply H0|].
    apply list_elem_of_singleton in Hm as ->. apply findUsedFields_subset. }
  apply Hgen. intros m Hm. by apply elem_of_nil in Hm.
Qed.

(** ** The graph of the specification *)

(** Method [m] reads or writes field [f]. *)
Definition touches (methods : list methodInfo) (m f : string) : Prop :=
  ∃ method, method ∈ methods ∧ name method = m ∧ f ∈ usedFields method.

(** Connected in the bipartite graph of methods and fields. *)
Definition connected (methods : list methodInfo) : relation string :=
  rtsc (touches methods).

(** The nodes of the graph: the names of the methods and of the fields. *)
Definition graphNodes (methods : list methodInfo) (fields : list string) : gset string :=
  list_to_set (name <$> methods) ∪ list_to_set fields.

Lemma components_of_iff nodes (R R' : relation string) comps :
  (∀ x y, x ∈ nodes → y ∈ nodes → (R x y ↔ R' x y)) →
  components_of nodes R comps → components_of nodes R' comps.
Proof.
  intros Hiff (Hperm & Hne & Hin & Hall).
  assert (Hnode : ∀ c x, c ∈ comps → x ∈ c → x ∈ nodes).
  { intros c x Hc Hx. apply elem_of_elements. rewrite <- Hperm.
    apply elem_of_concat. by eauto. }
  split; [done|]. split; [done|]. split.
  - intros c x y Hc Hx Hy. apply Hiff; [by eapply Hnode..|]. by eapply Hin.
  - intros x y Hx Hy HR. apply Hall; [done..|]. by apply Hiff.
Qed.

(** When all nodes are connected there is one list. *)
Lemma components_of_one nodes (R : relation string) comps :
  components_of nodes R comps → nodes ≠ ∅ →
  (∀ x y, x ∈ nodes → y ∈ nodes → R x y) →
  length comps = 1%nat.
Proof.
  intros (Hperm & Hne & Hin & Hall) Hnodes Htotal.
  assert (Hnode : ∀ c x, c ∈ comps → x ∈ c → x ∈ nodes).
  { intros c x Hc Hx. apply elem_of_elements. rewrite <- Hperm.
    apply elem_of_concat. by eauto. }
  assert (Hnodup : NoDup (concat comps)).
  { rewrite Hperm. apply NoDup_elements. }
  destruct comps as [|c1 [|c2 comps]]; [|done|].
  - exfalso. apply Hnodes. apply leibniz_equiv, elements_empty_iff.
    simpl in Hperm. by apply Permutation_nil_l in Hperm.
  - exfalso. apply Forall_cons in Hne as [Hc1 Hne]. apply Forall_cons in Hne as [Hc2 _].
    destruct c1 as [|x c1]; [done|]. destruct c2 as [|y c2]; [done|].
    assert (Hx : x ∈ nodes) by (apply (Hnode (x :: c1)); by constructor).
    assert (Hy : y ∈ nodes).
    { apply (Hnode (y :: c2)); [|by constructor]. apply elem_of_cons. right. by constructor. }
    destruct (Hall x y Hx Hy (Htotal x y Hx Hy)) as (c & Hc & Hxc & Hyc).
    cbn [concat] in Hnodup. apply NoDup_app in Hnodup as (_ & Hdisj & _).
    apply elem_of_cons in Hc as [->|Hc].
    + apply (Hdisj y Hyc). apply elem_of_app. left. by constructor.
    + apply (Hdisj x); [by constructor|]. apply elem_of_app.
      apply elem_of_cons in Hc as [->|Hc]; [by left|].
      right. apply elem_of_concat. by eauto.
Qed.

(** ** [calculateStructLCOM4] *)

Lemma singletons_edges_inv uf :
  singletons (parent uf) → edges_inv (dom (parent uf)) [] uf.
Proof.
  intros Hs. destruct (singletons_inv _ Hs) as [Hinv Hc].
  split; [done|]. split; [done|]. split; [done|].
  intros x y Hx Hy. split.
  - intros (r & Hxr & Hyr).
    rewrite <- (root_of_functional _ _ _ _ (singletons_root_of _ _ Hs Hx) Hxr) in Hyr.
    by rewrite (root_of_functional _ _ _ _ (singletons_root_of _ _ Hs Hy) Hyr).
  - intros Hxy. unfold rtsc in Hxy. destruct Hxy as [x|x y z [Hxy|Hxy] _].
    + exists x. split; by apply singletons_root_of.
    + by apply elem_of_nil in Hxy.
    + by apply elem_of_nil in Hxy.
Qed.

Section LCOM4.
Context `{MapIteration}.

Lemma calculateStructLCOM4_spec structName structType file fileName :
  let fields := extractFields structType in
  let methods := extractMethods structName file fields in
  methods ≠ [] →
  ∃ comps,
    calculateStructLCOM4 structName structType file fileName
    = Some {| StructName := structName; FilePath := fileName;
              LCOM4Score := Z.of_nat (length comps); ComponentDetails := comps;
              MethodClusters := None; FieldMatrix := None |}
    ∧ components_of (graphNodes methods fields) (connected methods) comps.
Proof.
  intros fields methods Hne. unfold calculateStructLCOM4.
  fold fields. fold methods.
  rewrite decide_False by (by destruct methods).
  set (uf0 := fold_left (λ uf field, add field uf) fields
                (fold_left (λ uf method, add (name method) uf) methods newUnionFind)).
  assert (Hs0 : singletons (parent uf0) ∧ dom (parent uf0) = graphNodes methods fields).
  { unfold uf0.
    destruct (adds_singletons name methods newUnionFind) as [Hs1 Hd1].
    { intros x v. simpl. by rewrite lookup_empty. }
    destruct (adds_singletons id fields _ Hs1) as [Hs2 Hd2].
    split; [exact Hs2|]. etrans; [exact Hd2|]. rewrite Hd1. unfold graphNodes. simpl.
    rewrite dom_empty_L, list_fmap_id. set_solver. }
  destruct Hs0 as [Hs0 Hdom0].
  pose proof (singletons_edges_inv uf0 Hs0) as Hinv0. rewrite Hdom0 in Hinv0.
  destruct (methods_edges_inv (graphNodes methods fields) [] methods uf0 Hinv0)
    as (uf1 & Hfor & Hinv1 & Hc1 & Hdom1 & Hconn1).
  { intros method Hm. split.
    - unfold graphNodes. apply elem_of_union. left.
      apply elem_of_list_to_set, list_elem_of_fmap. by eauto.
    - intros f Hf. unfold graphNodes. apply elem_of_union. right.
      by apply (extractMethods_usedFields structName file fields method Hm). }
  destruct (getComponents_spec uf1 Hinv1) as (comps & uf2 & Hget & _ & _ & Hcomps).
  unfold uf_bind at 1. rewrite Hfor, Hget.
  exists comps. split; [done|]. rewrite Hdom1 in Hcomps.
  eapply components_of_iff; [|exact Hcomps].
  intros x y Hx Hy. rewrite (Hconn1 x y Hx Hy). simpl. unfold connected.
  split; apply rtc_subrel; intros u v [Huv|Huv]; [left|right|left|right];
    by apply elem_of_unionPairs.
Qed.
End LCOM4.

(** ** Sequences of operations on the union-find *)

Inductive ufOp :=
| OpAdd (node : string)
| OpUnion (node1 node2 : string).

Definition runOp (op : ufOp) : UF unit :=
  match op with
  | OpAdd node => λ uf, Some (tt, add node uf)
  | OpUnion node1 node2 => union node1 node2
  end.

Definition runOps (ops : list ufOp) : UF unit := uf_for ops runOp.

(** The nodes passed to [add]. *)
Fixpoint addedNodes (ops : list ufOp) : gset string :=
  match ops with
  | [] => ∅
  | OpAdd node :: ops => {[node]} ∪ addedNodes ops
  | OpUnion _ _ :: ops => addedNodes ops
  end.

(** Every [union] names nodes that were added before it. *)
Fixpoint unionsOn (seen : gset string) (ops : list ufOp) : Prop :=
  match ops with
  | [] => True
  | OpAdd node :: ops => unionsOn ({[node]} ∪ seen) ops
  | OpUnion node1 node2 :: ops => node1 ∈ seen ∧ node2 ∈ seen ∧ unionsOn seen ops
  end.

Definition unionsOnAdded (ops : list ufOp) : Prop := unionsOn ∅ ops.

Lemma runOps_spec ops uf seen :
  uf_inv (parent uf) → seen ⊆ dom (parent uf) →
  ∃ uf', runOps ops uf = Some (tt, uf')
    ∧ uf_inv (parent uf')
    ∧ seen ∪ addedNodes ops ⊆ dom (parent uf')
    ∧ (uf_closed (parent uf) → dom (parent uf) = seen → unionsOn seen ops →
       dom (parent uf') = seen ∪ addedNodes ops).
Proof.
  revert uf seen. induction ops as [|[node|node1 node2] ops IH]; intros uf seen Hinv Hseen.
  - exists uf. split; [done|]. split; [done|]. simpl. split; [set_solver|].
    intros _ -> _. set_solver.
  - destruct (add_spec node uf Hinv) as (Hinv1 & Hdom1 & Hc1).
    destruct (IH (add node uf) ({[node]} ∪ seen) Hinv1) as (uf' & Hrun & Hinv' & Hsub & Heq).
    { rewrite Hdom1. clear -Hseen. set_solver. }
    exists uf'. split; [exact Hrun|]. split; [done|]. cbn [addedNodes unionsOn]. split.
    + clear -Hsub. set_solver.
    + intros Hc Hd Hwf. rewrite Heq; [clear; set_solver|by auto| |done].
      rewrite Hdom1, Hd. done.
  - destruct (union_spec node1 node2 uf Hinv)
      as (uf1 & Hun & Hinv1 & Hsub1 & _ & _ & Hclosed).
    destruct (IH uf1 seen Hinv1) as (uf' & Hrun & Hinv' & Hsub & Heq).
    { clear -Hseen Hsub1. set_solver. }
    exists uf'. split.
    { unfold runOps in *. cbn [uf_for runOp]. unfold uf_bind at 1. by rewrite Hun. }
    split; [done|]. cbn [addedNodes unionsOn]. split; [done|].
    intros Hc Hd (Hn1 & Hn2 & Hwf).
    destruct Hclosed as [Hc1 Hd1]; [done|by rewrite Hd..|].
    apply Heq; [done|congruence|done].
Qed.

(** ** The claims on cohesion *)

Section CohesionClaims.
Context `{MapIteration}.

(** C2 (amended). For a struct with at least one method the LCOM4
    score is the number of lists in [ComponentDetails], and these lists
    are the connected components of the bipartite graph of method and
    field names with an edge between a method and each field it uses.
    In particular a struct with at least one field whose methods all
    use all fields scores exactly 1. *)
Theorem lcom4_counts_components structName structType file fileName :
  let fields := extractFields structType in
  let methods := extractMethods structName file fields in
  methods ≠ [] →
  ∃ result,
    calculateStructLCOM4 structName structType file fileName = Some result
    ∧ LCOM4Score result = Z.of_nat (length (ComponentDetails result))
    ∧ components_of (graphNodes methods fields) (connected methods)
        (ComponentDetails result)
    ∧ (fields ≠ [] →
       (∀ method f, method ∈ methods → f ∈ fields → f ∈ usedFields method) →
       LCOM4Score result = 1).
Proof.
  intros fields methods Hne.
  destruct (calculateStructLCOM4_spec structName structType file fileName Hne)
    as (comps & Hcalc & Hcomps).
  fold fields in Hcalc, Hcomps. fold methods in Hcomps.
  eexists. split; [exact Hcalc|]. cbn [LCOM4Score ComponentDetails].
  split; [done|]. split; [done|]. intros Hfields Hall.
  rewrite (components_of_one _ _ _ Hcomps); [done| |].
  - destruct fields as [|f0 fields']; [done|]. unfold graphNodes.
    intros Hempty. assert (f0 ∈ (∅ : gset string)); [|set_solver].
    rewrite <- Hempty. set_solver.
  - destruct fields as [|f0 fields'] eqn:Hf; [done|].
    destruct methods as [|m0 methods'] eqn:Hm; [done|].
    assert (Hto : ∀ x, x ∈ graphNodes (m0 :: methods') (f0 :: fields') →
              connected (m0 :: methods') x f0).
    { intros x Hx. unfold graphNodes in Hx. apply elem_of_union in Hx as [Hx|Hx].
      - apply elem_of_list_to_set, list_elem_of_fmap in Hx as (method & -> & Hmeth).
        apply rtsc_lr. exists method. split; [done|]. split; [done|].
        apply Hall; [done|by left].
      - apply elem_of_list_to_set in Hx.
        trans (name m0).
        + apply rtsc_rl. exists m0. split; [by left|]. split; [done|]. apply Hall; [by left|done].
        + apply rtsc_lr. exists m0. split; [by left|]. split; [done|]. apply Hall; by left. }
    intros x y Hx Hy. trans f0; [by apply Hto|]. symmetry. by apply Hto.
Qed.

(** C7. A struct without methods gets the score 0 and no component;
    this result is returned, the call does not fail. *)
Theorem lcom4_no_methods structName structType file fileName :
  extractMethods structName file (extractFields structType) = [] →
  calculateStructLCOM4 structName structType file fileName
  = Some {| StructName := structName; FilePath := fileName; LCOM4Score := 0;
            ComponentDetails := []; MethodClusters := None; FieldMatrix := None |}.
Proof. intros Hm. unfold calculateStructLCOM4. by rewrite Hm. Qed.

(** C10 (amended). After any sequence of [add] and [union] operations
    [getComponents] returns; its lists are not empty and together hold
    every added node exactly once.  When every [union] names nodes
    added before it, the lists hold nothing else: they partition the
    added nodes.  Hence, for a struct with at least one method,
    [ComponentDetails] partitions the names of its methods and fields
    and the score is the number of its lists. *)
Theorem unionFind_components_partition :
  (∀ ops, ∃ uf comps uf',
      runOps ops newUnionFind = Some (tt, uf)
      ∧ getComponents uf = Some (comps, uf')
      ∧ Forall (λ c, c ≠ []) comps
      ∧ NoDup (concat comps)
      ∧ (∀ node, node ∈ addedNodes ops → node ∈ concat comps)
      ∧ (unionsOnAdded ops → concat comps ≡ₚ elements (addedNodes ops)))
  ∧ (∀ structName structType file fileName,
       let fields := extractFields structType in
       let methods := extractMethods structName file fields in
       methods ≠ [] →
       ∃ result,
         calculateStructLCOM4 structName structType file fileName = Some result
         ∧ Forall (λ c, c ≠ []) (ComponentDetails result)
         ∧ concat (ComponentDetails result) ≡ₚ elements (graphNodes methods fields)
         ∧ LCOM4Score result = Z.of_nat (length (ComponentDetails result))).
Proof.
  split.
  - intros ops.
    assert (Hs : singletons (parent newUnionFind)).
    { intros x v. simpl. by rewrite lookup_empty. }
    destruct (singletons_inv _ Hs) as [Hinv0 Hc0].
    destruct (runOps_spec ops newUnionFind ∅ Hinv0) as (uf & Hrun & Hinv & Hsub & Heq).
    { set_solver. }
    destruct (getComponents_spec uf Hinv) as (comps & uf' & Hget & _ & _ & Hcomps).
    destruct Hcomps as (Hperm & Hne & _ & _).
    exists uf, comps, uf'. split; [done|]. split; [done|]. split; [done|].
    split; [rewrite Hperm; apply NoDup_elements|]. split.
    + intros node Hnode. rewrite Hperm. apply elem_of_elements.
      clear -Hsub Hnode. set_solver.
    + intros Hwf. rewrite Hperm, Heq; [|done|done|done].
      by rewrite union_empty_l_L.
  - intros structName structType file fileName fields methods Hne.
    destruct (calculateStructLCOM4_spec structName structType file fileName Hne)
      as (comps & Hcalc & Hperm & Hnonempty & _).
    eexists. split; [exact Hcalc|]. by cbn [LCOM4Score ComponentDetails].
Qed.
End CohesionClaims.

(** ** Concrete structs *)

(** [func (s *T) name() { s.f1; s.f2; ... }] *)
Definition methodUsing (T methodName : string) (fields : list string) : FuncDecl :=
  {| Recv := Some [{| Names := ["s"]; Type_ := mkNode StarExpr [mkNode (Ident T) []] |}];
     Name := methodName;
     Body := Some {| Lbrace := 1; Rbrace := 3;
                     Block := mkNode BlockStmt
                                ((λ f, mkNode SelectorExpr
                                         [mkNode (Ident "s") []; mkNode (Ident f) []])
                                 <$> fields) |} |}.

(** [type T struct { f1, f2, ... int }] *)
Definition structOf (fields : list string) : StructType :=
  {| Fields := Some [{| Names := fields; Type_ := mkNode (Ident "int") [] |}] |}.

(** A struct with two fields whose two methods use both. *)
Lemma lcom4_counts_components_witness :
  let structType := structOf ["x"; "y"] in
  let file := [methodUsing "Pair" "Sum" ["x"; "y"]; methodUsing "Pair" "Swap" ["y"; "x"]] in
  let fields := extractFields structType in
  let methods := extractMethods "Pair" file fields in
  ∃ result,
    @calculateStructLCOM4 canonical_iteration "Pair" structType file "pair.go" = Some result
    ∧ LCOM4Score result = Z.of_nat (length (ComponentDetails result))
    ∧ components_of (graphNodes methods fields) (connected methods)
        (ComponentDetails result)
    ∧ (fields ≠ [] →
       (∀ method f, method ∈ methods → f ∈ fields → f ∈ usedFields method) →
       LCOM4Score result = 1).
Proof.
  intros structType file fields methods.
  apply (@lcom4_counts_components canonical_iteration "Pair" structType file "pair.go").
  intros Hnil. vm_compute in Hnil. discriminate Hnil.
Defined.

(** The "in particular" of C2 fails without a field: a struct without
    fields and with two methods has every method use every field, and
    scores 2. *)
Lemma lcom4_all_fields_counterexample :
  let structType := structOf [] in
  let file := [methodUsing "T" "A" []; methodUsing "T" "B" []] in
  let fields := extractFields structType in
  let methods := extractMethods "T" file fields in
  methods ≠ []
  ∧ (∀ method f, method ∈ methods → f ∈ fields → f ∈ usedFields method)
  ∧ ∃ result,
      @calculateStructLCOM4 canonical_iteration "T" structType file "t.go" = Some result
      ∧ LCOM4Score result = 2.
Proof.
  intros structType file fields methods. split; [|split].
  - intros Hnil. vm_compute in Hnil. discriminate Hnil.
  - intros method f _ Hf. by apply elem_of_nil in Hf.
  - eexists. split; [vm_compute; reflexivity|reflexivity].
Qed.

(** A struct whose file declares no method for it. *)
Lemma lcom4_no_methods_witness :
  @calculateStructLCOM4 canonical_iteration "Config" (structOf ["path"; "mode"])
    [methodUsing "Server" "Run" ["path"]] "config.go"
  = Some {| StructName := "Config"; FilePath := "config.go"; LCOM4Score := 0;
            ComponentDetails := []; MethodClusters := None; FieldMatrix := None |}.
Proof.
  apply (@lcom4_no_methods canonical_iteration). reflexivity.
Defined.

(** A [union] of two nodes that were never added makes both of them
    members of a component: the lists are no partition of the added
    nodes (there are none). *)
Lemma unionFind_partition_counterexample :
  ∃ uf comps uf',
    runOps [OpUnion "a" "b"] newUnionFind = Some (tt, uf)
    ∧ @getComponents canonical_iteration uf = Some (comps, uf')
    ∧ concat comps = ["a"; "b"]
    ∧ elements (addedNodes [OpUnion "a" "b"]) = [].
Proof.
  eexists _, _, _. split; [vm_compute; reflexivity|].
  split; [vm_compute; reflexivity|]. split; reflexivity.
Qed.

(** * Further properties of the union-find *)

Lemma newUnionFind_inv : uf_inv (parent newUnionFind) ∧ uf_closed (parent newUnionFind).
Proof. apply singletons_inv. intros x v. simpl. by rewrite lookup_empty. Qed.

Lemma same_root_refl p x : forest (par p) → same_root p x x.
Proof. intros Hf. destruct (Hf x) as [r Hr]. by exists r. Qed.

(** The state reached by a sequence of operations. *)
Lemma runOps_reaches ops :
  ∃ uf, runOps ops newUnionFind = Some (tt, uf) ∧ uf_inv (parent uf)
        ∧ addedNodes ops ⊆ dom (parent uf).
Proof.
  destruct newUnionFind_inv as [Hinv _].
  destruct (runOps_spec ops newUnionFind ∅ Hinv) as (uf & Hrun & Hinv' & Hsub & _).
  { set_solver. }
  exists uf. split; [done|]. split; [done|]. clear -Hsub. set_solver.
Qed.

(** The roots two calls of [find] return, one after the other. *)
Definition findBoth (x y : string) : UF (string * string) :=
  rx ←uf find x;
  ry ←uf find y;
  uf_ret (rx, ry).

Lemma findBoth_spec x y uf :
  uf_inv (parent uf) →
  ∃ rx ry uf', findBoth x y uf = Some ((rx, ry), uf')
    ∧ root_of (par (parent uf)) x rx ∧ root_of (par (parent uf)) y ry
    ∧ uf_inv (parent uf') ∧ same_roots (parent uf) (parent uf').
Proof.
  intros Hinv. unfold findBoth, uf_bind.
  destruct (find_spec x uf Hinv) as (rx & p1 & -> & Hrx & Hinv1 & Hs1 & _).
  destruct (find_spec y {| parent := p1; rank := rank uf |} Hinv1)
    as (ry & p2 & -> & Hry & Hinv2 & Hs2 & _).
  exists rx, ry, {| parent := p2; rank := rank uf |}. split; [done|]. split; [done|].
  split; [exact (same_roots_sym _ _ (inv_forest _ Hinv) Hs1 _ _ Hry)|].
  split; [done|]. by eapply same_roots_trans.
Qed.

(** X1. After any sequence of operations, [union a b] returns, and then
    [find a] and [find b] return the same root. *)
Theorem union_joins (ops : list ufOp) (a b : string) :
  ∃ root uf,
    (_ ←uf runOps ops; _ ←uf union a b; findBoth a b) newUnionFind
    = Some ((root, root), uf).
Proof.
  destruct (runOps_reaches ops) as (uf1 & Hrun & Hinv1 & _).
  destruct (union_spec a b uf1 Hinv1) as (uf2 & Hun & Hinv2 & _ & _ & Hmerged & _).
  destruct (findBoth_spec a b uf2 Hinv2) as (ra & rb & uf3 & Hfind & Hra & Hrb & _).
  assert (ra = rb) as <-.
  { destruct (proj2 (Hmerged a b)) as (r & Har & Hbr).
    - right. split; [left|right]; apply same_root_refl, Hinv1.
    - rewrite (root_of_functional _ _ _ _ Hra Har).
      by rewrite (root_of_functional _ _ _ _ Hrb Hbr). }
  exists ra, uf3. unfold uf_bind. by rewrite Hrun, Hun.
Qed.

Lemma add_same_root z uf x y :
  uf_inv (parent uf) → x ∈ dom (parent uf) → y ∈ dom (parent uf) →
  same_root (parent uf) x y → same_root (parent (add z uf)) x y.
Proof.
  intros Hinv Hx Hy (r & Hxr & Hyr). unfold add.
  destruct (parent uf !! z) as [v|] eqn:Hz; [by exists r|].
  cbn [setRank setParent parent].
  assert (Hkeep : ∀ u, u ∈ dom (parent uf) →
            root_of (par (parent uf)) u r → root_of (par (<[z:=z]> (parent uf))) u r).
  { intros u Hu Hur. assert (u ≠ z).
    { intros ->. apply elem_of_dom in Hu as [? ?]. congruence. }
    destruct (decide (z = "")) as [->|Hne].
    - destruct Hur as [m Hm]. exists m. eapply reach_ext; [|exact Hm].
      intros w. rewrite par_insert. case_decide; [|done].
      subst. by rewrite (par_not_key _ _ Hz).
    - eapply fresh_root_of; [apply par_insert| |done|done].
      intros w _ Hw. destruct (par_key_or_empty (parent uf) w Hinv) as [He|Hk].
      + congruence.
      + rewrite Hw, Hz in Hk. by destruct Hk. }
  exists r. split; by apply Hkeep.
Qed.

Lemma runOps_same_root ops uf x y :
  uf_inv (parent uf) → x ∈ dom (parent uf) → y ∈ dom (parent uf) →
  same_root (parent uf) x y →
  ∃ uf', runOps ops uf = Some (tt, uf') ∧ uf_inv (parent uf')
         ∧ same_root (parent uf') x y.
Proof.
  revert uf. induction ops as [|[node|node1 node2] ops IH]; intros uf Hinv Hx Hy Hxy.
  - by exists uf.
  - destruct (add_spec node uf Hinv) as (Hinv1 & Hdom1 & _).
    destruct (IH (add node uf) Hinv1) as (uf' & Hrun & Hinv' & Hxy').
    { rewrite Hdom1. clear -Hx. set_solver. }
    { rewrite Hdom1. clear -Hy. set_solver. }
    { by apply add_same_root. }
    by exists uf'.
  - destruct (union_spec node1 node2 uf Hinv) as (uf1 & Hun & Hinv1 & Hsub & _ & Hmerged & _).
    destruct (IH uf1 Hinv1) as (uf' & Hrun & Hinv' & Hxy').
    { clear -Hx Hsub. set_solver. }
    { clear -Hy Hsub. set_solver. }
    { apply Hmerged. by left. }
    exists uf'. split; [|done].
    unfold runOps in *. cbn [uf_for runOp]. unfold uf_bind at 1. by rewrite Hun.
Qed.

Lemma runOps_app ops1 ops2 uf :
  runOps (ops1 ++ ops2) uf = (_ ←uf runOps ops1; runOps ops2) uf.
Proof.
  revert uf. induction ops1 as [|op ops1 IH]; intros uf; [done|].
  unfold runOps in *. cbn [app uf_for]. unfold uf_bind at 1 2 3.
  destruct (runOp op uf) as [[[] uf1]|]; [|done]. rewrite IH. done.
Qed.

(** X2. Operations never split a component: two added nodes for which
    [find] returns one root still get one root after any further
    [add] and [union] operations. *)
Theorem operations_never_split (ops1 ops2 : list ufOp) (x y r : string) (uf1 : unionFind) :
  x ∈ addedNodes ops1 → y ∈ addedNodes ops1 →
  (_ ←uf runOps ops1; findBoth x y) newUnionFind = Some ((r, r), uf1) →
  ∃ r' uf2,
    (_ ←uf runOps (ops1 ++ ops2); findBoth x y) newUnionFind = Some ((r', r'), uf2).
Proof.
  intros Hx Hy Hfind.
  destruct (runOps_reaches ops1) as (uf & Hrun & Hinv & Hsub).
  unfold uf_bind in Hfind. rewrite Hrun in Hfind.
  destruct (findBoth_spec x y uf Hinv) as (rx & ry & uf' & Hfind' & Hrx & Hry & _).
  rewrite Hfind' in Hfind. injection Hfind as -> -> _.
  destruct (runOps_same_root ops2 uf x y Hinv) as (uf2 & Hrun2 & Hinv2 & Hxy).
  { clear -Hx Hsub. set_solver. } { clear -Hy Hsub. set_solver. } { by exists r. }
  destruct (findBoth_spec x y uf2 Hinv2) as (rx & ry & uf3 & Hfind3 & Hrx' & Hry' & _).
  destruct Hxy as (r' & Hxr' & Hyr').
  rewrite (root_of_functional _ _ _ _ Hrx' Hxr') in Hfind3.
  rewrite (root_of_functional _ _ _ _ Hry' Hyr') in Hfind3.
  exists r', uf3. unfold uf_bind at 1. rewrite runOps_app. unfold uf_bind at 1.
  by rewrite Hrun, Hrun2.
Qed.

Lemma operations_never_split_witness :
  ∃ r' uf2,
    (_ ←uf runOps ([OpAdd "a"; OpAdd "b"; OpUnion "a" "b"]
                   ++ [OpAdd "c"; OpUnion "c" "b"; OpAdd "a"]);
     findBoth "a" "b") newUnionFind = Some ((r', r'), uf2).
Proof.
  eapply (operations_never_split [OpAdd "a"; OpAdd "b"; OpUnion "a" "b"] _ "a" "b").
  - vm_compute. set_solver.
  - vm_compute. set_solver.
  - vm_compute. reflexivity.
Defined.

(** * Further properties of the cohesion analyzer *)

(** ** The components of a graph are unique *)

(** The position of the first list that holds [x]. *)
Fixpoint indexOf (x : string) (comps : list (list string)) : nat :=
  match comps with
  | [] => 0
  | c :: comps => if decide (x ∈ c) then 0 else S (indexOf x comps)
  end.

Lemma indexOf_lookup x comps :
  x ∈ concat comps → ∃ c, comps !! indexOf x comps = Some c ∧ x ∈ c.
Proof.
  induction comps as [|c comps IH]; simpl.
  - by intros ?%elem_of_nil.
  - intros Hx. case_decide as Hc; [by exists c|].
    apply elem_of_app in Hx as [Hx|Hx]; [done|]. by apply IH.
Qed.

Lemma concat_NoDup_same_list (comps : list (list string)) a c x :
  NoDup (concat comps) → a ∈ comps → c ∈ comps → x ∈ a → x ∈ c → a = c.
Proof.
  induction comps as [|d comps IH]; simpl; intros Hnd Ha Hc Hxa Hxc.
  - by apply elem_of_nil in Ha.
  - apply NoDup_app in Hnd as (_ & Hdisj & Hnd).
    apply elem_of_cons in Ha as [->|Ha]; apply elem_of_cons in Hc as [->|Hc].
    + done.
    + exfalso. apply (Hdisj x Hxa). apply elem_of_concat. by eauto.
    + exfalso. apply (Hdisj x Hxc). apply elem_of_concat. by eauto.
    + by apply IH.
Qed.

Lemma concat_NoDup_lists (comps : list (list string)) :
  NoDup (concat comps) → Forall (λ c, c ≠ []) comps → NoDup comps.
Proof.
  induction comps as [|d comps IH]; simpl; intros Hnd Hne; [constructor|].
  apply Forall_cons in Hne as [Hd Hne]. apply NoDup_app in Hnd as (_ & Hdisj & Hnd).
  constructor; [|by apply IH].
  intros Hin. destruct d as [|x d]; [done|].
  apply (Hdisj x); [by left|]. apply elem_of_concat. exists (x :: d). split; [done|by left].
Qed.

Lemma concat_NoDup_list (comps : list (list string)) c :
  NoDup (concat comps) → c ∈ comps → NoDup c.
Proof.
  induction comps as [|d comps IH]; simpl; intros Hnd Hc.
  - by apply elem_of_nil in Hc.
  - apply NoDup_app in Hnd as (Hd & _ & Hnd).
    apply elem_of_cons in Hc as [->|Hc]; [done|by apply IH].
Qed.

Lemma NoDup_bounded_length (l : list nat) n :
  NoDup l → (∀ i, i ∈ l → (i < n)%nat) → (length l ≤ n)%nat.
Proof.
  intros Hnd Hlt. trans (length (seq 0 n)); [|by rewrite length_seq].
  apply submseteq_length, NoDup_submseteq; [done|].
  intros i Hi. apply elem_of_seq. specialize (Hlt i Hi). lia.
Qed.

Section Unique.
Context (nodes : gset string) (conn : relation string).
Implicit Types comps : list (list string).

Lemma components_of_NoDup comps : components_of nodes conn comps → NoDup (concat comps).
Proof. intros (Hperm & _). rewrite Hperm. apply NoDup_elements. Qed.

Lemma components_of_elem comps x :
  components_of nodes conn comps → x ∈ concat comps ↔ x ∈ nodes.
Proof. intros (Hperm & _). by rewrite Hperm, elem_of_elements. Qed.

(** The list of [comps2] that holds the nodes of a list of [comps1]. *)
Lemma components_of_same_list comps1 comps2 a :
  components_of nodes conn comps1 → components_of nodes conn comps2 →
  a ∈ comps1 → ∃ b, b ∈ comps2 ∧ a ≡ₚ b.
Proof.
  intros H1 H2 Ha.
  pose proof (components_of_NoDup _ H1) as Hnd1.
  pose proof (components_of_NoDup _ H2) as Hnd2.
  destruct H1 as (Hperm1 & Hne1 & Hin1 & Hall1).
  destruct H2 as (Hperm2 & Hne2 & Hin2 & Hall2).
  assert (Hnode1 : ∀ c x, c ∈ comps1 → x ∈ c → x ∈ nodes).
  { intros c x Hc Hx. apply elem_of_elements. rewrite <- Hperm1.
    apply elem_of_concat. by eauto. }
  assert (Hnode2 : ∀ c x, c ∈ comps2 → x ∈ c → x ∈ nodes).
  { intros c x Hc Hx. apply elem_of_elements. rewrite <- Hperm2.
    apply elem_of_concat. by eauto. }
  assert (∃ h, h ∈ a) as [h Hh].
  { destruct a as [|h t]; [|exists h; by left].
    exfalso. by apply (proj1 (Forall_forall _ _) Hne1 []). }
  assert (Hhn : h ∈ nodes) by by eapply Hnode1.
  assert (h ∈ concat comps2) as (b & Hb & Hhb)%elem_of_concat.
  { rewrite Hperm2. by apply elem_of_elements. }
  exists b. split; [done|].
  apply NoDup_Permutation;
    [exact (concat_NoDup_list comps1 a Hnd1 Ha)
    |exact (concat_NoDup_list comps2 b Hnd2 Hb)|].
  intros y. split.
  - intros Hy. destruct (Hall2 h y) as (b' & Hb' & Hhb' & Hyb');
      [done|exact (Hnode1 a y Ha Hy)|exact (Hin1 a h y Ha Hh Hy)|].
    by rewrite (concat_NoDup_same_list comps2 b b' h).
  - intros Hy. destruct (Hall1 h y) as (a' & Ha' & Hha' & Hya');
      [done|exact (Hnode2 b y Hb Hy)|exact (Hin2 b h y Hb Hhb Hy)|].
    by rewrite (concat_NoDup_same_list comps1 a a' h).
Qed.

Lemma components_of_length_le comps1 comps2 :
  components_of nodes conn comps1 → components_of nodes conn comps2 →
  (length comps1 ≤ length comps2)%nat.
Proof.
  intros H1 H2.
  pose proof (components_of_NoDup _ H1) as Hnd1.
  pose proof (components_of_NoDup _ H2) as Hnd2.
  set (g := λ a : list string, indexOf (default "" (head a)) comps2).
  assert (Hhead : ∀ a, a ∈ comps1 →
            ∃ h b, head a = Some h ∧ h ∈ a ∧ comps2 !! g a = Some b ∧ h ∈ b).
  { intros a Ha. destruct a as [|h t].
    { exfalso. destruct H1 as (_ & Hne1 & _).
      by apply (proj1 (Forall_forall _ _) Hne1 []). }
    assert (h ∈ concat comps2) as Hh.
    { apply (components_of_elem _ _ H2), (components_of_elem _ _ H1).
      apply elem_of_concat. exists (h :: t). split; [done|by left]. }
    destruct (indexOf_lookup h comps2 Hh) as (b & Hb & Hhb).
    exists h, b. split; [done|]. split; [by left|]. done. }
  rewrite <- (length_fmap g comps1).
  apply NoDup_bounded_length.
  - apply NoDup_fmap_2_strong.
    + intros a a' Ha Ha' Hg.
      destruct (Hhead a Ha) as (h & b & _ & Hha & Hb & Hhb).
      destruct (Hhead a' Ha') as (h' & b' & _ & Hha' & Hb' & Hhb').
      rewrite Hg, Hb' in Hb. injection Hb as ->.
      destruct H1 as (Hperm1 & Hne1 & Hin1 & Hall1).
      destruct H2 as (Hperm2 & Hne2 & Hin2 & Hall2).
      assert (Hb : b ∈ comps2) by (by eapply list_elem_of_lookup_2).
      assert (Hnode1 : ∀ c x, c ∈ comps1 → x ∈ c → x ∈ nodes).
      { intros c x Hc Hx. apply elem_of_elements. rewrite <- Hperm1.
        apply elem_of_concat. by eauto. }
      destruct (Hall1 h h') as (c & Hc & Hhc & Hhc');
        [exact (Hnode1 a h Ha Hha)|exact (Hnode1 a' h' Ha' Hha')
        |exact (Hin2 b h h' Hb Hhb Hhb')|].
      rewrite (concat_NoDup_same_list comps1 a c h) by done.
      by rewrite (concat_NoDup_same_list comps1 a' c h').
    + apply concat_NoDup_lists; [done|]. by destruct H1 as (_ & ? & _).
  - intros i (a & -> & Ha)%list_elem_of_fmap.
    destruct (Hhead a Ha) as (h & b & _ & _ & Hb & _).
    by eapply lookup_lt_Some.
Qed.

Lemma components_of_length comps1 comps2 :
  components_of nodes conn comps1 → components_of nodes conn comps2 →
  length comps1 = length comps2.
Proof.
  intros H1 H2. apply Nat.le_antisymm; by apply components_of_length_le.
Qed.
End Unique.

(** ** The score of a struct *)

Lemma length_concat_nonempty {A} (ls : list (list A)) :
  Forall (λ l, l ≠ []) ls → (length ls ≤ length (concat ls))%nat.
Proof.
  induction 1 as [|l ls Hl _ IH]; simpl; [done|].
  rewrite length_app. destruct l; [done|]. simpl. lia.
Qed.

Lemma size_list_to_set_le (l : list string) :
  (size (list_to_set l : gset string) ≤ length l)%nat.
Proof.
  induction l as [|x l IH]; simpl.
  - done.
  - rewrite size_union_alt, size_singleton.
    assert ((list_to_set l ∖ {[x]} : gset string) ⊆ list_to_set l) as Hsub by set_solver.
    apply subseteq_size in Hsub. lia.
Qed.

(** X3. The result of the cohesion analysis does not depend on the
    order in which Go iterates over its maps: for any two iteration
    orders the analysis returns, the scores are equal and every
    component of one run is, up to the order of its members, a
    component of the other. *)
Theorem lcom4_order_independent (order1 order2 : MapIteration)
    structName structType file fileName :
  ∃ result1 result2,
    @calculateStructLCOM4 order1 structName structType file fileName = Some result1
    ∧ @calculateStructLCOM4 order2 structName structType file fileName = Some result2
    ∧ LCOM4Score result1 = LCOM4Score result2
    ∧ ∀ a, a ∈ ComponentDetails result1 →
           ∃ b, b ∈ ComponentDetails result2 ∧ a ≡ₚ b.
Proof.
  destruct (extractMethods structName file (extractFields structType)) as [|m ms] eqn:Hm.
  - rewrite !lcom4_no_methods by done. eexists _, _.
    split; [done|]. split; [done|]. split; [done|].
    simpl. by intros a ?%elem_of_nil.
  - assert (Hne : extractMethods structName file (extractFields structType) ≠ [])
      by (by rewrite Hm).
    destruct (@calculateStructLCOM4_spec order1 structName structType file fileName Hne)
      as (comps1 & -> & H1).
    destruct (@calculateStructLCOM4_spec order2 structName structType file fileName Hne)
      as (comps2 & -> & H2).
    eexists _, _. split; [done|]. split; [done|]. cbn [LCOM4Score ComponentDetails].
    split.
    + by rewrite (components_of_length _ _ _ _ H1 H2).
    + intros a Ha. exact (components_of_same_list _ _ _ _ a H1 H2 Ha).
Qed.

Section Score.
Context `{MapIteration}.

(** X4. The analysis of a struct always returns.  The score is 0
    exactly when the struct has no method; otherwise it is at least 1
    and at most the number of methods plus the number of fields. *)
Theorem lcom4_score_bounds structName structType file fileName :
  let fields := extractFields structType in
  let methods := extractMethods structName file fields in
  ∃ result,
    calculateStructLCOM4 structName structType file fileName = Some result
    ∧ (LCOM4Score result = 0 ↔ methods = [])
    ∧ 0 ≤ LCOM4Score result ≤ Z.of_nat (length methods + length fields).
Proof.
  intros fields methods. destruct methods as [|m ms] eqn:Hm.
  - rewrite lcom4_no_methods by done. eexists. split; [done|]. simpl. split; [done|lia].
  - assert (Hne : methods ≠ []) by (by rewrite Hm).
    destruct (calculateStructLCOM4_spec structName structType file fileName Hne)
      as (comps & -> & Hcomps).
    fold fields in Hcomps. fold methods in Hcomps.
    eexists. split; [done|]. cbn [LCOM4Score].
    destruct Hcomps as (Hperm & Hnonempty & _).
    pose proof (length_concat_nonempty _ Hnonempty) as Hle.
    rewrite Hperm in Hle.
    change (length (elements (graphNodes methods fields)))
      with (size (graphNodes methods fields)) in Hle.
    assert (size (graphNodes methods fields) ≤ length methods + length fields)%nat as Hsize.
    { unfold graphNodes. rewrite <- list_to_set_app_L.
      etrans; [apply size_list_to_set_le|]. by rewrite length_app, length_fmap. }
    assert (comps ≠ []) as Hcomps.
    { intros ->.
      assert (name m ∈ graphNodes methods fields) as Hin.
      { unfold graphNodes. rewrite Hm. set_solver. }
      apply elem_of_elements in Hin. rewrite <- Hperm in Hin.
      by apply elem_of_nil in Hin. }
    rewrite <- Hm. split; [|lia].
    split; [|by rewrite Hm]. destruct comps; [done|]. simpl. lia.
Qed.

(** X5. A node without edge is a component by itself: a method that
    uses no field, or a field that no method uses, whose name is not the
    name of a node with an edge, is reported as a list of its own. *)
Theorem lcom4_isolated_node structName structType file fileName (x : string) :
  let fields := extractFields structType in
  let methods := extractMethods structName file fields in
  methods ≠ [] →
  x ∈ graphNodes methods fields →
  (∀ u v, touches methods u v → u ≠ x ∧ v ≠ x) →
  ∃ result,
    calculateStructLCOM4 structName structType file fileName = Some result
    ∧ [x] ∈ ComponentDetails result.
Proof.
  intros fields methods Hne Hx Hiso.
  destruct (calculateStructLCOM4_spec structName structType file fileName Hne)
    as (comps & -> & Hcomps).
  fold fields in Hcomps. fold methods in Hcomps.
  eexists. split; [done|]. cbn [ComponentDetails].
  pose proof (components_of_NoDup _ _ _ Hcomps) as Hnd.
  destruct Hcomps as (Hperm & Hnonempty & Hin & _).
  assert (x ∈ concat comps) as (c & Hc & Hxc)%elem_of_concat.
  { rewrite Hperm. by apply elem_of_elements. }
  assert (Hall : ∀ y, y ∈ c → y = x).
  { intros y Hy. pose proof (Hin c x y Hc Hxc Hy) as Hconn.
    unfold connected, rtsc in Hconn.
    destruct Hconn as [|x y z [Hstep|Hstep] _]; [done|..];
      destruct (Hiso _ _ Hstep); done. }
  assert (c = [x]) as <-; [|done].
  pose proof (concat_NoDup_list comps c Hnd Hc) as Hndc.
  destruct c as [|y c]; [by apply elem_of_nil in Hxc|].
  rewrite (Hall y) by (by left). f_equal.
  destruct c as [|z c]; [done|]. exfalso.
  apply NoDup_cons in Hndc as [Hy _]. apply Hy.
  rewrite (Hall y) by (by left). rewrite (Hall z) at 1; [by left|]. right. by left.
Qed.
End Score.

(** A method that uses no field, beside one that uses the only field. *)
Lemma lcom4_isolated_node_witness :
  ∃ result,
    @calculateStructLCOM4 canonical_iteration "T" (structOf ["a"])
      [methodUsing "T" "A" ["a"]; methodUsing "T" "B" []] "t.go" = Some result
    ∧ ["B"] ∈ ComponentDetails result.
Proof.
  assert (Hmethods :
    extractMethods "T" [methodUsing "T" "A" ["a"]; methodUsing "T" "B" []]
      (extractFields (structOf ["a"]))
    = [{| name := "A"; usedFields := {["a"]} |}; {| name := "B"; usedFields := ∅ |}]).
  { vm_compute. reflexivity. }
  apply (@lcom4_isolated_node canonical_iteration "T" (structOf ["a"])
           [methodUsing "T" "A" ["a"]; methodUsing "T" "B" []] "t.go" "B").
  - by rewrite Hmethods.
  - rewrite Hmethods. unfold graphNodes. simpl. set_solver.
  - rewrite Hmethods. intros u v (method & Hm & <- & Hv).
    apply elem_of_cons in Hm as [->|Hm].
    + simpl in *. apply elem_of_singleton in Hv as ->. done.
    + apply list_elem_of_singleton in Hm as ->. simpl in Hv. set_solver.
Defined.

(** * Dependencies, coupling and the cluster estimate *)

(** ** [CategorizeDependencies] *)

Lemma CategorizeDependencies_fold (deps : list string) (projectPrefix : string)
    (internal external : list string) :
  fold_left
    (λ '(internal, external) dep,
       if HasPrefix dep projectPrefix then (internal ++ [dep], external)
       else (internal, external ++ [dep]))
    deps (internal, external)
  = (internal ++ filter (λ dep, HasPrefix dep projectPrefix) deps,
     external ++ filter (λ dep, ¬ HasPrefix dep projectPrefix) deps).
Proof.
  revert internal external.
  induction deps as [|dep deps IH]; intros internal external; simpl.
  - by rewrite !app_nil_r.
  - rewrite !filter_cons.
    destruct (HasPrefix dep projectPrefix) eqn:Hp; rewrite IH.
    + rewrite decide_True, decide_False by (rewrite ?Hp; simpl; tauto).
      by rewrite <- app_assoc.
    + rewrite decide_False, decide_True by (rewrite ?Hp; simpl; tauto).
      by rewrite <- app_assoc.
Qed.

Lemma CategorizeDependencies_filter (deps : list string) (projectPrefix : string) :
  CategorizeDependencies deps projectPrefix
  = (filter (λ dep, HasPrefix dep projectPrefix) deps,
     filter (λ dep, ¬ HasPrefix dep projectPrefix) deps).
Proof. unfold CategorizeDependencies. by rewrite CategorizeDependencies_fold. Qed.

Lemma filter_Permutation_split {A} (P : A → Prop) `{∀ x, Decision (P x)} (l : list A) :
  filter P l ++ filter (λ x, ¬ P x) l ≡ₚ l.
Proof.
  induction l as [|x l IH]; [done|].
  rewrite !filter_cons. destruct (decide (P x)).
  - rewrite decide_False by tauto. simpl. by f_equiv.
  - rewrite decide_True by tauto. rewrite <- Permutation_middle. by f_equiv.
Qed.

Lemma HasPrefix_app (projectPrefix suffix : string) :
  HasPrefix (projectPrefix +:+ suffix) projectPrefix = true.
Proof.
  unfold HasPrefix. induction projectPrefix as [|c p IH]; simpl.
  - by destruct suffix.
  - destruct (Ascii.ascii_dec c c); [done|congruence].
Qed.

Lemma HasPrefix_inv (s projectPrefix : string) :
  HasPrefix s projectPrefix = true → ∃ suffix, s = projectPrefix +:+ suffix.
Proof.
  unfold HasPrefix. revert s.
  induction projectPrefix as [|c p IH]; intros s Hs.
  - by exists s.
  - destruct s as [|c' s]; simpl in Hs; [done|].
    destruct (Ascii.ascii_dec c c') as [->|]; [|done].
    destruct (IH _ Hs) as [suffix ->]. by exists suffix.
Qed.

(** X6.  [CategorizeDependencies] loses and duplicates nothing: the two
    results are subsequences of the input, in the input's order, together
    they are a rearrangement of it, the internal ones are exactly the
    paths with the project prefix and the external ones the others. *)
Theorem CategorizeDependencies_partition (deps : list string) (projectPrefix : string) :
  let '(internal, external) := CategorizeDependencies deps projectPrefix in
  internal ++ external ≡ₚ deps
  ∧ internal `sublist_of` deps ∧ external `sublist_of` deps
  ∧ (∀ dep, dep ∈ internal ↔ dep ∈ deps ∧ HasPrefix dep projectPrefix = true)
  ∧ (∀ dep, dep ∈ external ↔ dep ∈ deps ∧ HasPrefix dep projectPrefix = false).
Proof.
  rewrite CategorizeDependencies_filter.
  split; [apply filter_Permutation_split|].
  split; [apply sublist_filter|]. split; [apply sublist_filter|].
  split; intros dep; rewrite list_elem_of_filter.
  - rewrite Is_true_true. tauto.
  - rewrite Is_true_false. tauto.
Qed.

(** X7.  With the empty project prefix every dependency is internal. *)
Theorem CategorizeDependencies_empty_prefix (deps : list string) :
  CategorizeDependencies deps "" = (deps, []).
Proof.
  rewrite CategorizeDependencies_filter. f_equal.
  - induction deps as [|d deps IH]; [done|].
    rewrite filter_cons, decide_True, IH; [done|].
    apply Is_true_true, (HasPrefix_app "" d).
  - induction deps as [|d deps IH]; [done|].
    rewrite filter_cons, decide_False, IH; [done|].
    pose proof (HasPrefix_app "" d) as Hd.
    change ("" +:+ d) with d in Hd. rewrite Hd. simpl. tauto.
Qed.

(** X8.  The test is a test on characters, not on path elements: a
    dependency is internal exactly when its path is the project prefix
    followed by any string at all. *)
Theorem CategorizeDependencies_internal_iff (deps : list string)
    (projectPrefix dep : string) :
  dep ∈ (CategorizeDependencies deps projectPrefix).1
  ↔ dep ∈ deps ∧ ∃ suffix, dep = projectPrefix +:+ suffix.
Proof.
  rewrite CategorizeDependencies_filter. simpl.
  rewrite list_elem_of_filter, Is_true_true. split.
  - intros [Hp Hin]. split; [done|]. by apply HasPrefix_inv.
  - intros [Hin [suffix ->]]. split; [|done]. apply HasPrefix_app.
Qed.

(** ** [CalculateCoupling] *)

Lemma countWithPrefix_fold (paths : list string) (projectPrefix : string) (c : Z) :
  fold_left (λ c path, if HasPrefix path projectPrefix then c + 1 else c) paths c
  = c + Z.of_nat (length (filter (λ path, HasPrefix path projectPrefix) paths)).
Proof.
  revert c. induction paths as [|path paths IH]; intros c; simpl; [lia|].
  rewrite IH, filter_cons.
  destruct (HasPrefix path projectPrefix); simpl; lia.
Qed.

Lemma countWithPrefix_filter (paths : list string) (projectPrefix : string) :
  countWithPrefix paths projectPrefix
  = Z.of_nat (length (filter (λ path, HasPrefix path projectPrefix) paths)).
Proof. unfold countWithPrefix. by rewrite countWithPrefix_fold. Qed.

Lemma insert_loop_lookup {V W} (g : V → W) (l : list (string * V))
    (acc : gmap string W) (k : string) :
  NoDup l.*1 →
  fold_left (λ metrics '(pkgPath, dep), <[pkgPath := g dep]> metrics) l acc !! k
  = match list_to_map (M := gmap string V) l !! k with
    | Some v => Some (g v)
    | None => acc !! k
    end.
Proof.
  revert acc. induction l as [|[k' v] l IH]; intros acc Hnd; simpl; [done|].
  apply NoDup_cons in Hnd as [Hk' Hnd]. rewrite IH by done.
  destruct (list_to_map l !! k) as [w|] eqn:Hl.
  - destruct (decide (k' = k)) as [->|Hne].
    + pose proof (not_elem_of_list_to_map_1 (M := gmap string) l k Hk') as Hn.
      rewrite Hn in Hl. done.
    + by rewrite lookup_insert_ne, Hl.
  - destruct (decide (k' = k)) as [->|Hne].
    + by rewrite !lookup_insert_eq.
    + by rewrite !lookup_insert_ne, Hl.
Qed.

Section CouplingFacts.
Context `{MapIteration}.

Lemma range_map_NoDup {V} (m : gmap string V) : NoDup (range_map m).*1.
Proof.
  unfold range_map. rewrite go_range_perm. apply NoDup_fst_map_to_list.
Qed.

Lemma range_map_to_map {V} (m : gmap string V) :
  list_to_map (M := gmap string V) (range_map m) = m.
Proof.
  rewrite <- (list_to_map_to_list m) at 2.
  apply list_to_map_proper; [apply range_map_NoDup|].
  unfold range_map. apply go_range_perm.
Qed.

(** X9.  [CalculateCoupling] gives every package of the input, and no
    other path, an entry, and the entry of a package is computed from that
    package's own lists alone: the order in which the map is visited
    does not matter. *)
Theorem CalculateCoupling_pointwise (pkgDeps : gmap string PackageDependency)
    (projectPrefix : string) :
  CalculateCoupling pkgDeps projectPrefix
  = (λ dep, couplingOf dep projectPrefix) <$> pkgDeps.
Proof.
  apply map_eq. intros k. unfold CalculateCoupling.
  rewrite insert_loop_lookup by apply range_map_NoDup.
  rewrite range_map_to_map, lookup_fmap.
  by destruct (pkgDeps !! k).
Qed.

(** X10.  The two counts of a package are the numbers of paths with the
    project prefix in its two lists (with repetitions), so they lie between
    zero and the lengths of the lists; a package with no such path has an
    instability of exactly zero. *)
Theorem CalculateCoupling_counts (pkgDeps : gmap string PackageDependency)
    (projectPrefix pkgPath : string) (dep : PackageDependency) :
  pkgDeps !! pkgPath = Some dep →
  ∃ m, CalculateCoupling pkgDeps projectPrefix !! pkgPath = Some m
    ∧ CmAfferent m
      = Z.of_nat (length (filter (λ p, HasPrefix p projectPrefix) (ImportedBy dep)))
    ∧ CmEfferent m
      = Z.of_nat (length (filter (λ p, HasPrefix p projectPrefix) (Imports dep)))
    ∧ 0 ≤ CmAfferent m ≤ Z.of_nat (length (ImportedBy dep))
    ∧ 0 ≤ CmEfferent m ≤ Z.of_nat (length (Imports dep))
    ∧ (CmAfferent m + CmEfferent m = 0 → CmInstability m = 0%float).
Proof.
  intros Hdep. exists (couplingOf dep projectPrefix).
  rewrite CalculateCoupling_pointwise, lookup_fmap, Hdep. split; [done|].
  unfold couplingOf. simpl. rewrite !countWithPrefix_filter.
  pose proof (length_filter (λ p, HasPrefix p projectPrefix) (ImportedBy dep)).
  pose proof (length_filter (λ p, HasPrefix p projectPrefix) (Imports dep)).
  repeat split; try lia.
  intros Hz. destruct (Z.gtb_spec
    (Z.of_nat (length (filter (λ p, HasPrefix p projectPrefix) (ImportedBy dep)))
     + Z.of_nat (length (filter (λ p, HasPrefix p projectPrefix) (Imports dep)))) 0);
    [lia|done].
Qed.
End CouplingFacts.

(** A package [a] that imports one project package and [fmt], and is
    imported by one project package. *)
Definition couplingExample : gmap string PackageDependency :=
  {[ "a" := {| DepPkgPath := "a"; Imports := ["proj/b"; "fmt"];
               ImportedBy := ["proj/c"] |} ]}.

Lemma CalculateCoupling_counts_witness :
  ∃ m, CalculateCoupling (H := canonical_iteration) couplingExample "proj" !! "a" = Some m
    ∧ CmAfferent m = 1 ∧ CmEfferent m = 1.
Proof.
  destruct (CalculateCoupling_counts (H := canonical_iteration) couplingExample "proj" "a"
              {| DepPkgPath := "a"; Imports := ["proj/b"; "fmt"];
                 ImportedBy := ["proj/c"] |})
    as (m & Hm & Ha & He & _).
  - vm_compute. reflexivity.
  - exists m. split; [exact Hm|]. split; [exact Ha|exact He].
Defined.

(** ** [estimateClusterCount] *)

(** The running sum [cumulativeVariance] after the given entries. *)
Definition cumulative (ratios : list float) : float :=
  fold_left (λ acc ratio, (acc + ratio)%float) ratios 0%float.

(** [e] leading entries, the last entry never among them, are above 0.1
    and the next one, unless it is the last entry, is not. *)
Definition elbowPrefix (explainedVariance : list float) (e : nat) : Prop :=
  (e ≤ length explainedVariance - 1)%nat
  ∧ (∀ (j : nat) v, (j < e)%nat → explainedVariance !! j = Some v →
       (0.1 <? v)%float = true)
  ∧ (∀ v, (e < length explainedVariance - 1)%nat → explainedVariance !! e = Some v →
       (0.1 <? v)%float = false).

(** [v] is the number of entries read by the third loop: the first
    position at which the running sum has reached 0.8, all entries if
    there is none. *)
Definition variancePrefix (explainedVariance : list float) (v : nat) : Prop :=
  (v ≤ length explainedVariance)%nat
  ∧ (explainedVariance ≠ [] → (1 ≤ v)%nat)
  ∧ (∀ j : nat, (1 ≤ j < v)%nat →
       (0.8 <=? cumulative (take j explainedVariance))%float = false)
  ∧ ((v < length explainedVariance)%nat →
       (0.8 <=? cumulative (take v explainedVariance))%float = true).

Lemma kaiserCount_fold (eigenvalues : list float) (count : Z) :
  fold_left (λ count ev, if (1 <? ev)%float then count + 1 else count) eigenvalues count
  = count + Z.of_nat (length (filter (λ ev, (1 <? ev)%float) eigenvalues)).
Proof.
  revert count. induction eigenvalues as [|ev evs IH]; intros count; simpl; [lia|].
  rewrite IH, filter_cons. destruct (1 <? ev)%float; simpl; lia.
Qed.

Lemma kaiserCount_filter (eigenvalues : list float) :
  kaiserCount eigenvalues
  = Z.of_nat (length (filter (λ ev, (1 <? ev)%float) eigenvalues)).
Proof. unfold kaiserCount. by rewrite kaiserCount_fold. Qed.

Lemma elbowLoop_spec (explainedVariance : list float) (i elbowCount : Z) :
  ∃ e : nat, elbowPrefix explainedVariance e
    ∧ elbowLoop explainedVariance i elbowCount
      = if decide (e = 0%nat) then elbowCount else i + Z.of_nat e.
Proof.
  revert i elbowCount.
  induction explainedVariance as [|v rest IH]; intros i elbowCount.
  { exists 0%nat. split; [|done]. repeat split; simpl; intros; lia. }
  destruct rest as [|v' rest'].
  { exists 0%nat. split; [|done]. repeat split; simpl; intros; lia. }
  change (elbowLoop (v :: v' :: rest') i elbowCount)
    with (if (0.1 <? v)%float then elbowLoop (v' :: rest') (i + 1) (i + 1)
          else elbowCount).
  destruct (0.1 <? v)%float eqn:Hv.
  - destruct (IH (i + 1) (i + 1)) as (e & (Hlen & Hbelow & Hstop) & ->).
    exists (S e). split.
    + split; [simpl in *; lia|]. split.
      * intros [|j] x Hj Hx; simpl in Hx; [congruence|].
        apply (Hbelow j); [lia|done].
      * intros x Hlt Hx. simpl in Hx. apply Hstop; [simpl in *; lia|done].
    + destruct (decide (S e = 0%nat)); [lia|]. destruct (decide (e = 0%nat)); lia.
  - exists 0%nat. split; [|done]. split; [simpl; lia|]. split.
    + intros; lia.
    + intros x _ Hx. simpl in Hx. congruence.
Qed.

Lemma varianceLoop_spec (explainedVariance done : list float) (i varianceCount : Z) :
  ∃ v : nat,
    (v ≤ length explainedVariance)%nat
    ∧ (explainedVariance ≠ [] → (1 ≤ v)%nat)
    ∧ (∀ j : nat, (1 ≤ j < v)%nat →
         (0.8 <=? cumulative (done ++ take j explainedVariance))%float = false)
    ∧ ((v < length explainedVariance)%nat →
         (0.8 <=? cumulative (done ++ take v explainedVariance))%float = true)
    ∧ varianceLoop explainedVariance i (cumulative done) varianceCount
      = if decide (v = 0%nat) then varianceCount else i + Z.of_nat v.
Proof.
  revert done i varianceCount.
  induction explainedVariance as [|ratio rest IH]; intros done i varianceCount.
  { exists 0%nat. repeat split; simpl; intros; try lia; done. }
  simpl.
  assert (Hcum : (cumulative done + ratio)%float = cumulative (done ++ [ratio])).
  { unfold cumulative. by rewrite fold_left_app. }
  rewrite Hcum.
  destruct (0.8 <=? cumulative (done ++ [ratio]))%float eqn:Hc.
  - exists 1%nat. repeat split; simpl; intros; try lia.
    + by rewrite take_0.
  - destruct (IH (done ++ [ratio]) (i + 1) (i + 1))
      as (v & Hlen & Hne & Hbelow & Hstop & ->).
    exists (S v). split; [simpl; lia|]. split; [lia|]. split; [|split].
    + intros [|[|j]] Hj; [lia| |].
      * simpl. by rewrite take_0.
      * specialize (Hbelow (S j)). rewrite <- app_assoc in Hbelow.
        apply Hbelow. lia.
    + intros Hlt. simpl in Hlt.
      specialize (Hstop ltac:(lia)). by rewrite <- app_assoc in Hstop.
    + destruct (decide (S v = 0%nat)); [lia|]. destruct (decide (v = 0%nat)); lia.
Qed.

Lemma varianceLoop_prefix (explainedVariance : list float) :
  ∃ v : nat, variancePrefix explainedVariance v
    ∧ varianceLoop explainedVariance 0 0 0 = Z.of_nat v.
Proof.
  destruct (varianceLoop_spec explainedVariance [] 0 0)
    as (v & Hlen & Hne & Hbelow & Hstop & Heq).
  exists v. split; [by repeat split|].
  change (cumulative []) with 0%float in Heq. rewrite Heq.
  destruct (decide (v = 0%nat)); lia.
Qed.

Lemma estimate_chain (kaiser elbow variance : Z) :
  (let estimate := kaiser in
   let estimate := if elbow >? estimate then elbow else estimate in
   let estimate := if variance <? estimate then variance else estimate in
   let estimate := if estimate <? 1 then 1 else estimate in
   let estimate := if estimate >? 5 then 5 else estimate in
   estimate)
  = Z.max 1 (Z.min 5 (Z.min (Z.max kaiser elbow) variance)).
Proof.
  cbv zeta.
  destruct (Z.gtb_spec elbow kaiser) as [H1|H1].
  - destruct (Z.ltb_spec variance elbow) as [H2|H2].
    + destruct (Z.ltb_spec variance 1) as [H3|H3].
      * destruct (Z.gtb_spec 1 5); lia.
      * destruct (Z.gtb_spec variance 5); lia.
    + destruct (Z.ltb_spec elbow 1) as [H3|H3].
      * destruct (Z.gtb_spec 1 5); lia.
      * destruct (Z.gtb_spec elbow 5); lia.
  - destruct (Z.ltb_spec variance kaiser) as [H2|H2].
    + destruct (Z.ltb_spec variance 1) as [H3|H3].
      * destruct (Z.gtb_spec 1 5); lia.
      * destruct (Z.gtb_spec variance 5); lia.
    + destruct (Z.ltb_spec kaiser 1) as [H3|H3].
      * destruct (Z.gtb_spec 1 5); lia.
      * destruct (Z.gtb_spec kaiser 5); lia.
Qed.

(** X11.  Whatever the two lists hold (also infinities and NaN), the
    estimate is a number from 1 to 5, and it never exceeds the number of
    explained-variance entries, unless that is zero, when it is 1. *)
Theorem estimateClusterCount_range (eigenvalues explainedVariance : list float) :
  1 ≤ estimateClusterCount eigenvalues explainedVariance ≤ 5
  ∧ estimateClusterCount eigenvalues explainedVariance
    ≤ Z.max 1 (Z.of_nat (length explainedVariance)).
Proof.
  unfold estimateClusterCount.
  destruct (decide (length eigenvalues = 0%nat)); [lia|].
  rewrite estimate_chain.
  destruct (varianceLoop_prefix explainedVariance) as (v & (Hlen & _) & ->).
  lia.
Qed.

(** X12.  For a non-empty list of eigenvalues the estimate is the
    larger of the number of eigenvalues above 1 and the elbow count,
    capped by the number of entries read until the running sum of the
    explained variance reaches 0.8, and then brought into 1..5.  The
    elbow count is the number of leading entries above 0.1, where the
    last entry of the list is never looked at, and at least 1. *)
Theorem estimateClusterCount_formula (ev : float) (evs explainedVariance : list float) :
  ∃ e v : nat,
    elbowPrefix explainedVariance e ∧ variancePrefix explainedVariance v
    ∧ estimateClusterCount (ev :: evs) explainedVariance
      = Z.max 1 (Z.min 5
          (Z.min (Z.max (Z.of_nat (length (filter (λ x, (1 <? x)%float) (ev :: evs))))
                        (Z.max 1 (Z.of_nat e)))
                 (Z.of_nat v))).
Proof.
  destruct (elbowLoop_spec explainedVariance 0 1) as (e & He & Heq).
  destruct (varianceLoop_prefix explainedVariance) as (v & Hv & Hveq).
  exists e, v. split; [done|]. split; [done|].
  unfold estimateClusterCount.
  destruct (decide (length (ev :: evs) = 0%nat)) as [Hn|_]; [done|].
  rewrite estimate_chain, kaiserCount_filter, Heq, Hveq.
  destruct (decide (e = 0%nat)) as [->|Hne]; lia.
Qed.

(** * Bounds and composition of the complexity count *)

(** The number of nodes of a tree. *)
Definition nodeCount (n : Node) : Z := countNodes (λ _, true) n.

Lemma decisionPoints_nonneg n : 0 ≤ decisionPoints n.
Proof.
  unfold decisionPoints.
  pose proof (countNodes_nonneg isIf n). pose proof (countNodes_nonneg isLoop n).
  pose proof (countNodes_nonneg isSwitch n). pose proof (countNodes_nonneg isValuedCase n).
  pose proof (countNodes_nonneg isCommCase n). pose proof (countNodes_nonneg isLogicalOp n).
  lia.
Qed.

Lemma decisionPoints_single k : 0 ≤ decisionPoints (mkNode k []) ≤ 1.
Proof.
  unfold decisionPoints.
  destruct k as [| | |[]| | | | | | | | | |[]|[]|]; simpl; lia.
Qed.

Lemma decisionPoints_le_nodeCount n : decisionPoints n ≤ nodeCount n.
Proof.
  induction n as [k cs IH] using Node_ind.
  rewrite decisionPoints_node. unfold nodeCount. cbn [countNodes].
  pose proof (decisionPoints_single k).
  assert (foldr Z.add 0 (map decisionPoints cs)
          ≤ foldr Z.add 0 (map (countNodes (λ _, true)) cs)); [|lia].
  induction IH as [|c cs Hc _ IHcs]; simpl; [lia|].
  unfold nodeCount in Hc. lia.
Qed.

(** X13.  The complexity of a function is at least 1 and at most one more
    than the number of syntax nodes of its body. *)
Theorem complexity_bounds (funcDecl : FuncDecl) :
  1 ≤ calculateFunctionComplexity funcDecl
  ∧ calculateFunctionComplexity funcDecl
    ≤ 1 + match Body funcDecl with
          | Some body => nodeCount (Block body)
          | None => 0
          end.
Proof.
  unfold calculateFunctionComplexity.
  destruct (Body funcDecl) as [body|]; [|lia].
  rewrite Inspect_complexity.
  pose proof (decisionPoints_nonneg (Block body)).
  pose proof (decisionPoints_le_nodeCount (Block body)). lia.
Qed.

(** X14.  Complexity adds up over a statement list: a function whose
    body is the statements of two functions one after the other has the
    sum of their complexities less 1, since the base of 1 is only counted
    once.  Splitting a function in two never lowers the sum. *)
Theorem complexity_sequential (recv : option (list Field)) (name : string)
    (lbrace rbrace : Z) (stmts1 stmts2 : list Node) :
  let function stmts :=
    {| Recv := recv; Name := name;
       Body := Some {| Lbrace := lbrace; Rbrace := rbrace;
                       Block := mkNode BlockStmt stmts |} |} in
  calculateFunctionComplexity (function (stmts1 ++ stmts2))
  = calculateFunctionComplexity (function stmts1)
    + calculateFunctionComplexity (function stmts2) - 1.
Proof.
  intros function. unfold calculateFunctionComplexity, function. cbn [Body Block].
  rewrite !Inspect_complexity.
  rewrite (decisionPoints_node BlockStmt (stmts1 ++ stmts2)),
    (decisionPoints_node BlockStmt stmts1), (decisionPoints_node BlockStmt stmts2).
  rewrite map_app, foldr_add_app.
  change (decisionPoints (mkNode BlockStmt [])) with 0. lia.
Qed.

(** X15.  The walk enters function literals: a function one of whose
    statements is the call of a literal, [func(...) { inside }()], has
    the complexity of the function with the statements [inside] in the
    place of that call, plus the decision points of the literal's
    signature (a signature has none, unless an array length in it holds
    one).  The literal is the [FuncLit] node of go/ast, with its type
    and its body as children, inside the call expression inside the
    expression statement. *)
Theorem complexity_counts_closures (recv : option (list Field)) (name : string)
    (lbrace rbrace : Z) (before inside after : list Node) (signature : Node) :
  let function stmts :=
    {| Recv := recv; Name := name;
       Body := Some {| Lbrace := lbrace; Rbrace := rbrace;
                       Block := mkNode BlockStmt stmts |} |} in
  let literal := mkNode FuncLit [signature; mkNode BlockStmt inside] in
  let statement := mkNode OtherNode [mkNode CallExpr [literal]] in
  calculateFunctionComplexity (function (before ++ statement :: after))
  = calculateFunctionComplexity (function (before ++ inside ++ after))
    + decisionPoints signature.
Proof.
  intros function literal statement.
  unfold calculateFunctionComplexity, function. cbn [Body Block].
  rewrite !Inspect_complexity.
  rewrite (decisionPoints_node BlockStmt (before ++ _ :: after)),
    (decisionPoints_node BlockStmt (before ++ inside ++ after)).
  rewrite !map_app, !foldr_add_app. cbn [map foldr].
  unfold statement, literal.
  rewrite (decisionPoints_node OtherNode). cbn [map foldr].
  rewrite (decisionPoints_node CallExpr). cbn [map foldr].
  rewrite (decisionPoints_node FuncLit). cbn [map foldr].
  rewrite (decisionPoints_node BlockStmt inside).
  change (decisionPoints (mkNode BlockStmt [])) with 0.
  change (decisionPoints (mkNode FuncLit [])) with 0.
  change (decisionPoints (mkNode CallExpr [])) with 0.
  change (decisionPoints (mkNode OtherNode [])) with 0. lia.
Qed.

(** * The depth-first walk of [CalculateDependencyDepth] *)

Section DepthWalk.
Context `{MapIteration}.
Variable pkgDeps : gmap string PackageDependency.
Variable projectPrefix : string.
Variable fullToRelPath : gmap string string.
Hypothesis relPath_is_package :
  ∀ importPath relPath,
    fullToRelPath !! importPath = Some relPath → relPath ∈ dom pkgDeps.

(** The packages [dfs] has not entered yet. *)
Definition unseen (st : depthState) : gset string :=
  dom pkgDeps ∖ (visited st ∪ inProgress st).

(** What a stored depth [d] of package [p] is, given the depths [D]
    stored so far: 0 without imports; otherwise 1, or one more than the
    positive stored depth of a package that one of the imports names. *)
Definition depth_ok (D : gmap string Z) (p : string) (d : Z) : Prop :=
  ∃ dep, pkgDeps !! p = Some dep
    ∧ ((Imports dep = [] ∧ d = 0)
       ∨ (Imports dep ≠ []
          ∧ (d = 1
             ∨ ∃ importPath relPath childDepth,
                 importPath ∈ Imports dep
                 ∧ HasPrefix importPath projectPrefix = true
                 ∧ fullToRelPath !! importPath = Some relPath
                 ∧ D !! relPath = Some childDepth
                 ∧ 1 ≤ childDepth ∧ d = childDepth + 1))).

Record depth_inv (st : depthState) : Prop := {
  di_visited : visited st ⊆ dom pkgDeps;
  di_inProgress : inProgress st ⊆ dom pkgDeps;
  di_disjoint : visited st ## inProgress st;
  di_dom : dom (depths st) = visited st;
  di_bound : ∀ p d, depths st !! p = Some d → 0 ≤ d ≤ Z.of_nat (size (visited st));
  di_ok : ∀ p d, depths st !! p = Some d → depth_ok (depths st) p d
}.

(** The state after a call, or a loop, that started in [st]. *)
Record depth_step (st st' : depthState) : Prop := {
  ds_inv : depth_inv st';
  ds_inProgress : inProgress st' = inProgress st;
  ds_visited : visited st ⊆ visited st';
  ds_depths : depths st ⊆ depths st'
}.

Lemma depth_ok_mono D D' p d : D ⊆ D' → depth_ok D p d → depth_ok D' p d.
Proof.
  intros HD (dep & Hdep & [Hz|[Hne [H1|(i & c & dc & Hi & Hp & Hc & HDc & Hdc)]]]);
    exists dep; split; try done.
  - by left.
  - right. split; [done|]. by left.
  - right. split; [done|]. right. exists i, c, dc.
    repeat split; try done; try lia. by eapply lookup_weaken.
Qed.

Lemma depth_step_refl st : depth_inv st → depth_step st st.
Proof. intros Hinv. by split. Qed.

Lemma depth_step_trans st1 st2 st3 :
  depth_step st1 st2 → depth_step st2 st3 → depth_step st1 st3.
Proof.
  intros [_ Hp1 Hv1 Hd1] [Hinv Hp2 Hv2 Hd2]. split; [done| | |].
  - by rewrite Hp2.
  - by etrans.
  - by etrans.
Qed.

Lemma depth_step_unseen st st' :
  depth_step st st' → (size (unseen st') ≤ size (unseen st))%nat.
Proof.
  intros [_ Hp Hv _]. apply subseteq_size. unfold unseen. rewrite Hp.
  clear -Hv. set_solver.
Qed.

Lemma depth_step_size st st' :
  depth_step st st' → (size (visited st) ≤ size (visited st'))%nat.
Proof. intros [_ _ Hv _]. by apply subseteq_size. Qed.

(** What a call [rec p st] does when fewer than [n] packages are unseen. *)
Definition call_spec (rec : string → depthState → option (Z * depthState))
    (n : nat) : Prop :=
  ∀ p st, depth_inv st → p ∈ dom pkgDeps → (size (unseen st) < n)%nat →
    ∃ d st', rec p st = Some (d, st') ∧ depth_step st st'
      ∧ (p ∈ inProgress st → d = 0)
      ∧ (p ∉ inProgress st → depths st' !! p = Some d).

Lemma importsLoop_spec rec n :
  call_spec rec n →
  ∀ imports maxDepth st,
    depth_inv st → (size (unseen st) < n)%nat →
    0 ≤ maxDepth ≤ Z.of_nat (size (visited st)) →
    ∃ m st',
      importsLoop projectPrefix fullToRelPath rec imports maxDepth st = Some (m, st')
      ∧ depth_step st st'
      ∧ 0 ≤ m ≤ Z.of_nat (size (visited st'))
      ∧ (m = maxDepth
         ∨ ∃ importPath relPath,
             importPath ∈ imports
             ∧ HasPrefix importPath projectPrefix = true
             ∧ fullToRelPath !! importPath = Some relPath
             ∧ depths st' !! relPath = Some m ∧ maxDepth < m).
Proof.
  intros Hrec imports.
  induction imports as [|importPath rest IH]; intros maxDepth st Hinv Hn Hmax.
  { exists maxDepth, st. split; [done|]. split; [by apply depth_step_refl|].
    split; [done|]. by left. }
  cbn [importsLoop].
  destruct (HasPrefix importPath projectPrefix) eqn:Hprefix.
  2:{ destruct (IH maxDepth st Hinv Hn Hmax) as (m & st' & -> & Hstep & Hm & Hwhy).
      exists m, st'. split; [done|]. split; [done|]. split; [done|].
      destruct Hwhy as [->|(i & c & Hi & Hp & Hc & Hd & Hlt)]; [by left|].
      right. exists i, c. split; [by apply elem_of_cons; right|done]. }
  destruct (fullToRelPath !! importPath) as [relPath|] eqn:Hrel.
  2:{ destruct (IH maxDepth st Hinv Hn Hmax) as (m & st' & -> & Hstep & Hm & Hwhy).
      exists m, st'. split; [done|]. split; [done|]. split; [done|].
      destruct Hwhy as [->|(i & c & Hi & Hp & Hc & Hd & Hlt)]; [by left|].
      right. exists i, c. split; [by apply elem_of_cons; right|done]. }
  destruct (Hrec relPath st Hinv (relPath_is_package _ _ Hrel) Hn)
    as (childDepth & st1 & -> & Hstep1 & Hprog & Hstored).
  assert (Hchild : 0 ≤ childDepth ≤ Z.of_nat (size (visited st1))).
  { destruct (decide (relPath ∈ inProgress st)) as [Hin|Hout].
    - rewrite (Hprog Hin). lia.
    - apply (di_bound _ (ds_inv _ _ Hstep1) relPath). by apply Hstored. }
  pose proof (depth_step_size _ _ Hstep1) as Hsize1.
  pose proof (depth_step_unseen _ _ Hstep1) as Hunseen1.
  set (maxDepth' := if childDepth >? maxDepth then childDepth else maxDepth).
  assert (Hmax' : 0 ≤ maxDepth' ≤ Z.of_nat (size (visited st1))).
  { unfold maxDepth'. destruct (Z.gtb_spec childDepth maxDepth); lia. }
  destruct (IH maxDepth' st1 (ds_inv _ _ Hstep1) ltac:(lia) Hmax')
    as (m & st' & -> & Hstep & Hm & Hwhy).
  exists m, st'. split; [done|].
  split; [by eapply depth_step_trans|]. split; [done|].
  destruct Hwhy as [->|(i & c & Hi & Hp & Hc & Hd & Hlt)].
  - unfold maxDepth'. destruct (Z.gtb_spec childDepth maxDepth) as [Hgt|Hle]; [|by left].
    right. exists importPath, relPath. split; [by apply elem_of_cons; left|].
    split; [done|]. split; [done|]. split; [|lia].
    eapply lookup_weaken; [|exact (ds_depths _ _ Hstep)].
    apply Hstored. intros Hin. rewrite (Hprog Hin) in Hgt. lia.
  - right. exists i, c. split; [by apply elem_of_cons; right|].
    split; [done|]. split; [done|]. split; [done|].
    unfold maxDepth' in Hlt. destruct (Z.gtb_spec childDepth maxDepth); lia.
Qed.

Lemma dfs_spec fuel :
  call_spec (dfs pkgDeps projectPrefix fullToRelPath fuel) fuel.
Proof.
  induction fuel as [|fuel IH]; intros p st Hinv Hp Hn; [lia|].
  cbn [dfs].
  destruct (decide (p ∈ visited st)) as [Hvis|Hnvis].
  { assert (is_Some (depths st !! p)) as [d Hd].
    { apply elem_of_dom. by rewrite (di_dom _ Hinv). }
    exists d, st. rewrite Hd. split; [done|]. split; [by apply depth_step_refl|].
    split; [|done]. intros Hin. exfalso.
    pose proof (di_disjoint _ Hinv) as Hdisj. clear -Hdisj Hvis Hin. set_solver. }
  destruct (decide (p ∈ inProgress st)) as [Hprog|Hnprog].
  { exists 0, st. split; [done|]. split; [by apply depth_step_refl|]. done. }
  set (st1 := {| depths := depths st; visited := visited st;
                 inProgress := {[p]} ∪ inProgress st |}).
  assert (Hinv1 : depth_inv st1).
  { destruct Hinv as [Hv Hi Hdisj Hdom Hb Hok]. split; simpl; try done.
    - clear -Hi Hp. set_solver.
    - clear -Hdisj Hnvis. set_solver. }
  assert (Hn1 : (size (unseen st1) < fuel)%nat).
  { assert (unseen st1 ⊂ unseen st); [|apply subset_size in H0; lia].
    unfold unseen, st1. simpl. clear -Hp Hnvis Hnprog. set_solver. }
  apply elem_of_dom in Hp as Hdep. destruct Hdep as [dep Hdep]. rewrite Hdep.
  destruct (importsLoop_spec _ _ IH (Imports dep) 0 st1 Hinv1 Hn1 ltac:(lia))
    as (m & st2 & -> & Hstep & Hm & Hwhy).
  destruct Hstep as [Hinv2 Hprog2 Hvis2 Hdepths2]. simpl in Hprog2, Hvis2, Hdepths2.
  set (depth := if (m >? 0) || bool_decide (0 < length (Imports dep))%nat
                then m + 1 else 0).
  assert (Hpvis2 : p ∉ visited st2).
  { pose proof (di_disjoint _ Hinv2) as Hdisj. rewrite Hprog2 in Hdisj.
    clear -Hdisj. set_solver. }
  assert (Hnone : depths st2 !! p = None).
  { apply not_elem_of_dom. by rewrite (di_dom _ Hinv2). }
  assert (Hsub : depths st2 ⊆ <[p := depth]> (depths st2)) by by apply insert_subseteq.
  assert (Hdepth : 0 ≤ depth ≤ m + 1).
  { unfold depth. destruct ((m >? 0) || _); lia. }
  assert (Hsize : size ({[p]} ∪ visited st2) = S (size (visited st2))).
  { rewrite size_union by (clear -Hpvis2; set_solver). by rewrite size_singleton. }
  exists depth, {| depths := <[p := depth]> (depths st2);
                   visited := {[p]} ∪ visited st2;
                   inProgress := inProgress st2 ∖ {[p]} |}.
  split; [done|]. split; [|split; [done|]].
  2:{ intros _. simpl. by rewrite lookup_insert_eq. }
  split; simpl.
  - destruct Hinv2 as [Hv Hi Hdisj Hdom Hb Hok]. split; simpl.
    + clear -Hv Hp. set_solver.
    + clear -Hi. set_solver.
    + clear -Hdisj. set_solver.
    + by rewrite dom_insert_L, Hdom.
    + intros q d Hq. rewrite Hsize.
      destruct (decide (p = q)) as [<-|Hne].
      * rewrite lookup_insert_eq in Hq. injection Hq as <-. lia.
      * rewrite lookup_insert_ne in Hq by done. specialize (Hb q d Hq). lia.
    + intros q d Hq.
      destruct (decide (p = q)) as [<-|Hne].
      * rewrite lookup_insert_eq in Hq. injection Hq as <-.
        exists dep. split; [done|].
        destruct (Imports dep) as [|i0 imports] eqn:Himports.
        -- left. split; [done|].
           destruct Hwhy as [->|(i & c & Hi' & _)]; [done|].
           by apply elem_of_nil in Hi'.
        -- right. split; [done|].
           assert (depth = m + 1) as ->.
           { unfold depth. rewrite bool_decide_eq_true_2 by (simpl; lia).
             by rewrite orb_true_r. }
           destruct Hwhy as [->|(i & c & Hi' & Hpre & Hc & Hd & Hlt)]; [by left|].
           right. exists i, c, m. repeat split; try done; try lia.
           by eapply lookup_weaken.
      * rewrite lookup_insert_ne in Hq by done.
        eapply depth_ok_mono; [exact Hsub|]. by apply Hok.
  - rewrite Hprog2. clear -Hnprog. set_solver.
  - clear -Hvis2. set_solver.
  - by etrans.
Qed.

Lemma depthLoop_spec fuel (pkgPaths : list string) (st : depthState) :
  (size (dom pkgDeps) < fuel)%nat →
  (∀ p, p ∈ pkgPaths → p ∈ dom pkgDeps) →
  depth_inv st →
  ∃ st', depthLoop pkgDeps projectPrefix fullToRelPath fuel pkgPaths st = Some st'
    ∧ depth_step st st'
    ∧ ∀ p, p ∈ pkgPaths → inProgress st = ∅ → p ∈ visited st'.
Proof.
  intros Hfuel. revert st.
  induction pkgPaths as [|p rest IH]; intros st Hkeys Hinv.
  { exists st. split; [done|]. split; [by apply depth_step_refl|].
    intros p Hp. by apply elem_of_nil in Hp. }
  cbn [depthLoop].
  assert (Hrest : ∀ q, q ∈ rest → q ∈ dom pkgDeps).
  { intros q Hq. apply Hkeys. by apply elem_of_cons; right. }
  destruct (decide (p ∈ visited st)) as [Hvis|Hnvis].
  { destruct (IH st Hrest Hinv) as (st' & -> & Hstep & Hall).
    exists st'. split; [done|]. split; [done|].
    intros q Hq Hempty. apply elem_of_cons in Hq as [->|Hq]; [|by apply Hall].
    by apply (ds_visited _ _ Hstep). }
  assert (Hn : (size (unseen st) < fuel)%nat).
  { assert (size (unseen st) ≤ size (dom pkgDeps))%nat; [|lia].
    apply subseteq_size. unfold unseen. set_solver. }
  destruct (dfs_spec fuel p st Hinv (Hkeys p ltac:(by apply elem_of_cons; left)) Hn)
    as (d & st1 & -> & Hstep1 & _ & Hstored).
  destruct (IH st1 Hrest (ds_inv _ _ Hstep1)) as (st' & -> & Hstep & Hall).
  exists st'. split; [done|]. split; [by eapply depth_step_trans|].
  intros q Hq Hempty.
  assert (Hempty1 : inProgress st1 = ∅) by by rewrite (ds_inProgress _ _ Hstep1).
  apply elem_of_cons in Hq as [->|Hq]; [|by apply Hall].
  apply (ds_visited _ _ Hstep).
  rewrite <- (di_dom _ (ds_inv _ _ Hstep1)). apply elem_of_dom.
  rewrite Hstored; [done|]. rewrite Hempty. set_solver.
Qed.
End DepthWalk.

(** ** The table of full import paths *)

Lemma append_cons_ne (s : string) (c : Ascii.ascii) (t : string) :
  s ≠ s +:+ String c t.
Proof.
  induction s as [|a s IH]; [done|].
  change (String a s +:+ String c t) with (String a (s +:+ String c t)).
  intros Heq. injection Heq as Heq. by apply IH.
Qed.

Lemma fullPathOf_inj (projectPrefix pkgPath1 pkgPath2 : string) :
  fullPathOf projectPrefix pkgPath1 = fullPathOf projectPrefix pkgPath2 →
  pkgPath1 = pkgPath2.
Proof.
  unfold fullPathOf.
  change (λ s, projectPrefix +:+ "/" +:+ s) with (λ s, projectPrefix +:+ String "/" s).
  destruct (decide (pkgPath1 = "")) as [->|H1], (decide (pkgPath2 = "")) as [->|H2];
    try done.
  - intros Heq. by apply append_cons_ne in Heq.
  - intros Heq. symmetry in Heq. by apply append_cons_ne in Heq.
  - intros Heq. apply (inj (String.app projectPrefix)) in Heq.
    by injection Heq.
Qed.

Lemma fullToRelPath_fold {V} (projectPrefix : string) (l : list (string * V))
    (acc : gmap string string) (k r : string) :
  fold_left (λ m '(pkgPath, _), <[fullPathOf projectPrefix pkgPath := pkgPath]> m) l acc
    !! k = Some r →
  (r ∈ l.*1 ∧ k = fullPathOf projectPrefix r) ∨ acc !! k = Some r.
Proof.
  revert acc. induction l as [|[p v] l IH]; intros acc Hk; simpl in *; [by right|].
  apply IH in Hk as [[Hr Hk]|Hk].
  - left. split; [by apply elem_of_cons; right|done].
  - destruct (decide (fullPathOf projectPrefix p = k)) as [<-|Hne].
    + rewrite lookup_insert_eq in Hk. injection Hk as <-.
      left. split; [by apply elem_of_cons; left|done].
    + rewrite lookup_insert_ne in Hk by done. by right.
Qed.

Section DepthFacts.
Context `{MapIteration}.

Lemma range_map_keys {V} (m : gmap string V) (p : string) :
  p ∈ (range_map m).*1 ↔ p ∈ dom m.
Proof.
  unfold range_map. rewrite go_range_perm.
  rewrite elem_of_dom, list_elem_of_fmap. split.
  - intros [[k v] [-> Hkv]]. apply elem_of_map_to_list in Hkv. by exists v.
  - intros [v Hv]. exists (p, v). split; [done|]. by apply elem_of_map_to_list.
Qed.

Lemma buildFullToRelPath_lookup (pkgDeps : gmap string PackageDependency)
    (projectPrefix k r : string) :
  buildFullToRelPath pkgDeps projectPrefix !! k = Some r →
  r ∈ dom pkgDeps ∧ k = fullPathOf projectPrefix r.
Proof.
  intros Hk. apply fullToRelPath_fold in Hk as [[Hr Hk]|Hk]; [|done].
  split; [|done]. by apply range_map_keys.
Qed.

(** The walk as a whole. *)
Lemma CalculateDependencyDepth_spec (pkgDeps : gmap string PackageDependency)
    (projectPrefix : string) :
  ∃ st, CalculateDependencyDepth pkgDeps projectPrefix = Some (depths st)
    ∧ depth_inv pkgDeps projectPrefix (buildFullToRelPath pkgDeps projectPrefix) st
    ∧ visited st = dom pkgDeps.
Proof.
  unfold CalculateDependencyDepth.
  set (f2r := buildFullToRelPath pkgDeps projectPrefix).
  set (st0 := {| depths := ∅; visited := ∅; inProgress := ∅ |}).
  assert (Hrel : ∀ i r, f2r !! i = Some r → r ∈ dom pkgDeps).
  { intros i r Hir. by apply buildFullToRelPath_lookup in Hir as [? _]. }
  assert (Hinv0 : depth_inv pkgDeps projectPrefix f2r st0).
  { split; simpl; done. }
  destruct (depthLoop_spec pkgDeps projectPrefix f2r Hrel (S (size pkgDeps))
              (range_map pkgDeps).*1 st0) as (st & -> & Hstep & Hall); try done.
  { rewrite size_dom. lia. }
  { intros p Hp. by apply range_map_keys. }
  exists st. split; [done|]. split; [exact (ds_inv _ _ _ _ _ Hstep)|].
  apply set_eq. intros p. split.
  - intros Hp. by apply (di_visited _ _ _ _ (ds_inv _ _ _ _ _ Hstep)).
  - intros Hp. apply Hall; [|done]. by apply range_map_keys.
Qed.

(** [p] imports [c]: the full path of package [c] is among the imports
    of package [p]. *)
Definition importsPackage (pkgDeps : gmap string PackageDependency)
    (projectPrefix p c : string) : Prop :=
  ∃ dep, pkgDeps !! p = Some dep ∧ c ∈ dom pkgDeps
    ∧ fullPathOf projectPrefix c ∈ Imports dep.

(** X16.  [CalculateDependencyDepth] returns on every dependency map,
    import cycles included, for every order in which the map is visited:
    no chain of nested [dfs] calls is longer than the number of packages
    plus one.  The result has an entry for exactly the packages of the
    map, and every depth lies between 0 and the number of packages. *)
Theorem CalculateDependencyDepth_total (pkgDeps : gmap string PackageDependency)
    (projectPrefix : string) :
  ∃ depths, CalculateDependencyDepth pkgDeps projectPrefix = Some depths
    ∧ dom depths = dom pkgDeps
    ∧ ∀ p d, depths !! p = Some d → 0 ≤ d ≤ Z.of_nat (size pkgDeps).
Proof.
  destruct (CalculateDependencyDepth_spec pkgDeps projectPrefix)
    as (st & Heq & Hinv & Hvis).
  exists (depths st). split; [done|].
  split; [by rewrite (di_dom _ _ _ _ Hinv)|].
  intros p d Hd. pose proof (di_bound _ _ _ _ Hinv p d Hd) as Hb.
  rewrite Hvis, size_dom in Hb. done.
Qed.

(** X17.  The depth of a package is 0 exactly when its import list is
    empty.  A package with imports none of which is the full path of a
    package of the map (a package with external imports only, say) has
    depth 1, not 0. *)
Theorem CalculateDependencyDepth_zero_iff (pkgDeps : gmap string PackageDependency)
    (projectPrefix : string) :
  ∃ depths, CalculateDependencyDepth pkgDeps projectPrefix = Some depths
    ∧ ∀ p dep, pkgDeps !! p = Some dep →
        ∃ d, depths !! p = Some d
          ∧ (d = 0 ↔ Imports dep = [])
          ∧ (Imports dep ≠ [] →
             (∀ c, ¬ importsPackage pkgDeps projectPrefix p c) → d = 1).
Proof.
  destruct (CalculateDependencyDepth_spec pkgDeps projectPrefix)
    as (st & Heq & Hinv & Hvis).
  exists (depths st). split; [done|]. intros p dep Hdep.
  assert (is_Some (depths st !! p)) as [d Hd].
  { apply elem_of_dom. rewrite (di_dom _ _ _ _ Hinv), Hvis. by apply elem_of_dom. }
  exists d. split; [done|].
  destruct (di_ok _ _ _ _ Hinv p d Hd) as (dep' & Hdep' & Hcases).
  assert (dep' = dep) as -> by congruence.
  destruct Hcases as [[Hnil ->]|[Hne Hcases]].
  - split; [done|]. intros Hne. by destruct Hne.
  - split.
    + destruct Hcases as [->|(i & c & dc & _ & _ & _ & _ & Hdc & ->)];
        split; intros; try done; lia.
    + intros _ Hnone.
      destruct Hcases as [->|(i & c & dc & Hi & _ & Hc & _)]; [done|].
      apply buildFullToRelPath_lookup in Hc as [Hc ->].
      destruct (Hnone c). by exists dep.
Qed.

(** X18.  A depth [d] above 0 is backed by a chain of imports: there
    are [d] packages, the first the package itself, each importing the
    next, with the depths [d], [d - 1], ..., 1. *)
Theorem CalculateDependencyDepth_chain (pkgDeps : gmap string PackageDependency)
    (projectPrefix : string) :
  ∃ depths, CalculateDependencyDepth pkgDeps projectPrefix = Some depths
    ∧ ∀ p d, depths !! p = Some d → 1 ≤ d →
        ∃ chain : list string,
          length chain = Z.to_nat d ∧ head chain = Some p
          ∧ (∀ (k : nat) q, chain !! k = Some q → depths !! q = Some (d - Z.of_nat k))
          ∧ (∀ (k : nat) q c, chain !! k = Some q → chain !! S k = Some c →
               importsPackage pkgDeps projectPrefix q c).
Proof.
  destruct (CalculateDependencyDepth_spec pkgDeps projectPrefix)
    as (st & Heq & Hinv & Hvis).
  exists (depths st). split; [done|].
  intros p d Hd Hpos.
  remember (Z.to_nat d) as n eqn:Hn. revert p d Hd Hpos Hn.
  induction n as [|n IH]; intros p d Hd Hpos Hn; [lia|].
  destruct (di_ok _ _ _ _ Hinv p d Hd) as (dep & Hdep & Hcases).
  destruct Hcases as [[_ ->]|[Hne [->|(i & c & dc & Hi & _ & Hc & Hdc & Hdc1 & ->)]]];
    [lia| |].
  - exists [p]. split; [done|]. split; [done|]. split.
    + intros [|k] q Hq; simpl in Hq; [|done]. injection Hq as <-.
      by rewrite Z.sub_0_r.
    + intros [|k] q c Hq Hc; simpl in Hc; done.
  - apply buildFullToRelPath_lookup in Hc as [Hc ->].
    destruct (IH c dc Hdc Hdc1 ltac:(lia)) as (chain & Hlen & Hhead & Hdepths & Hlinks).
    exists (p :: chain). split; [simpl; lia|]. split; [done|]. split.
    + intros [|k] q Hq; simpl in Hq.
      * injection Hq as <-. by rewrite Z.sub_0_r.
      * rewrite (Hdepths k q Hq). f_equal. lia.
    + intros [|k] q c' Hq Hc'; simpl in Hq, Hc'.
      * injection Hq as <-. destruct chain as [|c0 chain]; [done|].
        simpl in Hhead, Hc'. injection Hhead as ->. injection Hc' as <-.
        by exists dep.
      * by eapply Hlinks.
Qed.
End DepthFacts.

(** * Dependency depth on import graphs without cycles *)

Lemma fullToRelPath_fold_lookup {V} (projectPrefix : string) (l : list (string * V))
    (acc : gmap string string) (c : string) :
  c ∈ l.*1 ∨ acc !! fullPathOf projectPrefix c = Some c →
  fold_left (λ m '(pkgPath, _), <[fullPathOf projectPrefix pkgPath := pkgPath]> m) l acc
    !! fullPathOf projectPrefix c = Some c.
Proof.
  revert acc. induction l as [|[p v] l IH]; intros acc Hc; simpl in *.
  { destruct Hc as [Hc|Hc]; [by apply elem_of_nil in Hc|done]. }
  apply IH. destruct (decide (p = c)) as [->|Hne].
  - right. by rewrite lookup_insert_eq.
  - destruct Hc as [Hc|Hc].
    + apply elem_of_cons in Hc as [->|Hc]; [done|by left].
    + right. rewrite lookup_insert_ne; [done|].
      intros Heq. by apply fullPathOf_inj in Heq.
Qed.

Lemma HasPrefix_fullPathOf (projectPrefix pkgPath : string) :
  HasPrefix (fullPathOf projectPrefix pkgPath) projectPrefix = true.
Proof.
  unfold fullPathOf. destruct (decide (pkgPath = "")).
  - pose proof (HasPrefix_app projectPrefix "") as Hp.
    assert (projectPrefix +:+ "" = projectPrefix) as Heq; [|by rewrite Heq in Hp].
    clear. induction projectPrefix as [|a s IH]; [done|].
    change (String a s +:+ "") with (String a (s +:+ "")). by rewrite IH.
  - apply HasPrefix_app.
Qed.

Section Acyclic.
Context `{MapIteration}.
Variable pkgDeps : gmap string PackageDependency.
Variable projectPrefix : string.
Variable fullToRelPath : gmap string string.
Hypothesis relPath_is_package :
  ∀ importPath relPath,
    fullToRelPath !! importPath = Some relPath → relPath ∈ dom pkgDeps.
Hypothesis relPath_key :
  ∀ importPath relPath,
    fullToRelPath !! importPath = Some relPath →
    importPath = fullPathOf projectPrefix relPath.
Hypothesis package_has_key :
  ∀ pkgPath, pkgPath ∈ dom pkgDeps →
    fullToRelPath !! fullPathOf projectPrefix pkgPath = Some pkgPath.

(** A rank that falls along every import: there is no import cycle. *)
Variable rank : string → nat.
Hypothesis rank_falls :
  ∀ p c, importsPackage pkgDeps projectPrefix p c → (rank c < rank p)%nat.

(** Every stored depth exceeds the stored depths of the imported
    packages, all of which are stored. *)
Definition ordered (D : gmap string Z) : Prop :=
  ∀ v c dv, D !! v = Some dv → importsPackage pkgDeps projectPrefix v c →
    ∃ dc, D !! c = Some dc ∧ dc + 1 ≤ dv.

Definition call_ordered (rec : string → depthState → option (Z * depthState))
    (n : nat) : Prop :=
  ∀ p st d st',
    depth_inv pkgDeps projectPrefix fullToRelPath st →
    p ∈ dom pkgDeps → (size (unseen pkgDeps st) < n)%nat →
    ordered (depths st) →
    (∀ q, q ∈ inProgress st → (rank p < rank q)%nat) →
    rec p st = Some (d, st') → ordered (depths st').

Lemma importsLoop_ordered rec n :
  call_spec pkgDeps projectPrefix fullToRelPath rec n → call_ordered rec n →
  ∀ imports maxDepth st m st',
    depth_inv pkgDeps projectPrefix fullToRelPath st →
    (size (unseen pkgDeps st) < n)%nat →
    ordered (depths st) →
    (∀ i c q, i ∈ imports → fullToRelPath !! i = Some c → q ∈ inProgress st →
       (rank c < rank q)%nat) →
    importsLoop projectPrefix fullToRelPath rec imports maxDepth st = Some (m, st') →
    ordered (depths st') ∧ maxDepth ≤ m
    ∧ depth_step pkgDeps projectPrefix fullToRelPath st st'
    ∧ ∀ i c, i ∈ imports → fullToRelPath !! i = Some c →
        ∃ dc, depths st' !! c = Some dc ∧ dc ≤ m.
Proof.
  intros Hrec Hrec2 imports.
  induction imports as [|i rest IH]; intros maxDepth st m st' Hinv Hn Hord Hrank Hloop.
  { simpl in Hloop. injection Hloop as <- <-. split; [done|]. split; [lia|].
    split; [by apply depth_step_refl|]. intros i c Hi. by apply elem_of_nil in Hi. }
  assert (Hrank' : ∀ st1, inProgress st1 = inProgress st →
            ∀ i' c q, i' ∈ rest → fullToRelPath !! i' = Some c → q ∈ inProgress st1 →
              (rank c < rank q)%nat).
  { intros st1 Heq i' c q Hi' Hc Hq. rewrite Heq in Hq.
    apply (Hrank i' c q); [by apply elem_of_cons; right|done|done]. }
  cbn [importsLoop] in Hloop.
  destruct (fullToRelPath !! i) as [c|] eqn:Hc.
  2:{ assert (Hloop' : importsLoop projectPrefix fullToRelPath rec rest maxDepth st
                       = Some (m, st')) by (by destruct (HasPrefix i projectPrefix)).
      destruct (IH _ _ _ _ Hinv Hn Hord (Hrank' st eq_refl) Hloop')
        as (Hord' & Hle & Hstep & Hall).
      split; [done|]. split; [done|]. split; [done|].
      intros i' c' Hi' Hc'. apply elem_of_cons in Hi' as [->|Hi']; [congruence|].
      by apply (Hall i'). }
  assert (Hpre : HasPrefix i projectPrefix = true).
  { rewrite (relPath_key _ _ Hc). apply HasPrefix_fullPathOf. }
  rewrite Hpre in Hloop.
  assert (Hcprog : ∀ q, q ∈ inProgress st → (rank c < rank q)%nat).
  { intros q Hq. apply (Hrank i c q); [by apply elem_of_cons; left|done|done]. }
  assert (Hcout : c ∉ inProgress st).
  { intros Hin. specialize (Hcprog c Hin). lia. }
  destruct (Hrec c st Hinv (relPath_is_package _ _ Hc) Hn)
    as (cd & st1 & Hcall & Hstep1 & _ & Hstored).
  specialize (Hstored Hcout). rewrite Hcall in Hloop.
  pose proof (Hrec2 c st cd st1 Hinv (relPath_is_package _ _ Hc) Hn Hord Hcprog Hcall)
    as Hord1.
  pose proof (depth_step_unseen _ _ _ _ _ Hstep1) as Hunseen1.
  destruct (IH _ _ _ _ (ds_inv _ _ _ _ _ Hstep1) ltac:(lia) Hord1
              (Hrank' st1 (ds_inProgress _ _ _ _ _ Hstep1)) Hloop)
    as (Hord' & Hle & Hstep & Hall).
  split; [done|]. split; [destruct (Z.gtb_spec cd maxDepth); lia|].
  split; [by eapply depth_step_trans|].
  intros i' c' Hi' Hc'. apply elem_of_cons in Hi' as [->|Hi']; [|by apply (Hall i')].
  assert (c' = c) as -> by congruence.
  exists cd. split; [|destruct (Z.gtb_spec cd maxDepth); lia].
  eapply lookup_weaken; [exact Hstored|]. exact (ds_depths _ _ _ _ _ Hstep).
Qed.

Lemma dfs_ordered fuel :
  call_ordered (dfs pkgDeps projectPrefix fullToRelPath fuel) fuel.
Proof.
  induction fuel as [|fuel IH]; intros p st d st' Hinv Hp Hn Hord Hrank Hcall; [lia|].
  cbn [dfs] in Hcall.
  destruct (decide (p ∈ visited st)) as [Hvis|Hnvis].
  { by injection Hcall as _ <-. }
  destruct (decide (p ∈ inProgress st)) as [Hprog|Hnprog].
  { by injection Hcall as _ <-. }
  set (st1 := {| depths := depths st; visited := visited st;
                 inProgress := {[p]} ∪ inProgress st |}) in Hcall.
  assert (Hinv1 : depth_inv pkgDeps projectPrefix fullToRelPath st1).
  { destruct Hinv as [Hv Hi Hdisj Hdom Hb Hok]. split; simpl; try done.
    - clear -Hi Hp. set_solver.
    - clear -Hdisj Hnvis. set_solver. }
  assert (Hn1 : (size (unseen pkgDeps st1) < fuel)%nat).
  { assert (unseen pkgDeps st1 ⊂ unseen pkgDeps st) as Hsub;
      [|apply subset_size in Hsub; lia].
    unfold unseen, st1. simpl. clear -Hp Hnvis Hnprog. set_solver. }
  apply elem_of_dom in Hp as Hdep. destruct Hdep as [dep Hdep].
  rewrite Hdep in Hcall.
  destruct (importsLoop projectPrefix fullToRelPath
              (dfs pkgDeps projectPrefix fullToRelPath fuel) (Imports dep) 0 st1)
    as [[m st2]|] eqn:Hloop; [|done].
  injection Hcall as _ <-. cbn [depths].
  assert (Hrank1 : ∀ i c q, i ∈ Imports dep → fullToRelPath !! i = Some c →
            q ∈ inProgress st1 → (rank c < rank q)%nat).
  { intros i c q Hi Hc Hq.
    assert (rank c < rank p)%nat as Hcp.
    { apply rank_falls. exists dep. split; [done|].
      split; [by eapply relPath_is_package|]. by rewrite <- (relPath_key _ _ Hc). }
    simpl in Hq. apply elem_of_union in Hq as [Hq|Hq].
    - apply elem_of_singleton in Hq as ->. done.
    - specialize (Hrank q Hq). lia. }
  destruct (importsLoop_ordered _ _
              (dfs_spec pkgDeps projectPrefix fullToRelPath relPath_is_package fuel)
              IH _ _ _ _ _ Hinv1 Hn1 Hord Hrank1 Hloop)
    as (Hord2 & Hm & Hstep & Hall).
  pose proof (ds_inv _ _ _ _ _ Hstep) as Hinv2.
  assert (Hnone : depths st2 !! p = None).
  { apply not_elem_of_dom. rewrite (di_dom _ _ _ _ Hinv2).
    pose proof (di_disjoint _ _ _ _ Hinv2) as Hdisj.
    rewrite (ds_inProgress _ _ _ _ _ Hstep) in Hdisj. simpl in Hdisj.
    clear -Hdisj. set_solver. }
  intros v c dv Hv Himp.
  destruct (decide (p = v)) as [<-|Hne].
  - rewrite lookup_insert_eq in Hv. injection Hv as <-.
    destruct Himp as (dep' & Hdep' & Hc & Hi).
    assert (dep' = dep) as -> by congruence.
    destruct (Hall _ c Hi (package_has_key c Hc)) as (dc & Hdc & Hle).
    exists dc. split.
    + rewrite lookup_insert_ne; [done|]. intros <-. congruence.
    + assert (bool_decide (0 < length (Imports dep))%nat = true) as ->.
      { apply bool_decide_eq_true_2. destruct (Imports dep); [|simpl; lia].
        by apply elem_of_nil in Hi. }
      rewrite orb_true_r. lia.
  - rewrite lookup_insert_ne in Hv by done.
    destruct (Hord2 v c dv Hv Himp) as (dc & Hdc & Hle).
    exists dc. split; [|done].
    rewrite lookup_insert_ne; [done|]. intros <-. congruence.
Qed.

Lemma depthLoop_ordered fuel (pkgPaths : list string) (st st' : depthState) :
  (size (dom pkgDeps) < fuel)%nat →
  (∀ p, p ∈ pkgPaths → p ∈ dom pkgDeps) →
  depth_inv pkgDeps projectPrefix fullToRelPath st →
  inProgress st = ∅ → ordered (depths st) →
  depthLoop pkgDeps projectPrefix fullToRelPath fuel pkgPaths st = Some st' →
  ordered (depths st').
Proof.
  intros Hfuel. revert st.
  induction pkgPaths as [|p rest IH]; intros st Hkeys Hinv Hempty Hord Hloop.
  { simpl in Hloop. by injection Hloop as <-. }
  cbn [depthLoop] in Hloop.
  assert (Hrest : ∀ q, q ∈ rest → q ∈ dom pkgDeps).
  { intros q Hq. apply Hkeys. by apply elem_of_cons; right. }
  destruct (decide (p ∈ visited st)) as [Hvis|Hnvis]; [by eapply IH|].
  assert (Hp : p ∈ dom pkgDeps) by (apply Hkeys; by apply elem_of_cons; left).
  assert (Hn : (size (unseen pkgDeps st) < fuel)%nat).
  { assert (size (unseen pkgDeps st) ≤ size (dom pkgDeps))%nat; [|lia].
    apply subseteq_size. unfold unseen. set_solver. }
  destruct (dfs_spec pkgDeps projectPrefix fullToRelPath relPath_is_package
              fuel p st Hinv Hp Hn) as (d & st1 & Hcall & Hstep1 & _).
  rewrite Hcall in Hloop.
  apply (IH st1); try done.
  - exact (ds_inv _ _ _ _ _ Hstep1).
  - by rewrite (ds_inProgress _ _ _ _ _ Hstep1).
  - apply (dfs_ordered fuel p st d st1); try done.
    intros q Hq. rewrite Hempty in Hq. by apply elem_of_empty in Hq.
Qed.
End Acyclic.

Section AcyclicFacts.
Context `{MapIteration}.

Lemma buildFullToRelPath_key (pkgDeps : gmap string PackageDependency)
    (projectPrefix pkgPath : string) :
  pkgPath ∈ dom pkgDeps →
  buildFullToRelPath pkgDeps projectPrefix !! fullPathOf projectPrefix pkgPath
  = Some pkgPath.
Proof.
  intros Hp. apply fullToRelPath_fold_lookup. left. by apply range_map_keys.
Qed.

Lemma CalculateDependencyDepth_ordered (pkgDeps : gmap string PackageDependency)
    (projectPrefix : string) (rank : string → nat) :
  (∀ p c, importsPackage pkgDeps projectPrefix p c → (rank c < rank p)%nat) →
  ∃ st, CalculateDependencyDepth pkgDeps projectPrefix = Some (depths st)
    ∧ depth_inv pkgDeps projectPrefix (buildFullToRelPath pkgDeps projectPrefix) st
    ∧ visited st = dom pkgDeps
    ∧ ordered pkgDeps projectPrefix (depths st).
Proof.
  intros Hrank. unfold CalculateDependencyDepth.
  set (f2r := buildFullToRelPath pkgDeps projectPrefix).
  set (st0 := {| depths := ∅; visited := ∅; inProgress := ∅ |}).
  assert (Hrel : ∀ i r, f2r !! i = Some r → r ∈ dom pkgDeps).
  { intros i r Hir. by apply buildFullToRelPath_lookup in Hir as [? _]. }
  assert (Hkey : ∀ i r, f2r !! i = Some r → i = fullPathOf projectPrefix r).
  { intros i r Hir. by apply buildFullToRelPath_lookup in Hir as [_ ?]. }
  assert (Hinv0 : depth_inv pkgDeps projectPrefix f2r st0) by (split; simpl; done).
  assert (Hfuel : (size (dom pkgDeps) < S (size pkgDeps))%nat).
  { rewrite size_dom. lia. }
  assert (Hkeys : ∀ p, p ∈ (range_map pkgDeps).*1 → p ∈ dom pkgDeps).
  { intros p Hp. by apply range_map_keys. }
  destruct (depthLoop_spec pkgDeps projectPrefix f2r Hrel (S (size pkgDeps))
              (range_map pkgDeps).*1 st0 Hfuel Hkeys Hinv0) as (st & Hloop & Hstep & Hall).
  rewrite Hloop. exists st. split; [done|].
  split; [exact (ds_inv _ _ _ _ _ Hstep)|]. split.
  - apply set_eq. intros p. split.
    + intros Hp. by apply (di_visited _ _ _ _ (ds_inv _ _ _ _ _ Hstep)).
    + intros Hp. apply Hall; [|done]. by apply range_map_keys.
  - apply (depthLoop_ordered pkgDeps projectPrefix f2r Hrel Hkey
             (buildFullToRelPath_key pkgDeps projectPrefix) rank Hrank
             (S (size pkgDeps)) (range_map pkgDeps).*1 st0 st); done.
Qed.

(** X19.  When no package imports itself through a chain of imports,
    the depth of a package with imports is one more than the largest
    depth among the packages it imports, and 1 if it imports no package
    of the map. *)
Theorem CalculateDependencyDepth_acyclic (pkgDeps : gmap string PackageDependency)
    (projectPrefix : string) (rank : string → nat) :
  (∀ p c, importsPackage pkgDeps projectPrefix p c → (rank c < rank p)%nat) →
  ∃ depths, CalculateDependencyDepth pkgDeps projectPrefix = Some depths
    ∧ ∀ p dep, pkgDeps !! p = Some dep → Imports dep ≠ [] →
        ∃ d, depths !! p = Some d ∧ 1 ≤ d
          ∧ (∀ c, importsPackage pkgDeps projectPrefix p c →
               ∃ dc, depths !! c = Some dc ∧ dc + 1 ≤ d)
          ∧ (d = 1
             ∨ ∃ c, importsPackage pkgDeps projectPrefix p c
                 ∧ depths !! c = Some (d - 1)).
Proof.
  intros Hrank.
  destruct (CalculateDependencyDepth_ordered pkgDeps projectPrefix rank Hrank)
    as (st & Heq & Hinv & Hvis & Hord).
  exists (depths st). split; [done|]. intros p dep Hdep Hne.
  assert (is_Some (depths st !! p)) as [d Hd].
  { apply elem_of_dom. rewrite (di_dom _ _ _ _ Hinv), Hvis. by apply elem_of_dom. }
  exists d. split; [done|].
  destruct (di_ok _ _ _ _ Hinv p d Hd) as (dep' & Hdep' & Hcases).
  assert (dep' = dep) as -> by congruence.
  destruct Hcases as [[Hnil _]|[_ Hcases]]; [done|].
  split; [|split].
  - destruct Hcases as [->|(i & c & dc & _ & _ & _ & _ & Hdc & ->)]; lia.
  - intros c Hc. by apply (Hord p c d).
  - destruct Hcases as [->|(i & c & dc & Hi & _ & Hc & Hdc & _ & ->)]; [by left|].
    right. exists c. apply buildFullToRelPath_lookup in Hc as [Hc ->].
    split; [by exists dep|]. rewrite Hdc. f_equal. lia.
Qed.
End AcyclicFacts.

(** Package [a] imports package [b] of the project, [b] imports [fmt]. *)
Definition depthExample : gmap string PackageDependency :=
  {[ "a" := {| DepPkgPath := "a"; Imports := ["proj/b"]; ImportedBy := [] |};
     "b" := {| DepPkgPath := "b"; Imports := ["fmt"]; ImportedBy := ["proj/a"] |} ]}.

(** In the example only [a] imports a package of the map. *)
Definition depthExampleRank (p : string) : nat :=
  if decide (p = "a") then 1%nat else 0%nat.

Lemma depthExample_rank p c :
  importsPackage depthExample "proj" p c →
  (depthExampleRank c < depthExampleRank p)%nat.
Proof.
  intros (dep & Hdep & Hc & Hi). unfold depthExample in Hdep, Hc.
  rewrite dom_insert_L, dom_singleton_L in Hc.
  apply elem_of_union in Hc as [Hc|Hc]; apply elem_of_singleton in Hc as ->;
    apply lookup_insert_Some in Hdep as [[<- <-]|[Hne Hdep]];
    try (apply lookup_singleton_Some in Hdep as [<- <-]);
    simpl in Hi; apply list_elem_of_singleton in Hi; try discriminate Hi.
  unfold depthExampleRank. simpl. lia.
Qed.

Lemma CalculateDependencyDepth_acyclic_witness :
  ∃ depths,
    CalculateDependencyDepth (H := canonical_iteration) depthExample "proj" = Some depths
    ∧ ∀ p dep, depthExample !! p = Some dep → Imports dep ≠ [] →
        ∃ d, depths !! p = Some d ∧ 1 ≤ d
          ∧ (∀ c, importsPackage depthExample "proj" p c →
               ∃ dc, depths !! c = Some dc ∧ dc + 1 ≤ d)
          ∧ (d = 1
             ∨ ∃ c, importsPackage depthExample "proj" p c
                 ∧ depths !! c = Some (d - 1)).
Proof.
  apply (CalculateDependencyDepth_acyclic (H := canonical_iteration) depthExample "proj"
           depthExampleRank).
  exact depthExample_rank.
Defined.

Section OrderIndependence.
Variable pkgDeps : gmap string PackageDependency.
Variable projectPrefix : string.

(** The equations that fix the depths on a graph without cycles. *)
Definition depth_recurrence (D : gmap string Z) : Prop :=
  dom D = dom pkgDeps
  ∧ ∀ p dep d, pkgDeps !! p = Some dep → D !! p = Some d →
      (Imports dep = [] ∧ d = 0)
      ∨ (Imports dep ≠ [] ∧ 1 ≤ d
         ∧ (∀ c, importsPackage pkgDeps projectPrefix p c →
              ∃ dc, D !! c = Some dc ∧ dc + 1 ≤ d)
         ∧ (d = 1
            ∨ ∃ c, importsPackage pkgDeps projectPrefix p c
                ∧ D !! c = Some (d - 1))).

Lemma CalculateDependencyDepth_recurrence `{MapIteration} (rank : string → nat) :
  (∀ p c, importsPackage pkgDeps projectPrefix p c → (rank c < rank p)%nat) →
  ∃ D, CalculateDependencyDepth pkgDeps projectPrefix = Some D ∧ depth_recurrence D.
Proof.
  intros Hrank.
  destruct (CalculateDependencyDepth_ordered pkgDeps projectPrefix rank Hrank)
    as (st & Heq & Hinv & Hvis & Hord).
  exists (depths st). split; [done|].
  split; [by rewrite (di_dom _ _ _ _ Hinv)|].
  intros p dep d Hdep Hd.
  destruct (di_ok _ _ _ _ Hinv p d Hd) as (dep' & Hdep' & Hcases).
  assert (dep' = dep) as -> by congruence.
  destruct Hcases as [Hnil|[Hne Hcases]]; [by left|].
  right. split; [done|]. split; [|split].
  - destruct Hcases as [->|(i & c & dc & _ & _ & _ & _ & Hdc & ->)]; lia.
  - intros c Hc. by apply (Hord p c d).
  - destruct Hcases as [->|(i & c & dc & Hi & _ & Hc & Hdc & _ & ->)]; [by left|].
    right. exists c. apply buildFullToRelPath_lookup in Hc as [Hc ->].
    split; [by exists dep|]. rewrite Hdc. f_equal. lia.
Qed.

Lemma depth_recurrence_le (rank : string → nat) (D1 D2 : gmap string Z) :
  depth_recurrence D1 → depth_recurrence D2 →
  ∀ p dep d1 d2,
    (∀ c, importsPackage pkgDeps projectPrefix p c → D1 !! c = D2 !! c) →
    pkgDeps !! p = Some dep → D1 !! p = Some d1 → D2 !! p = Some d2 → d1 ≤ d2.
Proof.
  intros [_ Hrec1] [_ Hrec2] p dep d1 d2 Hsame Hdep Hd1 Hd2.
  destruct (Hrec1 p dep d1 Hdep Hd1) as [[Hnil ->]|(Hne & Hpos1 & _ & Hex1)];
    destruct (Hrec2 p dep d2 Hdep Hd2) as [[Hnil' ->]|(Hne' & Hpos2 & Hlow2 & _)];
    try done; try lia.
  destruct Hex1 as [->|(c & Hc & Hdc)]; [lia|].
  destruct (Hlow2 c Hc) as (dc & Hdc2 & Hle).
  rewrite (Hsame c Hc), Hdc2 in Hdc. injection Hdc as ->. lia.
Qed.

Lemma depth_recurrence_unique (rank : string → nat) (D1 D2 : gmap string Z) :
  (∀ p c, importsPackage pkgDeps projectPrefix p c → (rank c < rank p)%nat) →
  depth_recurrence D1 → depth_recurrence D2 → D1 = D2.
Proof.
  intros Hrank Hrec1 Hrec2. apply map_eq. intros p.
  remember (S (rank p)) as n eqn:Hn.
  assert (Hlt : (rank p < n)%nat) by lia. clear Hn. revert p Hlt.
  induction n as [|n IH]; intros p Hlt; [lia|].
  destruct (pkgDeps !! p) as [dep|] eqn:Hdep.
  2:{ apply not_elem_of_dom in Hdep.
      assert (D1 !! p = None) as ->.
      { apply not_elem_of_dom. by rewrite (proj1 Hrec1). }
      symmetry. apply not_elem_of_dom. by rewrite (proj1 Hrec2). }
  assert (Hp : p ∈ dom pkgDeps) by (by apply elem_of_dom).
  assert (is_Some (D1 !! p)) as [d1 Hd1].
  { apply elem_of_dom. by rewrite (proj1 Hrec1). }
  assert (is_Some (D2 !! p)) as [d2 Hd2].
  { apply elem_of_dom. by rewrite (proj1 Hrec2). }
  assert (Hsame : ∀ c, importsPackage pkgDeps projectPrefix p c → D1 !! c = D2 !! c).
  { intros c Hc. apply IH. specialize (Hrank p c Hc). lia. }
  pose proof (depth_recurrence_le rank D1 D2 Hrec1 Hrec2 p dep d1 d2 Hsame Hdep Hd1 Hd2).
  pose proof (depth_recurrence_le rank D2 D1 Hrec2 Hrec1 p dep d2 d1
                (λ c Hc, eq_sym (Hsame c Hc)) Hdep Hd2 Hd1).
  rewrite Hd1, Hd2. f_equal. lia.
Qed.

(** X20.  When no package imports itself through a chain of imports,
    the depths do not depend on the order in which the map is visited. *)
Theorem CalculateDependencyDepth_order_independent (order1 order2 : MapIteration)
    (rank : string → nat) :
  (∀ p c, importsPackage pkgDeps projectPrefix p c → (rank c < rank p)%nat) →
  CalculateDependencyDepth (H := order1) pkgDeps projectPrefix
  = CalculateDependencyDepth (H := order2) pkgDeps projectPrefix.
Proof.
  intros Hrank.
  destruct (CalculateDependencyDepth_recurrence (H := order1) rank Hrank)
    as (D1 & -> & Hrec1).
  destruct (CalculateDependencyDepth_recurrence (H := order2) rank Hrank)
    as (D2 & -> & Hrec2).
  f_equal. by apply (depth_recurrence_unique rank).
Qed.
End OrderIndependence.

(** An order other than the canonical one: the entries backwards. *)
Definition reverse_iteration : MapIteration :=
  {| go_range := λ _ l, reverse l; go_range_perm := λ _ l, reverse_Permutation l |}.

Lemma CalculateDependencyDepth_order_independent_witness :
  CalculateDependencyDepth (H := canonical_iteration) depthExample "proj"
  = CalculateDependencyDepth (H := reverse_iteration) depthExample "proj".
Proof.
  apply (CalculateDependencyDepth_order_independent depthExample "proj"
           canonical_iteration reverse_iteration depthExampleRank).
  exact depthExample_rank.
Defined.

(** * Method clusters *)

Lemma sortStrings_Permutation (l : list string) : sortStrings l ≡ₚ l.
Proof. apply sorting.merge_sort_Permutation. Qed.

Lemma sortStrings_sorted (l : list string) :
  Sorted.StronglySorted String.le (sortStrings l).
Proof. apply sorting.StronglySorted_merge_sort; apply _. Qed.

Lemma sortStrings_length (l : list string) : length (sortStrings l) = length l.
Proof. by rewrite sortStrings_Permutation. Qed.

(** The cluster that the third loop of [findMethodClusters] appends. *)
Definition clusterOf (id : Z) (component : list string) : MethodCluster :=
  {| ID := id; Methods := sortStrings component;
     Size := Z.of_nat (length (sortStrings component));
     CalledBy := []; ResponsibilityHint := EmptyString |}.

(** The test of the third loop, with [n] components in all. *)
Definition kept (n : nat) (component : list string) : bool :=
  (Z.of_nat (length component) >=? MinClusterSize) || bool_decide (n = 1%nat).

(** A cluster as the third loop builds it; the ID is assigned later. *)
Definition plain (cluster : MethodCluster) : Prop :=
  Size cluster = Z.of_nat (length (Methods cluster))
  ∧ CalledBy cluster = [] ∧ ResponsibilityHint cluster = EmptyString.

Lemma filter_loop_spec (n : nat) (components : list (list string))
    (clusters : list MethodCluster) :
  let result :=
    fold_left
      (λ clusters component,
         if kept n component then
           clusters ++ [clusterOf (Z.of_nat (length clusters) + 1) component]
         else clusters)
      components clusters in
  Methods <$> result
  = (Methods <$> clusters) ++ (sortStrings <$> filter (λ c, kept n c) components)
  ∧ (Forall plain clusters → Forall plain result).
Proof.
  revert clusters. induction components as [|c components IH]; intros clusters; simpl.
  { rewrite app_nil_r. done. }
  rewrite filter_cons. destruct (kept n c) eqn:Hk.
  - destruct (IH (clusters ++ [clusterOf (Z.of_nat (length clusters) + 1) c]))
      as [Hm Hp].
    split.
    + rewrite Hm, fmap_app. simpl. by rewrite <- app_assoc.
    + intros Hplain. apply Hp. apply Forall_app. split; [done|].
      constructor; [|constructor]. done.
  - destruct (IH clusters) as [Hm Hp]. done.
Qed.

(** ** The union-find phase *)

(** The non-utility methods among the entries of [privateMethods]. *)
Definition clusterNodes (entries : list (string * methodCallInfo)) : gset string :=
  list_to_set (filter (λ entry, isUtility entry.2 = false) entries).*1.

Lemma addLoop_spec (entries : list (string * methodCallInfo)) (uf : unionFind)
    (totalMethods : Z) :
  singletons (parent uf) →
  let result :=
    fold_left
      (λ '(uf, totalMethods) '(method, info),
         if negb (isUtility info) then (add method uf, totalMethods + 1)
         else (uf, totalMethods))
      entries (uf, totalMethods) in
  singletons (parent result.1)
  ∧ dom (parent result.1) = dom (parent uf) ∪ clusterNodes entries.
Proof.
  revert uf totalMethods.
  induction entries as [|[method info] entries IH]; intros uf totalMethods Hs; simpl.
  { split; [done|]. unfold clusterNodes. simpl. set_solver. }
  unfold clusterNodes. rewrite filter_cons. simpl.
  destruct (decide (isUtility info = false)) as [Hu|Hu].
  - rewrite Hu. simpl.
    destruct (add_singletons method uf Hs) as [Hs1 Hd1].
    destruct (IH (add method uf) (totalMethods + 1) Hs1) as [Hs2 Hd2].
    split; [done|]. rewrite Hd2, Hd1. unfold clusterNodes. simpl.
    clear. set_solver.
  - apply not_false_is_true in Hu. rewrite Hu. simpl. by apply IH.
Qed.

Section ClusterPhase.
Context `{MapIteration}.

Lemma calleeLoop_total (caller : string) (callees : list (string * Z)) (uf : unionFind) :
  uf_inv (parent uf) →
  ∃ uf', uf_for callees (λ '(callee, _), union caller callee) uf = Some (tt, uf')
    ∧ uf_inv (parent uf').
Proof.
  revert uf. induction callees as [|[callee f] callees IH]; intros uf Hinv; simpl.
  { by exists uf. }
  destruct (union_spec caller callee uf Hinv) as (uf1 & Hun & Hinv1 & _).
  destruct (IH uf1 Hinv1) as (uf' & Hrest & Hinv').
  exists uf'. split; [|done]. unfold uf_bind. by rewrite Hun.
Qed.

Lemma callerLoop_total (graph : list (string * gmap string Z)) (uf : unionFind) :
  uf_inv (parent uf) →
  ∃ uf', uf_for graph (λ '(caller, callees),
           uf_for (range_map callees) (λ '(callee, _), union caller callee)) uf
         = Some (tt, uf')
    ∧ uf_inv (parent uf').
Proof.
  revert uf. induction graph as [|[caller callees] graph IH]; intros uf Hinv; simpl.
  { by exists uf. }
  destruct (calleeLoop_total caller (range_map callees) uf Hinv) as (uf1 & Hin & Hinv1).
  destruct (IH uf1 Hinv1) as (uf' & Hrest & Hinv').
  exists uf'. split; [|done]. unfold uf_bind. by rewrite Hin.
Qed.
End ClusterPhase.

(** ** Sorting and numbering *)

Lemma StronglySorted_lookup {A} (R : relation A) (l : list A) (i j : nat) (x y : A) :
  Sorted.StronglySorted R l → (i < j)%nat → l !! i = Some x → l !! j = Some y → R x y.
Proof.
  intros Hsorted. revert i j. induction Hsorted as [|a l Hsorted IH Hall]; intros i j Hij Hx Hy.
  { by rewrite lookup_nil in Hx. }
  destruct j as [|j]; [lia|]. simpl in Hy. destruct i as [|i]; simpl in Hx.
  - injection Hx as <-. apply (proj1 (Forall_forall _ _) Hall).
    by eapply list_elem_of_lookup_2.
  - apply (IH i j); [lia|done|done].
Qed.

Lemma StronglySorted_weaken {A} (R R' : relation A) (l : list A) :
  (∀ a b, R a b → R' a b) →
  Sorted.StronglySorted R l → Sorted.StronglySorted R' l.
Proof.
  intros HR. induction 1 as [|a l _ IH Hall]; constructor; [done|].
  eapply Forall_impl; [exact Hall|]. intros b. apply HR.
Qed.

Lemma bySize_sorted `{SliceSort} (clusters : list MethodCluster) :
  Sorted.StronglySorted (λ a b, Size b ≤ Size a)
    (sort_slice _ (λ a b, Size a >? Size b) clusters).
Proof.
  pose proof (sort_slice_sorted MethodCluster (λ a b, Size a >? Size b) clusters) as Hs.
  eapply StronglySorted_weaken; [|apply Hs].
  - intros a b Hab. simpl in Hab. destruct (Z.gtb_spec (Size b) (Size a)); [done|lia].
  - intros a. destruct (Z.gtb_spec (Size a) (Size a)); [lia|done].
  - intros a b c Hab Hbc.
    destruct (Z.gtb_spec (Size a) (Size b)); [|done].
    destruct (Z.gtb_spec (Size b) (Size c)); [|done].
    destruct (Z.gtb_spec (Size a) (Size c)); [done|lia].
  - intros a b c Hab Hbc.
    destruct (Z.gtb_spec (Size a) (Size b)); [done|].
    destruct (Z.gtb_spec (Size b) (Size c)); [done|].
    destruct (Z.gtb_spec (Size a) (Size c)); [lia|done].
Qed.

(** The last loop: [clusters[i].ID = i + 1]. *)
Definition renumber (clusters : list MethodCluster) : list MethodCluster :=
  imap (λ i cluster, {| ID := Z.of_nat i + 1;
                        Methods := Methods cluster;
                        Size := Size cluster;
                        CalledBy := CalledBy cluster;
                        ResponsibilityHint := ResponsibilityHint cluster |})
    clusters.

Lemma renumber_lookup (clusters : list MethodCluster) (i : nat) (c : MethodCluster) :
  renumber clusters !! i = Some c →
  ∃ c0, clusters !! i = Some c0
    ∧ ID c = Z.of_nat i + 1 ∧ Methods c = Methods c0 ∧ Size c = Size c0
    ∧ CalledBy c = CalledBy c0 ∧ ResponsibilityHint c = ResponsibilityHint c0.
Proof.
  unfold renumber. rewrite list_lookup_imap.
  destruct (clusters !! i) as [c0|]; simpl; [|done].
  intros Hc. injection Hc as <-. by exists c0.
Qed.

Lemma renumber_Methods (clusters : list MethodCluster) :
  Methods <$> renumber clusters = Methods <$> clusters.
Proof.
  apply list_eq. intros i. rewrite !list_lookup_fmap. unfold renumber.
  rewrite list_lookup_imap. by destruct (clusters !! i).
Qed.

(** ** [findMethodClusters] as a whole *)

Section Clusters.
Context `{MapIteration} `{SliceSort}.

(** The union-find after the two loops over [privateMethods] and
    [callGraph]. *)
Definition clusterForest (callGraph : gmap string (gmap string Z))
    (privateMethods : gmap string methodCallInfo) : option (unit * unionFind) :=
  uf_for (range_map callGraph) (λ '(caller, callees),
    uf_for (range_map callees) (λ '(callee, _), union caller callee))
    (fold_left
       (λ '(uf, totalMethods) '(method, info),
          if negb (isUtility info) then (add method uf, totalMethods + 1)
          else (uf, totalMethods))
       (range_map privateMethods) (newUnionFind, 0)).1.

Lemma findMethodClusters_spec (callGraph : gmap string (gmap string Z))
    (privateMethods : gmap string methodCallInfo) :
  ∃ uf comps uf',
    clusterForest callGraph privateMethods = Some (tt, uf)
    ∧ uf_inv (parent uf)
    ∧ getComponents uf = Some (comps, uf')
    ∧ components_of (dom (parent uf)) (same_root (parent uf)) comps
    ∧ findMethodClusters callGraph privateMethods
      = Some (renumber (sort_slice _ (λ a b, Size a >? Size b)
                (fold_left
                   (λ clusters component,
                      if kept (length comps) component then
                        clusters ++ [clusterOf (Z.of_nat (length clusters) + 1) component]
                      else clusters)
                   comps []))).
Proof.
  unfold clusterForest, findMethodClusters.
  destruct (fold_left _ (range_map privateMethods) (newUnionFind, 0))
    as [uf1 totalMethods] eqn:Hfold.
  pose proof (addLoop_spec (range_map privateMethods) newUnionFind 0) as Hadd.
  rewrite Hfold in Hadd. simpl in Hadd.
  destruct Hadd as [Hs1 _]. { intros x v. by rewrite lookup_empty. }
  destruct (singletons_inv _ Hs1) as [Hinv1 _].
  destruct (callerLoop_total (range_map callGraph) uf1 Hinv1) as (uf & Hloop & Hinv).
  destruct (getComponents_spec uf Hinv) as (comps & uf' & Hget & _ & _ & Hcomps).
  exists uf, comps, uf'. simpl. split; [done|]. split; [done|].
  split; [done|]. split; [done|].
  unfold uf_bind. rewrite Hloop, Hget. done.
Qed.
End Clusters.

(** ** What the result looks like *)

Lemma filter_length_one {A} (P : A → Prop) `{∀ x, Decision (P x)} (l : list A) :
  length l = 1%nat → (length (filter P l) ≤ 1)%nat.
Proof. intros Hl. pose proof (length_filter P l). lia. Qed.

Lemma NoDup_concat_filter {A} (P : list A → Prop) `{∀ x, Decision (P x)}
    (ls : list (list A)) :
  NoDup (concat ls) → NoDup (concat (filter P ls)).
Proof.
  induction ls as [|l ls IH]; simpl; [done|].
  intros Hnd. apply NoDup_app in Hnd as (Hl & Hdisj & Hls).
  rewrite filter_cons. destruct (decide (P l)); [|by apply IH].
  simpl. apply NoDup_app. split; [done|]. split; [|by apply IH].
  intros x Hx Hin. apply (Hdisj x Hx).
  apply elem_of_concat in Hin as (c & Hc & Hxc).
  apply elem_of_concat. exists c. split; [|done].
  by apply list_elem_of_filter in Hc as [_ Hc].
Qed.

Lemma concat_sortStrings (ls : list (list string)) :
  concat (sortStrings <$> ls) ≡ₚ concat ls.
Proof.
  induction ls as [|l ls IH]; simpl; [done|].
  by rewrite sortStrings_Permutation, IH.
Qed.

Section ClusterFacts.
Context `{MapIteration} `{SliceSort}.

(** The clusters in terms of the components [getComponents] returned. *)
Lemma findMethodClusters_clusters (callGraph : gmap string (gmap string Z))
    (privateMethods : gmap string methodCallInfo) :
  ∃ uf comps sorted,
    clusterForest callGraph privateMethods = Some (tt, uf)
    ∧ uf_inv (parent uf)
    ∧ components_of (dom (parent uf)) (same_root (parent uf)) comps
    ∧ findMethodClusters callGraph privateMethods = Some (renumber sorted)
    ∧ Methods <$> sorted ≡ₚ sortStrings <$> filter (λ c, kept (length comps) c) comps
    ∧ Forall plain sorted
    ∧ Sorted.StronglySorted (λ a b, Size b ≤ Size a) sorted.
Proof.
  destruct (findMethodClusters_spec callGraph privateMethods)
    as (uf & comps & uf' & Hforest & Hinv & _ & Hcomps & Heq).
  destruct (filter_loop_spec (length comps) comps []) as [Hmethods Hplain].
  simpl in Hmethods.
  eexists uf, comps, _. split; [done|]. split; [done|]. split; [done|].
  split; [exact Heq|]. split; [|split].
  - rewrite <- Hmethods. apply fmap_Permutation, sort_slice_perm.
  - rewrite sort_slice_perm. apply Hplain. constructor.
  - apply bySize_sorted.
Qed.
End ClusterFacts.

Section ClusterTheorems.
Context `{MapIteration} `{SliceSort}.

(** X21.  [findMethodClusters] returns for every call graph and every
    map of methods.  The clusters are numbered 1, 2, ... in the order of
    the result, [Size] is the number of methods of the cluster, the sizes
    never rise along the result, and a cluster has at least two methods
    unless it is the only one. *)
Theorem findMethodClusters_shape (callGraph : gmap string (gmap string Z))
    (privateMethods : gmap string methodCallInfo) :
  ∃ clusters,
    findMethodClusters callGraph privateMethods = Some clusters
    ∧ (∀ (i : nat) c, clusters !! i = Some c →
         ID c = Z.of_nat i + 1
         ∧ Size c = Z.of_nat (length (Methods c))
         ∧ 1 ≤ Size c
         ∧ (2 ≤ Size c ∨ length clusters = 1%nat))
    ∧ (∀ (i j : nat) ci cj, (i < j)%nat →
         clusters !! i = Some ci → clusters !! j = Some cj → Size cj ≤ Size ci).
Proof.
  destruct (findMethodClusters_clusters callGraph privateMethods)
    as (uf & comps & sorted & _ & _ & Hcomps & Heq & Hmethods & Hplain & Hsorted).
  exists (renumber sorted). split; [done|]. split.
  - intros i c Hc.
    apply renumber_lookup in Hc as (c0 & Hc0 & Hid & Hm & Hsz & _).
    split; [done|].
    assert (Hc0plain : plain c0).
    { apply (proj1 (Forall_forall _ _) Hplain). by eapply list_elem_of_lookup_2. }
    destruct Hc0plain as (Hsize0 & _).
    assert (Hin : Methods c0 ∈ sortStrings <$> filter (λ c, kept (length comps) c) comps).
    { rewrite <- Hmethods. apply list_elem_of_fmap. exists c0. split; [done|].
      by eapply list_elem_of_lookup_2. }
    apply list_elem_of_fmap in Hin as (comp & Hcomp & Hkept).
    apply list_elem_of_filter in Hkept as [Hkept Hcompin].
    assert (Hlen : length (Methods c0) = length comp).
    { by rewrite Hcomp, sortStrings_length. }
    assert (Hne : comp ≠ []).
    { destruct Hcomps as (_ & Hne & _). by apply (proj1 (Forall_forall _ _) Hne). }
    rewrite Hsz, Hm, Hsize0, Hlen. split; [done|]. split.
    { destruct comp; [done|simpl; lia]. }
    unfold kept in Hkept. apply Is_true_true, orb_true_iff in Hkept as [Hge|Hone].
    + left. unfold MinClusterSize in Hge. destruct (Z.geb_spec (Z.of_nat (length comp)) 2); [lia|done].
    + right. apply bool_decide_eq_true in Hone.
      assert (length (renumber sorted) = length (Methods <$> sorted)) as ->.
      { unfold renumber. by rewrite length_imap, length_fmap. }
      rewrite Hmethods, length_fmap.
      pose proof (filter_length_one (λ c, kept (length comps) c) comps Hone) as Hle.
      assert (0 < length (filter (λ c, kept (length comps) c) comps))%nat; [|lia].
      destruct (filter (λ c, kept (length comps) c) comps) eqn:Hf; [|simpl; lia].
      assert (comp ∈ filter (λ c, kept (length comps) c) comps) as Hcf.
      { apply list_elem_of_filter. split; [|done]. unfold kept.
        apply Is_true_true, orb_true_iff. right. by apply bool_decide_eq_true. }
      rewrite Hf in Hcf. by apply elem_of_nil in Hcf.
  - intros i j ci cj Hij Hi Hj.
    apply renumber_lookup in Hi as (ci0 & Hi0 & _ & _ & -> & _).
    apply renumber_lookup in Hj as (cj0 & Hj0 & _ & _ & -> & _).
    by apply (StronglySorted_lookup _ sorted i j ci0 cj0 Hsorted).
Qed.

(** X22.  No method is in two clusters, or twice in one, and the
    methods of a cluster are in increasing order. *)
Theorem findMethodClusters_disjoint (callGraph : gmap string (gmap string Z))
    (privateMethods : gmap string methodCallInfo) :
  ∃ clusters,
    findMethodClusters callGraph privateMethods = Some clusters
    ∧ NoDup (concat (Methods <$> clusters))
    ∧ Forall (λ c, Sorted.StronglySorted String.le (Methods c)) clusters.
Proof.
  destruct (findMethodClusters_clusters callGraph privateMethods)
    as (uf & comps & sorted & _ & _ & Hcomps & Heq & Hmethods & _ & _).
  exists (renumber sorted). split; [done|]. rewrite renumber_Methods. split.
  - rewrite (concat_Permutation _ _ Hmethods), concat_sortStrings.
    apply NoDup_concat_filter. by eapply components_of_NoDup.
  - apply Forall_forall. intros c Hc.
    apply list_elem_of_lookup in Hc as [i Hc].
    apply renumber_lookup in Hc as (c0 & Hc0 & _ & -> & _).
    assert (Hin : Methods c0 ∈ sortStrings <$> filter (λ c, kept (length comps) c) comps).
    { rewrite <- Hmethods. apply list_elem_of_fmap. exists c0. split; [done|].
      by eapply list_elem_of_lookup_2. }
    apply list_elem_of_fmap in Hin as (comp & -> & _). apply sortStrings_sorted.
Qed.
End ClusterTheorems.

(** ** The clusters are the connected components of the call graph *)

(** An edge of the call graph. *)
Definition callEdge (callGraph : gmap string (gmap string Z)) (caller callee : string)
    : Prop :=
  ∃ callees, callGraph !! caller = Some callees ∧ is_Some (callees !! callee).

(** The methods [findMethodClusters] adds as nodes. *)
Definition clusterMethods (privateMethods : gmap string methodCallInfo) : gset string :=
  dom (filter (λ entry, isUtility entry.2 = false) privateMethods).

Lemma calleeLoop_edges nodes E (caller : string) (callees : list (string * Z))
    (uf : unionFind) :
  edges_inv nodes E uf → caller ∈ nodes → (∀ c, c ∈ callees.*1 → c ∈ nodes) →
  ∃ uf', uf_for callees (λ '(callee, _), union caller callee) uf = Some (tt, uf')
    ∧ edges_inv nodes (E ++ (pair caller <$> callees.*1)) uf'.
Proof.
  revert E uf. induction callees as [|[callee f] callees IH]; intros E uf Hinv Hc Hall; simpl.
  { exists uf. by rewrite app_nil_r. }
  destruct (union_edges_inv nodes E caller callee uf Hinv Hc) as (uf1 & Hun & Hinv1).
  { apply Hall. simpl. by left. }
  destruct (IH (E ++ [(caller, callee)]) uf1 Hinv1 Hc) as (uf' & Hrest & Hinv').
  { intros c Hcin. apply Hall. simpl. by right. }
  exists uf'. split.
  - unfold uf_bind. by rewrite Hun.
  - by rewrite <- app_assoc in Hinv'.
Qed.

Section ClusterEdges.
Context `{MapIteration}.

(** The unions of the second loop, in the order they are made. *)
Definition unionList (graph : list (string * gmap string Z)) : list (string * string) :=
  concat ((λ '(caller, callees), pair caller <$> (range_map callees).*1) <$> graph).

Lemma callerLoop_edges nodes E (graph : list (string * gmap string Z)) (uf : unionFind) :
  edges_inv nodes E uf →
  (∀ u v, (u, v) ∈ unionList graph → u ∈ nodes ∧ v ∈ nodes) →
  ∃ uf', uf_for graph (λ '(caller, callees),
           uf_for (range_map callees) (λ '(callee, _), union caller callee)) uf
         = Some (tt, uf')
    ∧ edges_inv nodes (E ++ unionList graph) uf'.
Proof.
  revert E uf. induction graph as [|[caller callees] graph IH]; intros E uf Hinv Hall.
  { exists uf. unfold unionList. simpl. by rewrite app_nil_r. }
  unfold unionList in *. simpl in *.
  destruct (range_map callees) as [|entry entries] eqn:Hentries.
  - simpl in *. destruct (IH E uf Hinv Hall) as (uf' & Hrest & Hinv').
    exists uf'. done.
  - destruct (calleeLoop_edges nodes E caller (entry :: entries) uf Hinv)
      as (uf1 & Hin & Hinv1).
    { apply (Hall caller entry.1). simpl. by left. }
    { intros c Hc. apply (Hall caller c). apply elem_of_app. left.
      apply list_elem_of_fmap. by exists c. }
    destruct (IH _ uf1 Hinv1) as (uf' & Hrest & Hinv').
    { intros u v Huv. apply Hall. apply elem_of_app. by right. }
    exists uf'. split.
    + unfold uf_bind. by rewrite Hin.
    + by rewrite <- app_assoc in Hinv'.
Qed.

Lemma elem_of_unionList (callGraph : gmap string (gmap string Z)) (u v : string) :
  (u, v) ∈ unionList (range_map callGraph) ↔ callEdge callGraph u v.
Proof.
  unfold unionList, callEdge. rewrite elem_of_concat. split.
  - intros (l & Hl & Huv). apply list_elem_of_fmap in Hl as ([caller callees] & -> & Hin).
    apply list_elem_of_fmap in Huv as (c & Heq & Hc). injection Heq as -> ->.
    unfold range_map in Hin. rewrite go_range_perm in Hin.
    apply elem_of_map_to_list in Hin. exists callees. split; [done|].
    apply elem_of_dom. by apply range_map_keys.
  - intros (callees & Hg & Hv). exists (pair u <$> (range_map callees).*1). split.
    + apply list_elem_of_fmap. exists (u, callees). split; [done|].
      unfold range_map. rewrite go_range_perm. by apply elem_of_map_to_list.
    + apply list_elem_of_fmap. exists v. split; [done|].
      apply range_map_keys. by apply elem_of_dom.
Qed.
End ClusterEdges.

Lemma rtsc_weaken (R R' : relation string) (x y : string) :
  (∀ u v, R u v → R' u v) → rtsc R x y → rtsc R' x y.
Proof.
  intros HR Hxy. unfold rtsc in *.
  induction Hxy as [x|x y z Hxy _ IH]; [constructor|].
  apply rtc_l with y; [|done].
  destruct Hxy as [Hxy|Hyx]; [left|right]; by apply HR.
Qed.

Section ClusterComponents.
Context `{MapIteration}.

Lemma clusterNodes_range (privateMethods : gmap string methodCallInfo) :
  clusterNodes (range_map privateMethods) = clusterMethods privateMethods.
Proof.
  apply set_eq. intros x. unfold clusterNodes, clusterMethods.
  rewrite elem_of_list_to_set, list_elem_of_fmap, elem_of_dom. split.
  - intros ([m info] & -> & Hin). apply list_elem_of_filter in Hin as [Hu Hin].
    unfold range_map in Hin. rewrite go_range_perm in Hin.
    apply elem_of_map_to_list in Hin. exists info.
    apply map_lookup_filter_Some. done.
  - intros [info Hinfo]. apply map_lookup_filter_Some in Hinfo as [Hinfo Hu].
    exists (x, info). split; [done|]. apply list_elem_of_filter. split; [done|].
    unfold range_map. rewrite go_range_perm. by apply elem_of_map_to_list.
Qed.

Lemma clusterForest_edges (callGraph : gmap string (gmap string Z))
    (privateMethods : gmap string methodCallInfo) :
  (∀ u v, callEdge callGraph u v →
     u ∈ clusterMethods privateMethods ∧ v ∈ clusterMethods privateMethods) →
  ∃ uf, clusterForest callGraph privateMethods = Some (tt, uf)
    ∧ dom (parent uf) = clusterMethods privateMethods
    ∧ ∀ x y, x ∈ clusterMethods privateMethods → y ∈ clusterMethods privateMethods →
        (same_root (parent uf) x y ↔ rtsc (callEdge callGraph) x y).
Proof.
  intros Hedges. unfold clusterForest.
  pose proof (addLoop_spec (range_map privateMethods) newUnionFind 0) as Hadd.
  destruct Hadd as [Hs1 Hd1]. { intros x v. simpl. by rewrite lookup_empty. }
  set (uf1 := (fold_left _ (range_map privateMethods) (newUnionFind, 0)).1) in *.
  assert (Hdom1 : dom (parent uf1) = clusterMethods privateMethods).
  { rewrite Hd1, clusterNodes_range. simpl. rewrite dom_empty_L. set_solver. }
  pose proof (singletons_edges_inv uf1 Hs1) as Hinv1. rewrite Hdom1 in Hinv1.
  destruct (callerLoop_edges _ [] (range_map callGraph) uf1 Hinv1)
    as (uf & Hloop & Hinv).
  { intros u v Huv. apply Hedges. by apply elem_of_unionList. }
  exists uf. split; [done|].
  destruct Hinv as (_ & _ & Hdom & Hsame). split; [done|].
  intros x y Hx Hy. rewrite (Hsame x y Hx Hy). simpl.
  split; apply rtsc_weaken; intros u v; apply elem_of_unionList.
Qed.
End ClusterComponents.

(** ** [buildPrivateMethodCallGraph] *)

(** The test on a called method and its frequency. *)
Definition isEdge (privateMethods : gmap string methodCallInfo)
    (calledMethod : string) (frequency : Z) : bool :=
  match privateMethods !! calledMethod with
  | Some calledInfo => negb (isUtility calledInfo) && (frequency >=? WeightThreshold)
  | None => false
  end.

Lemma calledLoop_graph (privateMethods : gmap string methodCallInfo)
    (privateMethod : string) (l : list (string * Z))
    (graph : gmap string (gmap string Z)) (callees : gmap string Z) :
  graph !! privateMethod = Some callees →
  fold_left
    (λ graph '(calledMethod, frequency),
       match privateMethods !! calledMethod with
       | Some calledInfo =>
           if negb (isUtility calledInfo) then
             if frequency >=? WeightThreshold then
               <[privateMethod :=
                   <[calledMethod := frequency]>
                     (default ∅ (graph !! privateMethod))]> graph
             else graph
           else graph
       | None => graph
       end) l graph
  = <[privateMethod :=
        fold_left
          (λ callees '(calledMethod, frequency),
             if isEdge privateMethods calledMethod frequency
             then <[calledMethod := frequency]> callees else callees)
          l callees]> graph.
Proof.
  revert graph callees. induction l as [|[c f] l IH]; intros graph callees Hg; simpl.
  { by rewrite insert_id. }
  unfold isEdge at 2.
  destruct (privateMethods !! c) as [ci|]; [|by apply IH].
  destruct (isUtility ci); simpl; [by apply IH|].
  destruct (f >=? WeightThreshold); [|by apply IH].
  rewrite Hg. simpl.
  rewrite (IH _ (<[c := f]> callees)) by by rewrite lookup_insert_eq.
  by rewrite insert_insert_eq.
Qed.

Lemma calledLoop_lookup (privateMethods : gmap string methodCallInfo)
    (l : list (string * Z)) (callees : gmap string Z) (c : string) (f : Z) :
  NoDup l.*1 → (∀ c, c ∈ l.*1 → callees !! c = None) →
  fold_left
    (λ callees '(calledMethod, frequency),
       if isEdge privateMethods calledMethod frequency
       then <[calledMethod := frequency]> callees else callees)
    l callees !! c = Some f
  ↔ ((c, f) ∈ l ∧ isEdge privateMethods c f = true) ∨ callees !! c = Some f.
Proof.
  revert callees. induction l as [|[c0 f0] l IH]; intros callees Hnd Hfresh; simpl.
  { split; [by right|]. intros [[Hin _]|?]; [by apply elem_of_nil in Hin|done]. }
  simpl in Hnd. apply NoDup_cons in Hnd as [Hc0 Hnd].
  assert (Hnone0 : callees !! c0 = None) by (apply Hfresh; simpl; by left).
  rewrite IH; [|done|].
  2:{ intros c' Hc'. destruct (isEdge privateMethods c0 f0).
      - rewrite lookup_insert_ne; [apply Hfresh; simpl; by right|].
        intros ->. done.
      - apply Hfresh. simpl. by right. }
  split.
  - intros [[Hin He]|Hacc]; [left; split; [by right|done]|].
    destruct (isEdge privateMethods c0 f0) eqn:He0; [|by right].
    destruct (decide (c0 = c)) as [->|Hne].
    + rewrite lookup_insert_eq in Hacc. injection Hacc as ->.
      left. split; [by left|done].
    + rewrite lookup_insert_ne in Hacc by done. by right.
  - intros [[Hin He]|Hacc].
    + apply elem_of_cons in Hin as [Heq|Hin]; [|by left].
      injection Heq as -> ->. right. rewrite He. by rewrite lookup_insert_eq.
    + right. destruct (isEdge privateMethods c0 f0); [|done].
      rewrite lookup_insert_ne; [done|]. intros ->. congruence.
Qed.

Lemma keyed_insert_loop {V W} (g : string → W) (l : list (string * V))
    (acc : gmap string W) (k : string) :
  fold_left (λ m '(key, _), <[key := g key]> m) l acc !! k
  = if decide (k ∈ l.*1) then Some (g k) else acc !! k.
Proof.
  revert acc. induction l as [|[k0 v] l IH]; intros acc.
  { destruct (decide (k ∈ ([] : list (string * V)).*1)) as [Hin|_]; [|done].
    by apply elem_of_nil in Hin. }
  cbn [fold_left]. rewrite IH.
  destruct (decide (k ∈ l.*1)) as [Hin|Hnin];
    destruct (decide (k ∈ ((k0, v) :: l).*1)) as [Hin'|Hnin']; try done.
  - exfalso. apply Hnin'. simpl. by right.
  - simpl in Hin'. apply elem_of_cons in Hin' as [->|Hin']; [|done].
    by rewrite lookup_insert_eq.
  - rewrite lookup_insert_ne; [done|]. intros ->. apply Hnin'. simpl. by left.
Qed.

(** A non-utility private method calls another one at least once. *)
Definition privateCall (privateMethods : gmap string methodCallInfo)
    (caller callee : string) : Prop :=
  ∃ info frequency calledInfo,
    privateMethods !! caller = Some info ∧ isUtility info = false
    ∧ calls info !! callee = Some frequency ∧ 1 ≤ frequency
    ∧ privateMethods !! callee = Some calledInfo ∧ isUtility calledInfo = false.

Section CallGraph.
Context `{MapIteration}.

(** The inner map that [buildPrivateMethodCallGraph] stores for a
    private method. *)
Definition calleesOf (privateMethods allMethods : gmap string methodCallInfo)
    (privateMethod : string) : gmap string Z :=
  match allMethods !! privateMethod with
  | Some info =>
      if isUtility info then ∅
      else
        fold_left
          (λ callees '(calledMethod, frequency),
             if isEdge privateMethods calledMethod frequency
             then <[calledMethod := frequency]> callees else callees)
          (range_map (calls info)) ∅
  | None => ∅
  end.

Lemma buildPrivateMethodCallGraph_lookup
    (privateMethods allMethods : gmap string methodCallInfo) (p : string) :
  buildPrivateMethodCallGraph privateMethods allMethods !! p
  = if decide (p ∈ dom privateMethods)
    then Some (calleesOf privateMethods allMethods p) else None.
Proof.
  unfold buildPrivateMethodCallGraph.
  assert (Hstep : ∀ (l : list (string * methodCallInfo))
                    (acc : gmap string (gmap string Z)),
    fold_left
      (λ graph '(privateMethod, _),
         let graph := <[privateMethod := ∅]> graph in
         match allMethods !! privateMethod with
         | Some info =>
             if isUtility info then graph
             else
               fold_left
                 (λ graph '(calledMethod, frequency),
                    match privateMethods !! calledMethod with
                    | Some calledInfo =>
                        if negb (isUtility calledInfo) then
                          if frequency >=? WeightThreshold then
                            <[privateMethod :=
                                <[calledMethod := frequency]>
                                  (default ∅ (graph !! privateMethod))]> graph
                          else graph
                        else graph
                    | None => graph
                    end)
                 (range_map (calls info)) graph
         | None => graph
         end) l acc
    = fold_left
        (λ graph '(privateMethod, _),
           <[privateMethod := calleesOf privateMethods allMethods privateMethod]> graph)
        l acc).
  { induction l as [|[pm pinfo] l IH]; intros acc; [done|].
    cbn [fold_left]. rewrite <- IH. f_equal. unfold calleesOf.
    destruct (allMethods !! pm) as [info|]; [|done].
    destruct (isUtility info); [done|].
    rewrite (calledLoop_graph privateMethods pm _ _ ∅) by by rewrite lookup_insert_eq.
    by rewrite insert_insert_eq. }
  rewrite Hstep, keyed_insert_loop.
  destruct (decide (p ∈ (range_map privateMethods).*1)) as [Hin|Hnin];
    destruct (decide (p ∈ dom privateMethods)) as [Hd|Hnd]; try done.
  - exfalso. apply Hnd. by apply range_map_keys.
  - exfalso. apply Hnin. by apply range_map_keys.
Qed.

Lemma buildPrivateMethodCallGraph_edges
    (privateMethods allMethods : gmap string methodCallInfo) (p c : string) :
  privateMethods ⊆ allMethods →
  callEdge (buildPrivateMethodCallGraph privateMethods allMethods) p c
  ↔ privateCall privateMethods p c.
Proof.
  intros Hsub. unfold callEdge, privateCall.
  rewrite buildPrivateMethodCallGraph_lookup. split.
  - intros (callees & Hg & [f Hf]).
    destruct (decide (p ∈ dom privateMethods)) as [Hp|]; [|done].
    injection Hg as <-. apply elem_of_dom in Hp as [info Hinfo].
    unfold calleesOf in Hf. rewrite (lookup_weaken _ _ _ _ Hinfo Hsub) in Hf.
    destruct (isUtility info) eqn:Hu; [by rewrite lookup_empty in Hf|].
    apply calledLoop_lookup in Hf; [|apply range_map_NoDup|done].
    destruct Hf as [[Hin He]|Hf]; [|by rewrite lookup_empty in Hf].
    unfold isEdge in He. destruct (privateMethods !! c) as [ci|] eqn:Hci; [|done].
    apply andb_true_iff in He as [Hnu Hge]. apply negb_true_iff in Hnu.
    exists info, f, ci. split; [done|]. split; [done|]. split.
    { unfold range_map in Hin. rewrite go_range_perm in Hin.
      by apply elem_of_map_to_list in Hin. }
    split; [|done]. unfold WeightThreshold in Hge.
    destruct (Z.geb_spec f 1); [lia|done].
  - intros (info & f & ci & Hinfo & Hu & Hf & Hge & Hci & Hcu).
    rewrite decide_True by (apply elem_of_dom; by exists info).
    eexists. split; [done|]. exists f.
    unfold calleesOf. rewrite (lookup_weaken _ _ _ _ Hinfo Hsub), Hu.
    apply calledLoop_lookup; [apply range_map_NoDup|done|]. left. split.
    + unfold range_map. rewrite go_range_perm. by apply elem_of_map_to_list.
    + unfold isEdge. rewrite Hci, Hcu. simpl. unfold WeightThreshold.
      destruct (Z.geb_spec f 1); [done|lia].
Qed.
End CallGraph.

Section ComponentsTheorem.
Context `{MapIteration} `{SliceSort}.

(** X23.  On the call graph that [buildPrivateMethodCallGraph] builds
    from methods among which the private ones are found, the clusters
    are the connected components of the calls between non-utility
    private methods, each with its methods sorted: every component with
    two methods or more, however many methods there are in all, and a
    component of one method only if it is the only component. *)
Theorem findMethodClusters_components
    (privateMethods allMethods : gmap string methodCallInfo) :
  privateMethods ⊆ allMethods →
  ∃ comps clusters,
    findMethodClusters (buildPrivateMethodCallGraph privateMethods allMethods)
      privateMethods = Some clusters
    ∧ components_of (clusterMethods privateMethods)
        (rtsc (privateCall privateMethods)) comps
    ∧ Methods <$> clusters
      ≡ₚ sortStrings <$>
           filter (λ c, (2 ≤ length c)%nat ∨ length comps = 1%nat) comps.
Proof.
  intros Hsub.
  set (callGraph := buildPrivateMethodCallGraph privateMethods allMethods).
  assert (Hedges : ∀ u v, callEdge callGraph u v ↔ privateCall privateMethods u v).
  { intros u v. by apply buildPrivateMethodCallGraph_edges. }
  destruct (findMethodClusters_clusters callGraph privateMethods)
    as (uf & comps & sorted & Hforest & _ & Hcomps & Heq & Hmethods & _ & _).
  destruct (clusterForest_edges callGraph privateMethods)
    as (uf2 & Hforest2 & Hdom & Hsame).
  { intros u v Huv. apply Hedges in Huv.
    destruct Huv as (info & f & ci & Hinfo & Hu & _ & _ & Hci & Hcu).
    unfold clusterMethods. split; apply elem_of_dom; eexists;
      apply map_lookup_filter_Some; split; done. }
  assert (uf2 = uf) as -> by congruence.
  exists comps, (renumber sorted). split; [done|]. split.
  - rewrite Hdom in Hcomps. eapply components_of_iff; [|exact Hcomps].
    intros x y Hx Hy. rewrite (Hsame x y Hx Hy).
    split; apply rtsc_weaken; intros u v; apply Hedges.
  - rewrite renumber_Methods, Hmethods.
    assert (filter (λ c, kept (length comps) c) comps
            = filter (λ c, (2 ≤ length c)%nat ∨ length comps = 1%nat) comps) as ->; [|done].
    apply list_filter_iff. intros c. unfold kept, MinClusterSize.
    rewrite orb_True, bool_decide_spec.
    destruct (Z.geb_spec (Z.of_nat (length c)) 2); simpl; split; intros [?|?];
      try (by right); try (by left); try done; lia.
Qed.
End ComponentsTheorem.

(** ** An instance *)

(** [b] is not less than [a]. *)
Definition notLess {A : Type} (less : A → A → bool) : relation A :=
  λ a b, less b a = false.

#[local] Instance notLess_dec {A : Type} (less : A → A → bool) :
  RelDecision (notLess less).
Proof. intros a b. unfold notLess. apply _. Defined.

Lemma merge_sort_less_sorted (A : Type) (less : A → A → bool) (l : list A) :
  (∀ a, less a a = false) →
  (∀ a b c, less a b = true → less b c = true → less a c = true) →
  (∀ a b c, less a b = false → less b c = false → less a c = false) →
  Sorted.StronglySorted (λ a b, less b a = false)
    (sorting.merge_sort (notLess less) l).
Proof.
  intros Hirr Htrans Hneg.
  assert (Transitive (notLess less)) as Htr.
  { intros a b c Hab Hbc. by apply (Hneg c b a). }
  assert (Total (notLess less)) as Htot.
  { intros a b. unfold notLess. destruct (less b a) eqn:Hba; [|by left]. right.
    destruct (less a b) eqn:Hab; [|done].
    pose proof (Hirr a) as Haa. by rewrite (Htrans a b a Hab Hba) in Haa. }
  exact (sorting.StronglySorted_merge_sort (notLess less) l).
Qed.

(** One admissible [sort.Slice]: a merge sort. *)
Definition merge_sort_slice : SliceSort :=
  {| sort_slice := λ A less l, sorting.merge_sort (notLess less) l;
     sort_slice_perm := λ A less l, sorting.merge_sort_Permutation (notLess less) l;
     sort_slice_sorted := merge_sort_less_sorted |}.

(** Two private methods, [load] calling [parse] twice. *)
Definition clusterExample : gmap string methodCallInfo :=
  {[ "load" := {| mname := "load"; isPrivate := true; calls := {[ "parse" := 2 ]};
                  calledBy := []; receiverName := "s"; isUtility := false |};
     "parse" := {| mname := "parse"; isPrivate := true; calls := ∅;
                   calledBy := ["load"]; receiverName := "s"; isUtility := false |} ]}.

Lemma findMethodClusters_components_witness :
  ∃ comps clusters,
    @findMethodClusters canonical_iteration merge_sort_slice
      (@buildPrivateMethodCallGraph canonical_iteration clusterExample clusterExample)
      clusterExample = Some clusters
    ∧ components_of (clusterMethods clusterExample)
        (rtsc (privateCall clusterExample)) comps
    ∧ Methods <$> clusters
      ≡ₚ sortStrings <$>
           filter (λ c, (2 ≤ length c)%nat ∨ length comps = 1%nat) comps.
Proof.
  apply (@findMethodClusters_components canonical_iteration merge_sort_slice
           clusterExample clusterExample).
  reflexivity.
Defined.
